(** * VibeSpec: the hybrid refinement pipeline

    A shallow embedding of the TypeScript sources of the pipeline
    (heuristic parser, LRU result cache, provider-response repair and the
    [Processor] orchestration) together with the properties the
    specification states about them.

    Modelling conventions.
    - A JavaScript string is a list of characters ([str]).  Texts are taken
      to be ASCII: case mapping touches the letters [A-Z]/[a-z] only and
      white space is the ASCII white space (codes 9-13 and 32).
    - A JavaScript [number] that only ever holds a count or a capacity is an
      integer of [Z].
    - A JavaScript [Map] and [Set] keep insertion order, which the code
      relies on; they are association lists and duplicate-free lists.
    - A value that comes out of [JSON.parse] is untyped ([JSValue]); the
      fields of a spec hold such values, since a provider payload is cast
      to [VibeSpec] unchecked.
    - Exceptions are values of a sum type ([inl] carries the error).
    - Everything the code obtains from outside (system clock, SHA-256,
      configuration file, API token, provider reply, terminal, user answers)
      is an explicit argument. *)

From Stdlib Require Import List String Ascii Bool Arith ZArith QArith.
From Stdlib Require Import Lia Sorted.
Import ListNotations.

Close Scope Q_scope.
Set Implicit Arguments.

(* ================================================================== *)
(** * JavaScript strings *)
(* ================================================================== *)

Module JS.

Definition str := list ascii.

Definition lit (s : string) : str := list_ascii_of_string s.
Coercion lit : string >-> str.

Definition lits (l : list string) : list str := map lit l.

Definition str_eqb (a b : str) : bool :=
  if list_eq_dec ascii_dec a b then true else false.

Definition code (c : ascii) : nat := nat_of_ascii c.

Definition between (lo hi : nat) (c : ascii) : bool :=
  (lo <=? code c) && (code c <=? hi).

(** [A-Z], [a-z], [0-9], [\w] and [\s] of a regular expression without the
    [u] flag. *)
Definition is_upper (c : ascii) : bool := between 65 90 c.
Definition is_lower (c : ascii) : bool := between 97 122 c.
Definition is_digit (c : ascii) : bool := between 48 57 c.
Definition is_word (c : ascii) : bool :=
  is_upper c || is_lower c || is_digit c || (code c =? 95).
Definition is_space (c : ascii) : bool :=
  between 9 13 c || (code c =? 32).

Definition toLowerChar (c : ascii) : ascii :=
  if is_upper c then ascii_of_nat (code c + 32) else c.
Definition toUpperChar (c : ascii) : ascii :=
  if is_lower c then ascii_of_nat (code c - 32) else c.

(** [String.prototype.toLowerCase], [toUpperCase]. *)
Definition toLowerCase (s : str) : str := map toLowerChar s.
Definition toUpperCase (s : str) : str := map toUpperChar s.

Fixpoint dropWhile (p : ascii -> bool) (s : str) : str :=
  match s with
  | [] => []
  | c :: s' => if p c then dropWhile p s' else s
  end.

Fixpoint takeWhile (p : ascii -> bool) (s : str) : str :=
  match s with
  | [] => []
  | c :: s' => if p c then c :: takeWhile p s' else []
  end.

(** [String.prototype.trimStart], [trimEnd], [trim]. *)
Definition trimStart (s : str) : str := dropWhile is_space s.
Definition trimEnd (s : str) : str := rev (dropWhile is_space (rev s)).
Definition trim (s : str) : str := trimEnd (trimStart s).

(** [s.startsWith(p)] *)
Fixpoint startsWith (p s : str) : bool :=
  match p, s with
  | [], _ => true
  | _ :: _, [] => false
  | a :: p', b :: s' => Ascii.eqb a b && startsWith p' s'
  end.

(** [s.includes(needle)] *)
Fixpoint includes (s needle : str) : bool :=
  startsWith needle s ||
  match s with
  | [] => false
  | _ :: s' => includes s' needle
  end.

(** [s.substring(0, n)] and [s.slice(n)] for [0 <= n]. *)
Definition substring0 (n : nat) (s : str) : str := firstn n s.
Definition slice_from (n : nat) (s : str) : str := skipn n s.

(** [parts.join(sep)] *)
Fixpoint join (sep : str) (parts : list str) : str :=
  match parts with
  | [] => []
  | [p] => p
  | p :: rest => p ++ sep ++ join sep rest
  end.

(** [s.split(/[...]+/)] for a character class: the pieces between the
    maximal runs of separator characters.  A run at either end leaves an
    empty piece there, and the empty string splits into one empty piece. *)
Fixpoint split_go (sep : ascii -> bool) (s : str) (cur : str) (inrun : bool)
  : list str :=
  match s with
  | [] => [rev cur]
  | c :: s' =>
      if sep c then
        if inrun then split_go sep s' [] true
        else rev cur :: split_go sep s' [] true
      else split_go sep s' (c :: cur) false
  end.

Definition split_runs (sep : ascii -> bool) (s : str) : list str :=
  split_go sep s [] false.

(** The number of matches of a one-character pattern with the [g] flag:
    [(s.match(/c/g) || []).length]. *)
Definition count_char (c : ascii) (s : str) : nat :=
  List.length (filter (Ascii.eqb c) s).

(** [o || dflt] on an optional string. *)
Definition or_else (o : option str) (dflt : str) : str :=
  match o with
  | Some (c :: s) => c :: s
  | _ => dflt
  end.

(** The values [JSON.parse] can return, and [undefined] for a property
    that is not there.  A finite number is the rational the double
    denotes; a number literal out of range parses to an infinity. *)
#[warnings="-register-all"] Inductive JSValue :=
| JUndefined
| JNull
| JBool (b : bool)
| JNumber (n : Q)
| JInfinity (negative : bool)
| JString (s : str)
| JArray (items : list JSValue)
| JObject (members : list (str * JSValue)).

(** Truthiness, as [!v] tests it: [undefined], [null], [false], [0] and
    [''] are falsy, every other value is truthy (arrays and objects also
    when they are empty). *)
Definition truthy_value (v : JSValue) : bool :=
  match v with
  | JUndefined | JNull => false
  | JBool b => b
  | JNumber n => negb (Qeq_bool n 0)
  | JInfinity _ => true
  | JString [] => false
  | JString (_ :: _) => true
  | JArray _ | JObject _ => true
  end.

(** An array of strings. *)
Definition strings (l : list str) : JSValue := JArray (map JString l).

End JS.

Import JS.

(* ================================================================== *)
(** * Types ([src/types]) *)
(* ================================================================== *)

Inductive Domain :=
| frontend | backend | fullstack | mobile
| infrastructure | testing | devops | data.

Inductive AIProvider := openai | claude | glm | openrouter.

Inductive RefinementMethod := ai | wizard | heuristic.

(** The string a value of a string-literal union is at run time. *)
Definition domain_name (d : Domain) : str :=
  match d with
  | frontend => "frontend" | backend => "backend"
  | fullstack => "fullstack" | mobile => "mobile"
  | infrastructure => "infrastructure" | testing => "testing"
  | devops => "devops" | data => "data"
  end%string.

Definition provider_name (p : AIProvider) : str :=
  match p with
  | openai => "openai" | claude => "claude"
  | glm => "glm" | openrouter => "openrouter"
  end%string.

Definition provider_eqb (a b : AIProvider) : bool :=
  match a, b with
  | openai, openai | claude, claude | glm, glm | openrouter, openrouter => true
  | _, _ => false
  end.

(** [ProcessingMetadata].  [heuristic_confidence] is an IEEE double in the
    source; it is carried as the exact rational its defining expression
    denotes. *)
Record ProcessingMetadata := mkProcessing {
  provider : AIProvider;
  model : str;
  heuristic_confidence : Q;
  ai_refinement_applied : bool;
  cache_hit : bool;
  refinement_method : option RefinementMethod
}.

Record SpecMetadata := mkMetadata {
  spec_version : str;
  generated_by : str;
  generated_at : str;
  input_hash : str;
  processing : ProcessingMetadata
}.

(** [VibeSpec], as it is at run time.  A provider payload is the untyped
    result of [JSON.parse], cast to [VibeSpec] unchecked, so each field may
    hold any value; a field that is not there is [undefined].  The
    optional extension fields (entities, api_endpoints, ...) play no part in
    the pipeline and are left out. *)
Record VibeSpec := mkSpec {
  title : JSValue;
  domain : JSValue;
  description : JSValue;
  requirements : JSValue;
  components : JSValue;
  tech_stack : JSValue;
  acceptance_criteria : JSValue;
  ai_guidance : JSValue;
  metadata : option SpecMetadata
}.

(** Heuristic parsing output (before AI refinement). *)
Module HeuristicOutput.
Record t := mk {
  title : option str;
  domain : option Domain;
  description : option str;
  requirements : list str;
  components : list str;
  tech_stack : list str;
  acceptance_criteria : list str;
  confidence : Q
}.
End HeuristicOutput.

(** User configuration and the defaults of [src/types/config.ts]. *)
Module VibesConfig.
Record t := mk {
  provider : AIProvider;
  model : str;
  useCache : bool
}.
End VibesConfig.

Definition DEFAULT_CONFIG : VibesConfig.t :=
  VibesConfig.mk openai "gpt-4o-mini"%string true.

(** [PROVIDER_CONFIGS[provider].model] *)
Definition PROVIDER_CONFIGS_model (p : AIProvider) : str :=
  match p with
  | openai => "gpt-4o-mini"
  | claude => "claude-3-haiku-20240307"
  | glm => "glm-4.0"
  | openrouter => "meta-llama/llama-3.1-8b-instruct:free"
  end%string.

(** Errors thrown by the modelled code. *)
Inductive Error :=
| InputTooShort
| MissingRequiredFields (missing : list str)
| OtherError (message : str).

Definition result (A : Type) : Type := (Error + A)%type.

(* ================================================================== *)
(** * The result cache ([src/utils/cache.ts]) *)
(* ================================================================== *)

(** A JavaScript [Map] with string keys: entries in insertion order. *)
Module JSMap.

Section Ops.
Variable V : Type.

Definition t := list (str * V).

Fixpoint get (m : t) (k : str) : option V :=
  match m with
  | [] => None
  | (k', v) :: m' => if str_eqb k' k then Some v else get m' k
  end.

Definition has (m : t) (k : str) : bool :=
  match get m k with Some _ => true | None => false end.

Fixpoint delete (m : t) (k : str) : t :=
  match m with
  | [] => []
  | (k', v) :: m' => if str_eqb k' k then m' else (k', v) :: delete m' k
  end.

(** [m.set(k, v)]: an existing key keeps its place, a new one goes last. *)
Fixpoint set (m : t) (k : str) (v : V) : t :=
  match m with
  | [] => [(k, v)]
  | (k', v') :: m' =>
      if str_eqb k' k then (k', v) :: m' else (k', v') :: set m' k v
  end.

Definition size (m : t) : Z := Z.of_nat (List.length m).

Definition keys (m : t) : list str := map fst m.

(** [m.keys().next().value] *)
Definition first_key (m : t) : option str := hd_error (keys m).

End Ops.

End JSMap.

Module CacheEntry.
Record t := mk {
  key : str;
  value : VibeSpec;
  timestamp : Z
}.
End CacheEntry.

Module CacheStats.
Record t := mk {
  size : Z;
  maxSize : Z;
  hits : Z;
  misses : Z;
  evictions : Z
}.
End CacheStats.

Module LRUCache.

Record t := mk {
  cache : JSMap.t CacheEntry.t;
  maxSize : Z;
  stats : CacheStats.t
}.

(** [constructor(maxSize = 50)] *)
Definition new (maxSize : Z) : t :=
  mk [] maxSize (CacheStats.mk 0 maxSize 0 0 0).

Definition with_stats (c : t) (f : CacheStats.t -> CacheStats.t) : t :=
  mk (cache c) (maxSize c) (f (stats c)).

Definition incr_hits (s : CacheStats.t) : CacheStats.t :=
  CacheStats.mk (CacheStats.size s) (CacheStats.maxSize s)
    (CacheStats.hits s + 1) (CacheStats.misses s) (CacheStats.evictions s).

Definition incr_misses (s : CacheStats.t) : CacheStats.t :=
  CacheStats.mk (CacheStats.size s) (CacheStats.maxSize s)
    (CacheStats.hits s) (CacheStats.misses s + 1) (CacheStats.evictions s).

Definition incr_evictions (s : CacheStats.t) : CacheStats.t :=
  CacheStats.mk (CacheStats.size s) (CacheStats.maxSize s)
    (CacheStats.hits s) (CacheStats.misses s) (CacheStats.evictions s + 1).

Definition set_size (n : Z) (s : CacheStats.t) : CacheStats.t :=
  CacheStats.mk n (CacheStats.maxSize s)
    (CacheStats.hits s) (CacheStats.misses s) (CacheStats.evictions s).

(** The body of [get] once the key is computed. *)
Definition get_key (c : t) (key : str) : option VibeSpec * t :=
  match JSMap.get (cache c) key with
  | Some entry =>
      (* move to end (most recently used) *)
      let m1 := JSMap.delete (cache c) key in
      let m2 := JSMap.set m1 key entry in
      (Some (CacheEntry.value entry),
       mk m2 (maxSize c) (incr_hits (stats c)))
  | None => (None, with_stats c incr_misses)
  end.

(** The eviction step of [set]: [if (this.cache.size >= this.maxSize)]. *)
Definition evict_oldest (c : t) : t :=
  if (JSMap.size (cache c) >=? maxSize c)%Z then
    match JSMap.first_key (cache c) with
    | Some (ch :: rest) =>
        (* [if (oldestKey)]: a defined, non-empty key *)
        mk (JSMap.delete (cache c) (ch :: rest)) (maxSize c)
           (incr_evictions (stats c))
    | _ => c
    end
  else c.

(** The body of [set] once the key is computed; [now] is [Date.now()]. *)
Definition set_key (c : t) (key : str) (value : VibeSpec) (now : Z) : t :=
  let c1 :=
    if JSMap.has (cache c) key
    then mk (JSMap.delete (cache c) key) (maxSize c) (stats c)
    else c in
  let c2 := evict_oldest c1 in
  let m3 := JSMap.set (cache c2) key (CacheEntry.mk key value now) in
  mk m3 (maxSize c2) (set_size (JSMap.size m3) (stats c2)).

Definition clear (c : t) : t :=
  mk [] (maxSize c) (CacheStats.mk 0 (CacheStats.maxSize (stats c)) 0 0 0).

Definition getStats (c : t) : CacheStats.t := stats c.

Definition size (c : t) : Z := JSMap.size (cache c).

Definition has_key (c : t) (key : str) : bool := JSMap.has (cache c) key.

Section Keyed.

(** [crypto.createHash('sha256').update(data).digest('hex')] *)
Variable sha256_hex : str -> str.

Definition generateKey (input : str) (provider : AIProvider) (model : str)
  : str :=
  let normalized := toLowerCase (trim input) in
  let data :=
    normalized ++ lit "::" ++ provider_name provider ++ lit "::" ++ model in
  sha256_hex data.

Definition get (c : t) (input : str) (provider : AIProvider) (model : str)
  : option VibeSpec * t :=
  get_key c (generateKey input provider model).

Definition set (c : t) (input : str) (provider : AIProvider) (model : str)
  (value : VibeSpec) (now : Z) : t :=
  set_key c (generateKey input provider model) value now.

Definition has (c : t) (input : str) (provider : AIProvider) (model : str)
  : bool :=
  has_key c (generateKey input provider model).

End Keyed.

(** [getCache()]: the singleton is created with capacity 50. *)
Definition getCache_initial : t := new 50.

End LRUCache.

(* ================================================================== *)
(** * JavaScript arrays, sets and regular expressions used below *)
(* ================================================================== *)

Module JSArray.

Section Sort.
Variable A : Type.
(** The comparator of [Array.prototype.sort]: negative when the first
    argument goes first. *)
Variable compare : A -> A -> Z.

Fixpoint insert_sorted (x : A) (l : list A) : list A :=
  match l with
  | [] => [x]
  | y :: l' =>
      if (compare x y <=? 0)%Z then x :: l else y :: insert_sorted x l'
  end.

(** [Array.prototype.sort] is stable: elements that compare equal keep
    their order. *)
Definition sort (l : list A) : list A := fold_right insert_sorted [] l.

End Sort.

(** [Set.prototype.add] on a set kept in insertion order. *)
Definition set_add (x : str) (s : list str) : list str :=
  if existsb (str_eqb x) s then s else s ++ [x].

(** [xs.forEach(x => set.add(x))] *)
Definition set_add_all (xs : list str) (s : list str) : list str :=
  fold_left (fun acc x => set_add x acc) xs s.

End JSArray.

Module Regex.

Definition is_word_opt (o : option ascii) : bool :=
  match o with Some c => is_word c | None => false end.

(** [\b] between the character before and the character after a position
    (absent at either end of the text). *)
Definition boundary (before after : option ascii) : bool :=
  xorb (is_word_opt before) (is_word_opt after).

(** Case-insensitive prefix test (flag [i]). *)
Fixpoint startsWith_ci (p s : str) : bool :=
  match p, s with
  | [], _ => true
  | _ :: _, [] => false
  | a :: p', b :: s' =>
      Ascii.eqb (toUpperChar a) (toUpperChar b) && startsWith_ci p' s'
  end.

(** All matches of a pattern with the [g] flag, [text.match(re)] or
    [text.matchAll(re)]: [match_at before s] is the length of the match
    that starts at the head of [s], [before] being the character in front
    of it.  The scan resumes behind a match; [skip] counts the characters
    of the current match still to pass. *)
Section Global.
Variable match_at : option ascii -> str -> option nat.

Fixpoint scan (before : option ascii) (s : str) (skip : nat) : list str :=
  match s with
  | [] => []
  | c :: s' =>
      match skip with
      | S k => scan (Some c) s' k
      | O =>
          match match_at before s with
          | Some len => firstn len s :: scan (Some c) s' (len - 1)
          | None => scan (Some c) s' 0
          end
      end
  end.

Definition match_all (s : str) : list str := scan None s 0.

End Global.

(** [new RegExp(`\\b${word}\\b`, 'i').test(s)] *)
Fixpoint test_word_from (word : str) (before : option ascii) (s : str)
  : bool :=
  (boundary before (hd_error s)
   && startsWith_ci word s
   && boundary
        (match rev (firstn (List.length word) s) with
         | c :: _ => Some c
         | [] => before
         end)
        (hd_error (skipn (List.length word) s)))
  || match s with
     | [] => false
     | c :: s' => test_word_from word (Some c) s'
     end.

Definition test_word (word s : str) : bool := test_word_from word None s.

(** [/\b[A-Z][a-z]+(?:[A-Z][a-z]+)*\b/]: capitalised words, possibly in
    camel case.  After the leading capital the match runs over humps
    [[A-Z][a-z]+]; it succeeds only if the run of humps ends at a word
    boundary (giving back characters never reaches one). *)
Inductive camel_state := NeedLower | InLower.

Fixpoint camel_go (st : camel_state) (s : str) (n : nat) : option nat :=
  match s with
  | [] => match st with InLower => Some n | NeedLower => None end
  | c :: s' =>
      match st with
      | NeedLower => if is_lower c then camel_go InLower s' (S n) else None
      | InLower =>
          if is_lower c then camel_go InLower s' (S n)
          else if is_upper c then camel_go NeedLower s' (S n)
          else if is_word c then None
          else Some n
      end
  end.

Definition capitalized_at (before : option ascii) (s : str) : option nat :=
  match s with
  | c :: s' =>
      if is_upper c && negb (is_word_opt before)
      then camel_go NeedLower s' 1
      else None
  | [] => None
  end.

(** [/(\w+)(?:Form|Table|...|View)/gi] *)
Definition COMPONENT_SUFFIXES : list str :=
  lits ["Form"; "Table"; "List"; "Card"; "Modal"; "Panel"; "Service";
        "Manager"; "Handler"; "Controller"; "View"]%string.

Fixpoint first_alternative (alts : list str) (s : str) : option nat :=
  match alts with
  | [] => None
  | a :: alts' =>
      if startsWith_ci a s then Some (List.length a)
      else first_alternative alts' s
  end.

(** [\w+] is greedy: the longest word prefix that a suffix follows wins. *)
Fixpoint word_then_suffix (alts : list str) (s : str) : option nat :=
  match s with
  | [] => None
  | c :: s' =>
      if is_word c then
        match word_then_suffix alts s' with
        | Some n => Some (S n)
        | None =>
            match first_alternative alts s' with
            | Some m => Some (S m)
            | None => None
            end
        end
      else None
  end.

Definition suffixed_at (before : option ascii) (s : str) : option nat :=
  word_then_suffix COMPONENT_SUFFIXES s.

End Regex.

(* ================================================================== *)
(** * The heuristic parser ([src/core/heuristic-parser.ts]) *)
(* ================================================================== *)

Module HeuristicParser.

Definition TECH_KEYWORDS : list str :=
  lits ["react"; "vue"; "angular"; "svelte"; "next"; "nuxt";
        "node"; "express"; "nestjs"; "fastify"; "koa";
        "django"; "flask"; "fastapi"; "spring"; "laravel";
        "postgres"; "mysql"; "mongodb"; "redis"; "elasticsearch";
        "docker"; "kubernetes"; "aws"; "azure"; "gcp";
        "typescript"; "javascript"; "python"; "java"; "go"; "rust";
        "graphql"; "rest"; "grpc"; "websocket";
        "jest"; "mocha"; "pytest"; "junit"]%string.

(** [Object.entries(DOMAIN_PATTERNS)], in declaration order. *)
Definition DOMAIN_PATTERNS : list (Domain * list str) :=
  [ (frontend, lits ["ui"; "component"; "dashboard"; "page"; "responsive";
                     "interface"; "form"; "button"; "modal"; "layout"]%string);
    (backend, lits ["api"; "endpoint"; "database"; "authentication";
                    "service"; "server"; "auth"; "jwt"; "session"]%string);
    (fullstack, lits ["fullstack"; "full-stack"; "full stack"; "end-to-end";
                      "e2e"]%string);
    (mobile, lits ["mobile"; "ios"; "android"; "app"; "native";
                   "react native"; "flutter"]%string);
    (infrastructure, lits ["deployment"; "ci/cd"; "docker"; "kubernetes";
                           "infrastructure"; "devops"; "cloud"]%string);
    (testing, lits ["test"; "testing"; "qa"; "validation"; "coverage";
                    "unit test"; "integration test"]%string);
    (devops, lits ["pipeline"; "automation"; "monitoring"; "logging";
                   "deployment"; "cicd"]%string);
    (data, lits ["analytics"; "etl"; "data pipeline"; "warehouse";
                 "bigquery"; "spark"; "airflow"]%string) ].

Definition ACTION_VERBS : list str :=
  lits ["add"; "create"; "build"; "implement"; "develop";
        "update"; "modify"; "change"; "edit";
        "delete"; "remove";
        "display"; "show"; "render"; "visualize";
        "handle"; "process"; "manage";
        "validate"; "verify"; "check";
        "integrate"; "connect";
        "support"; "enable"; "allow"]%string.

Definition domain_eqb (a b : Domain) : bool :=
  match a, b with
  | frontend, frontend | backend, backend | fullstack, fullstack
  | mobile, mobile | infrastructure, infrastructure | testing, testing
  | devops, devops | data, data => true
  | _, _ => false
  end.

Definition capitalizeFirst (s : str) : str :=
  match s with
  | [] => []
  | c :: rest => toUpperChar c :: rest
  end.

Definition is_terminator (c : ascii) : bool :=
  (code c =? 46) || (code c =? 33) || (code c =? 63).

Definition nonempty (s : str) : bool :=
  match s with [] => false | _ :: _ => true end.

(** [text.split(/[.!?]+/).map(s => s.trim()).filter(s => s.length > 0)] *)
Definition splitIntoSentences (text : str) : list str :=
  filter nonempty (map trim (split_runs is_terminator text)).

Definition extractTitle (sentences : list str) : str :=
  match sentences with
  | [] => lit "Untitled Requirement"
  | first :: _ =>
      if List.length first <=? 60 then capitalizeFirst first
      else
        let words := firstn 8 (split_runs is_space first) in
        capitalizeFirst (join (lit " ") words) ++ lit "..."
  end.

(** The [scores] record, its properties in creation order. *)
Definition initial_scores : list (Domain * Z) :=
  [ (frontend, 0%Z); (backend, 0%Z); (fullstack, 0%Z); (mobile, 0%Z);
    (infrastructure, 0%Z); (testing, 0%Z); (devops, 0%Z); (data, 0%Z) ].

(** [scores[domain] += 1] *)
Fixpoint bump (d : Domain) (scores : list (Domain * Z)) : list (Domain * Z) :=
  match scores with
  | [] => []
  | (d', n) :: rest =>
      if domain_eqb d' d then (d', (n + 1)%Z) :: rest
      else (d', n) :: bump d rest
  end.

Definition score_keywords (lower : str) (d : Domain) (keywords : list str)
  (scores : list (Domain * Z)) : list (Domain * Z) :=
  fold_left (fun sc keyword => if includes lower keyword then bump d sc else sc)
    keywords scores.

Definition score_domains (lower : str) : list (Domain * Z) :=
  fold_left (fun sc entry => score_keywords lower (fst entry) (snd entry) sc)
    DOMAIN_PATTERNS initial_scores.

Definition detectDomain (text : str) : option Domain :=
  let lower := toLowerCase text in
  let scores := score_domains lower in
  let entries :=
    JSArray.sort (fun a b : Domain * Z => (snd b - snd a)%Z) scores in
  match entries with
  | (d, n) :: _ => if (0 <? n)%Z then Some d else None
  | [] => None
  end.

Definition generateDescription (sentences : list str) : str :=
  match sentences with
  | [] => []
  | _ :: _ =>
      let desc := join (lit ". ") (firstn 3 sentences) in
      if List.length desc <=? 500 then desc
      else substring0 497 desc ++ lit "..."
  end.

Definition hasActionVerb (sentence : str) : bool :=
  let lower := toLowerCase sentence in
  existsb (fun verb => Regex.test_word verb lower) ACTION_VERBS.

Definition extractRequirements (sentences : list str) : list str :=
  let requirements :=
    map capitalizeFirst
      (filter (fun sentence =>
                 hasActionVerb sentence && (10 <=? List.length sentence))
              sentences) in
  match requirements with
  | [] => map capitalizeFirst sentences
  | _ :: _ => requirements
  end.

Definition extractComponents (text : str) : list str :=
  let capitalizedWords := Regex.match_all Regex.capitalized_at text in
  let components := JSArray.set_add_all capitalizedWords [] in
  let matches := Regex.match_all Regex.suffixed_at text in
  let components := JSArray.set_add_all matches components in
  firstn 10 components.

Definition detectTechStack (words : list str) : list str :=
  fold_left
    (fun detected word =>
       let lower := toLowerCase word in
       if existsb (str_eqb lower) TECH_KEYWORDS
       then JSArray.set_add (capitalizeFirst lower) detected
       else detected)
    words [].

Definition extractAcceptanceCriteria (sentences : list str) : list str :=
  map capitalizeFirst
    (filter (fun sentence =>
               let lower := toLowerCase sentence in
               includes lower (lit "should") || includes lower (lit "must")
               || includes lower (lit "needs to")
               || includes lower (lit "has to")
               || includes lower (lit "required to"))
            sentences).

Definition qmin (a b : Q) : Q := if Qle_bool a b then a else b.

Definition count_included (lower : str) (keywords : list str) : Z :=
  Z.of_nat (List.length (filter (fun k => includes lower k) keywords)).

Definition calculateConfidence (text : str) : Q :=
  let lower := toLowerCase text in
  let s0 := (if 100 <? List.length text then 2 # 10 else 0)%Q in
  let s1 := (s0 + (if 200 <? List.length text then 1 # 10 else 0))%Q in
  let techCount := count_included lower TECH_KEYWORDS in
  let s2 := (s1 + qmin (inject_Z techCount * (1 # 10)) (3 # 10))%Q in
  let actionCount := count_included lower ACTION_VERBS in
  let s3 := (s2 + qmin (inject_Z actionCount * (5 # 100)) (2 # 10))%Q in
  let domainKeywords := List.concat (map snd DOMAIN_PATTERNS) in
  let domainCount := count_included lower domainKeywords in
  let s4 := (s3 + qmin (inject_Z domainCount * (5 # 100)) (2 # 10))%Q in
  qmin s4 1%Q.

Definition parse (input : str) : result HeuristicOutput.t :=
  let normalized := trim input in
  if List.length normalized <? 20 then inl InputTooShort
  else
    let sentences := splitIntoSentences normalized in
    let words := split_runs is_space (toLowerCase normalized) in
    inr (HeuristicOutput.mk
           (Some (extractTitle sentences))
           (detectDomain normalized)
           (Some (generateDescription sentences))
           (extractRequirements sentences)
           (extractComponents normalized)
           (detectTechStack words)
           (extractAcceptanceCriteria sentences)
           (calculateConfidence normalized)).

End HeuristicParser.

(* ================================================================== *)
(** * Provider responses ([OpenRouterAdapter], [src/core/ai-adapters.ts]) *)
(* ================================================================== *)

Module OpenRouterAdapter.

Definition quote : ascii := ascii_of_nat 34.
Definition backslash : ascii := ascii_of_nat 92.
Definition colon : ascii := ascii_of_nat 58.

Definition is_quote (c : ascii) : bool := Ascii.eqb c quote.
Definition not_quote (c : ascii) : bool := negb (is_quote c).

(** [text.replace(re, callback)] with the [g] flag for a pattern that never
    matches the empty string: [match_at] gives the length of the match at
    the head of the text and its captured groups, [replacer] is the
    callback applied to the matched text and the groups. *)
Section Replace.
Variable G : Type.
Variable match_at : str -> option (nat * G).
Variable replacer : str -> G -> str.

Fixpoint replace_go (s : str) (skip : nat) : str :=
  match s with
  | [] => []
  | c :: s' =>
      match skip with
      | S k => replace_go s' k
      | O =>
          match match_at s with
          | Some (len, groups) =>
              replacer (firstn len s) groups ++ replace_go s' (len - 1)
          | None => c :: replace_go s' 0
          end
      end
  end.

Definition replace_all (s : str) : str := replace_go s 0.

End Replace.

(** One match of the pattern of [fixUnescapedQuotes] at the head of the
    text: a quote, one or more characters other than a quote (the group
    [key]), a quote, a colon, any white space, a quote, any characters
    other than a quote (the group [value]), a quote.  The result is the
    length of the match and the groups.  No class of the pattern can run
    over a quote, so each group ends at the next quote. *)
Definition key_value_at (s : str) : option (nat * (str * str)) :=
  match s with
  | q :: r1 =>
      if is_quote q then
        let key := takeWhile not_quote r1 in
        match key, dropWhile not_quote r1 with
        | _ :: _, _ :: c :: r2 =>
            if Ascii.eqb c colon then
              let ws := takeWhile is_space r2 in
              match dropWhile is_space r2 with
              | q3 :: r3 =>
                  if is_quote q3 then
                    let value := takeWhile not_quote r3 in
                    match dropWhile not_quote r3 with
                    | _ :: _ =>
                        Some (1 + List.length key + 2 + List.length ws
                              + 1 + List.length value + 1,
                              (key, value))
                    | [] => None
                    end
                  else None
              | [] => None
              end
            else None
        | _, _ => None
        end
      else None
  | [] => None
  end.

(** [value.replace(/Q/g, '\\Q')], Q the double quote. *)
Definition escape_quotes (value : str) : str :=
  flat_map (fun c => if is_quote c then [backslash; quote] else [c]) value.

(** The callback of [fixUnescapedQuotes]. *)
Definition fix_pair (matched : str) (groups : str * str) : str :=
  let (key, value) := groups in
  if includes value [quote] && negb (includes value [backslash; quote])
  then
    [quote] ++ key ++ [quote] ++ lit ": " ++ [quote]
      ++ escape_quotes value ++ [quote]
  else matched.

Definition fixUnescapedQuotes (jsonStr : str) : str :=
  replace_all key_value_at fix_pair jsonStr.

Definition open_brace : ascii := ascii_of_nat 123.
Definition close_brace : ascii := ascii_of_nat 125.
Definition open_bracket : ascii := ascii_of_nat 91.
Definition close_bracket : ascii := ascii_of_nat 93.

(** [for (let i = 0; i < n; i++) repaired = body(repaired)] *)
Fixpoint for_loop (n : nat) (body : str -> str) (repaired : str) : str :=
  match n with
  | 0 => repaired
  | S n' => for_loop n' body (body repaired)
  end.

Definition repairIncompleteJson (jsonStr : str) : str :=
  let repaired := trim jsonStr in
  let openBraces := Z.of_nat (count_char open_brace repaired) in
  let closeBraces := Z.of_nat (count_char close_brace repaired) in
  let openBrackets := Z.of_nat (count_char open_bracket repaired) in
  let closeBrackets := Z.of_nat (count_char close_bracket repaired) in
  let quotes := count_char quote repaired in
  let repaired :=
    if negb (Nat.eqb (quotes mod 2) 0) then repaired ++ [quote]
    else repaired in
  let repaired :=
    for_loop (Z.to_nat (openBrackets - closeBrackets))
      (fun r => r ++ [close_bracket]) repaired in
  let repaired :=
    for_loop (Z.to_nat (openBraces - closeBraces))
      (fun r => r ++ [close_brace]) repaired in
  repaired.

(** The value [JSON.parse] yields, seen through the fields of [VibeSpec].
    The value is untyped: each field holds whatever the text gives it, and
    a property that is not there is [undefined].  For a value that is no
    object (a number, a string, an array) all of them are; reading a
    property of [null] throws, which ends in an error as missing fields
    do. *)
Module ParsedPayload.
Record t := mk {
  title : JSValue;
  domain : JSValue;
  description : JSValue;
  requirements : JSValue;
  components : JSValue;
  tech_stack : JSValue;
  acceptance_criteria : JSValue;
  ai_guidance : JSValue
}.
End ParsedPayload.

(** The validation at the end of [parseResponse]: [!parsed.title] and so
    on, a test of truthiness and not of type. *)
Definition missingFields (parsed : ParsedPayload.t) : list str :=
  (if truthy_value (ParsedPayload.title parsed) then [] else [lit "title"])
    ++ (if truthy_value (ParsedPayload.domain parsed) then []
        else [lit "domain"])
    ++ (if truthy_value (ParsedPayload.description parsed) then []
        else [lit "description"])
    ++ (if truthy_value (ParsedPayload.requirements parsed) then []
        else [lit "requirements"]).

(** [parsed as VibeSpec]: the parsed object itself. *)
Definition as_VibeSpec (parsed : ParsedPayload.t) : VibeSpec :=
  mkSpec (ParsedPayload.title parsed)
         (ParsedPayload.domain parsed)
         (ParsedPayload.description parsed)
         (ParsedPayload.requirements parsed)
         (ParsedPayload.components parsed)
         (ParsedPayload.tech_stack parsed)
         (ParsedPayload.acceptance_criteria parsed)
         (ParsedPayload.ai_guidance parsed)
         None.

Definition validate (parsed : ParsedPayload.t) : result VibeSpec :=
  match missingFields parsed with
  | [] => inr (as_VibeSpec parsed)
  | missing => inl (MissingRequiredFields missing)
  end.

(** What a request to the provider comes to: a transport, authentication
    or empty-body failure, a body no repair strategy can parse, or a parsed
    object. *)
Inductive ProviderReply :=
| ServiceFailure (message : str)
| Unparseable (message : str)
| Parsed (parsed : ParsedPayload.t).

(** [refine]: the reply after [parseResponse].  The adapters of the other
    providers check the same four fields the same way. *)
Definition refine (reply : ProviderReply) : result VibeSpec :=
  match reply with
  | ServiceFailure message => inl (OtherError message)
  | Unparseable message => inl (OtherError message)
  | Parsed parsed => validate parsed
  end.

End OpenRouterAdapter.

(* ================================================================== *)
(** * The interactive wizard ([src/core/wizard.ts]) *)
(* ================================================================== *)

Module SpecWizard.

(** The values the prompts of [refine] resolve to.  Text prompts are given
    as the text the prompt accepted, before its [filter]. *)
Record Answers := mkAnswers {
  title : str;
  domain : Domain;
  description : str;
  editRequirements : bool;
  newRequirements : str;
  techStack : str;
  components : str;
  addAcceptanceCriteria : bool;
  criteria : str;
  aiGuidance : str
}.


(** [s.split(c)] for a one-character separator. *)
Fixpoint split_char_go (sep : ascii) (s : str) (cur : str) : list str :=
  match s with
  | [] => [rev cur]
  | c :: s' =>
      if Ascii.eqb c sep then rev cur :: split_char_go sep s' []
      else split_char_go sep s' (c :: cur)
  end.

Definition split_char (sep : ascii) (s : str) : list str :=
  split_char_go sep s [].

(** [input.split(sep).map(t => t.trim()).filter(t => t.length > 0)] *)
Definition items (sep : ascii) (input : str) : list str :=
  filter HeuristicParser.nonempty (map trim (split_char sep input)).

Definition comma : ascii := ascii_of_nat 44.
Definition newline : ascii := ascii_of_nat 10.

Definition refine (input : str) (heuristicOutput : HeuristicOutput.t)
  (a : Answers) : VibeSpec :=
  let detectedReqs := HeuristicOutput.requirements heuristicOutput in
  let requirements :=
    if editRequirements a then items newline (newRequirements a)
    else detectedReqs in
  let acceptanceCriteria :=
    if addAcceptanceCriteria a then items comma (criteria a) else [] in
  mkSpec (JString (title a)) (JString (domain_name (domain a)))
         (JString (description a)) (strings requirements)
         (strings (items comma (components a)))
         (strings (items comma (techStack a)))
         (strings acceptanceCriteria)
         (JString (aiGuidance a))
         None.

End SpecWizard.

(* ================================================================== *)
(** * The processor ([Processor], [src/core/processor.ts]) *)
(* ================================================================== *)

Module Processor.

Module ProcessorOptions.
Record t := mk {
  provider : option AIProvider;
  model : option str;
  token : option str;
  useCache : option bool;
  enableWizard : option bool
}.
End ProcessorOptions.

(** What one call of [process] obtains from outside the program. *)
Record World := mkWorld {
  config : VibesConfig.t;                    (* configManager.load() *)
  env_token : option str;                  (* environment and config keys *)
  reply : OpenRouterAdapter.ProviderReply; (* the request to the provider *)
  isTTY : bool;                            (* process.stdin.isTTY *)
  useWizard : bool;                        (* answer to the confirm prompt *)
  answers : SpecWizard.Answers;            (* answers to the wizard *)
  now_iso : str;                           (* new Date().toISOString() *)
  now : Z                                  (* Date.now() *)
}.

Section WithDigest.

(** [crypto.createHash('sha256').update(data).digest('hex')] *)
Variable sha256_hex : str -> str.

(** [tokenResolver.requireToken(provider, options.token)] *)
Definition requireToken (w : World) (cliToken : option str) : result str :=
  match cliToken, env_token w with
  | Some (c :: token), _ => inr (c :: token)
  | _, Some (c :: token) => inr (c :: token)
  | _, _ => inl (OtherError (lit "No API key found for provider"))
  end.

Definition HEURISTIC_GUIDANCE : str :=
  lit "Generated using heuristic parsing only. Consider refining manually.".

Definition heuristicToSpec (heuristic : HeuristicOutput.t) : VibeSpec :=
  mkSpec
    (JString
       (or_else (HeuristicOutput.title heuristic)
          (lit "Untitled Requirement")))
    (JString
       (match HeuristicOutput.domain heuristic with
        | Some d => domain_name d
        | None => lit "fullstack"
        end))
    (JString
       (or_else (HeuristicOutput.description heuristic)
          (lit "No description available")))
    (strings (HeuristicOutput.requirements heuristic))
    (strings (HeuristicOutput.components heuristic))
    (strings (HeuristicOutput.tech_stack heuristic))
    (strings (HeuristicOutput.acceptance_criteria heuristic))
    (JString HEURISTIC_GUIDANCE)
    None.

Definition createMetadata (w : World) (input : str) (provider : AIProvider)
  (model : str) (heuristicConfidence : Q) (aiRefinementApplied : bool)
  (cacheHit : bool) : SpecMetadata :=
  let inputHash := sha256_hex (toLowerCase (trim input)) in
  mkMetadata (lit "1.0.0") (lit "vibes-cli v5.0.0") (now_iso w) inputHash
    (mkProcessing provider model heuristicConfidence aiRefinementApplied
       cacheHit None).

(** [spec.metadata = m; spec.metadata.processing.refinement_method = r] *)
Definition with_metadata (spec : VibeSpec) (m : SpecMetadata)
  (r : RefinementMethod) : VibeSpec :=
  let p := processing m in
  mkSpec (title spec) (domain spec) (description spec) (requirements spec)
    (components spec) (tech_stack spec) (acceptance_criteria spec)
    (ai_guidance spec)
    (Some (mkMetadata (spec_version m) (generated_by m) (generated_at m)
             (input_hash m)
             (mkProcessing (provider p) (model p) (heuristic_confidence p)
                (ai_refinement_applied p) (cache_hit p) (Some r)))).

(** The [try] block of [process]: token, adapter, refinement. *)
Definition try_refine (w : World) (options : ProcessorOptions.t)
  : result VibeSpec :=
  match requireToken w (ProcessorOptions.token options) with
  | inl e => inl e
  | inr _ => OpenRouterAdapter.refine (reply w)
  end.

(** The stages of [process] behind the cache lookup.  The result is the
    spec and the flag [aiRefinementApplied]. *)
Definition refine_or_fall_back (w : World) (options : ProcessorOptions.t)
  (normalized : str) (provider : AIProvider) (model : str)
  (heuristicOutput : HeuristicOutput.t) : VibeSpec * bool :=
  let confidence := HeuristicOutput.confidence heuristicOutput in
  match try_refine w options with
  | inr spec =>
      (with_metadata spec
         (createMetadata w normalized provider model confidence true false)
         ai,
       true)
  | inl _ =>
      let enableWizard :=
        match ProcessorOptions.enableWizard options with
        | Some b => b
        | None => true
        end in
      if enableWizard && isTTY w then
        if useWizard w then
          (with_metadata
             (SpecWizard.refine normalized heuristicOutput (answers w))
             (createMetadata w normalized provider model confidence true
                false)
             wizard,
           true)
        else
          (with_metadata (heuristicToSpec heuristicOutput)
             (createMetadata w normalized provider model confidence false
                false)
             heuristic,
           false)
      else
        (with_metadata (heuristicToSpec heuristicOutput)
           (createMetadata w normalized provider model confidence false false)
           heuristic,
         false)
  end.

Definition selected_provider (w : World) (options : ProcessorOptions.t)
  : AIProvider :=
  match ProcessorOptions.provider options with
  | Some p => p
  | None => VibesConfig.provider (config w)
  end.

Definition selected_model (w : World) (options : ProcessorOptions.t) : str :=
  match ProcessorOptions.model options with
  | Some (c :: model) => c :: model
  | _ =>
      match ProcessorOptions.provider options with
      | Some p =>
          if negb (provider_eqb p (VibesConfig.provider (config w)))
          then PROVIDER_CONFIGS_model (selected_provider w options)
          else VibesConfig.model (config w)
      | None => VibesConfig.model (config w)
      end
  end.

Definition selected_useCache (w : World) (options : ProcessorOptions.t)
  : bool :=
  match ProcessorOptions.useCache options with
  | Some b => b
  | None => VibesConfig.useCache (config w)
  end.

(** [process]: the result (or the error thrown) and the cache afterwards. *)
Definition process (input : str) (options : ProcessorOptions.t) (w : World)
  (cache : LRUCache.t) : result VibeSpec * LRUCache.t :=
  if List.length (trim input) <? 20 then (inl InputTooShort, cache)
  else
    let normalized := trim input in
    let provider := selected_provider w options in
    let model := selected_model w options in
    let useCache := selected_useCache w options in
    let lookup :=
      if useCache then LRUCache.get sha256_hex cache normalized provider model
      else (None, cache) in
    match lookup with
    | (Some cached, cache1) => (inr cached, cache1)
    | (None, cache1) =>
        match HeuristicParser.parse normalized with
        | inl e => (inl e, cache1)
        | inr heuristicOutput =>
            let (spec, aiRefinementApplied) :=
              refine_or_fall_back w options normalized provider model
                heuristicOutput in
            let cache2 :=
              if useCache && aiRefinementApplied
              then LRUCache.set sha256_hex cache1 normalized provider model
                     spec (now w)
              else cache1 in
            (inr spec, cache2)
        end
    end.

End WithDigest.

End Processor.

(* ================================================================== *)
(** * Notions used to state the properties *)
(* ================================================================== *)

(** Values to run examples on. *)
Module Samples.

(** A stand-in for SHA-256; the properties are proved for every digest
    function. *)
Definition sample_digest (data : str) : str := lit "k:" ++ data.

Definition sample_spec : VibeSpec :=
  mkSpec (JString (lit "Todo app")) (JString (lit "frontend"))
    (JString (lit "A list of tasks")) (strings [lit "Add a task"])
    JUndefined JUndefined JUndefined JUndefined None.

End Samples.

(** Sequences of operations on the cache. *)
Module CacheTrace.

Inductive op :=
| OpGet (input : str) (provider : AIProvider) (model : str)
| OpSet (input : str) (provider : AIProvider) (model : str)
        (value : VibeSpec) (now : Z)
| OpClear.

Definition is_access (o : op) : bool :=
  match o with OpClear => false | _ => true end.

Section Run.
Variable sha256_hex : str -> str.

Definition step (c : LRUCache.t) (o : op) : LRUCache.t :=
  match o with
  | OpGet input provider model =>
      snd (LRUCache.get sha256_hex c input provider model)
  | OpSet input provider model value now =>
      LRUCache.set sha256_hex c input provider model value now
  | OpClear => LRUCache.clear c
  end.

Definition run (ops : list op) (c : LRUCache.t) : LRUCache.t :=
  fold_left step ops c.

(** The cache key an operation works on. *)
Definition key_of (o : op) : option str :=
  match o with
  | OpGet input provider model
  | OpSet input provider model _ _ =>
      Some (LRUCache.generateKey sha256_hex input provider model)
  | OpClear => None
  end.

Definition touches (k : str) (o : op) : bool :=
  match key_of o with
  | Some k' => str_eqb k' k
  | None => false
  end.

(** The position (counted from 1) of the last operation of [ops] that
    gets or sets key [k]; 0 if there is none. *)
Fixpoint last_access (ops : list op) (k : str) : nat :=
  match ops with
  | [] => 0
  | o :: rest =>
      match last_access rest k with
      | 0 => if touches k o then 1 else 0
      | S n => S (S n)
      end
  end.

(** The keys the [set] operations of [ops] insert. *)
Definition inserted_keys (ops : list op) : list str :=
  flat_map
    (fun o =>
       match o with
       | OpSet input provider model _ _ =>
           [LRUCache.generateKey sha256_hex input provider model]
       | _ => []
       end)
    ops.

End Run.

(** The keys stored in a cache, least recently used first. *)
Definition stored_keys (c : LRUCache.t) : list str :=
  JSMap.keys (LRUCache.cache c).

Definition str_dec : forall a b : str, {a = b} + {a <> b} :=
  list_eq_dec ascii_dec.

(** The invariant of a cache of positive capacity: no more entries than
    the capacity, and no empty key (an empty key would be falsy in the
    guard of the eviction). *)
Definition bounded (c : LRUCache.t) : Prop :=
  (LRUCache.size c <= LRUCache.maxSize c)%Z
  /\ Forall (fun k => k <> []) (stored_keys c).


End CacheTrace.

(** Domain detection as the specification words it: a score per domain,
    the highest score wins, the table's declaration order breaks ties. *)
Module DomainSpec.

Import HeuristicParser.

Fixpoint keywords_in (table : list (Domain * list str)) (d : Domain)
  : list str :=
  match table with
  | [] => []
  | (d', keywords) :: rest =>
      if domain_eqb d' d then keywords else keywords_in rest d
  end.

(** The row of [d] in the keyword table. *)
Definition keywords_of (d : Domain) : list str :=
  keywords_in DOMAIN_PATTERNS d.

(** The score of a domain: how many keywords of its row occur in the
    lower-cased text. *)
Definition domain_score (text : str) (d : Domain) : Z :=
  count_included (toLowerCase text) (keywords_of d).

(** The number of places of a text at which a word starts. *)
Fixpoint occurrences (word s : str) : nat :=
  match s with
  | [] => 0
  | _ :: s' =>
      (if startsWith word s then 1 else 0) + occurrences word s'
  end.

(** The score in the words of the specification, which counts keyword
    occurrences: the occurrences in the lower-cased text of all the
    keywords of the row. *)
Definition occurrence_score (text : str) (d : Domain) : Z :=
  Z.of_nat
    (list_sum (map (fun k => occurrences k (toLowerCase text))
                 (keywords_of d))).

Fixpoint index_in (l : list Domain) (d : Domain) : nat :=
  match l with
  | [] => 0
  | d' :: rest => if domain_eqb d' d then 0 else S (index_in rest d)
  end.

(** The position of a domain in the declaration of the table. *)
Definition declaration_index (d : Domain) : nat :=
  index_in (map fst DOMAIN_PATTERNS) d.

Definition declared_before (d1 d2 : Domain) : Prop :=
  declaration_index d1 < declaration_index d2.

(** [d] has a positive score, no domain scores higher, and every domain
    declared before [d] scores strictly lower. *)
Definition wins (text : str) (d : Domain) : Prop :=
  (0 < domain_score text d)%Z
  /\ (forall d', (domain_score text d' <= domain_score text d)%Z)
  /\ (forall d', declared_before d' d ->
                 (domain_score text d' < domain_score text d)%Z).

(** [scores[d] += n] *)
Fixpoint add_score (d : Domain) (n : Z) (scores : list (Domain * Z))
  : list (Domain * Z) :=
  match scores with
  | [] => []
  | (d', m) :: rest =>
      if domain_eqb d' d then (d', (m + n)%Z) :: rest
      else (d', m) :: add_score d n rest
  end.


(** The scores of all domains, in declaration order. *)
Definition all_scores (text : str) : list (Domain * Z) :=
  map (fun d => (d, domain_score text d)) (map fst DOMAIN_PATTERNS).

End DomainSpec.

(** Notions for the repair of provider responses. *)
Module RepairSpec.

Import OpenRouterAdapter.

(** A text literal in which the apostrophe stands for the double quote. *)
Definition dq (s : string) : str :=
  map (fun c => if Ascii.eqb c "'"%char then quote else c) (lit s).

(** How many closers balance [opens] openers against [closes] closers. *)
Definition missing (opens closes : nat) : nat := opens - closes.

(** The characters closure repair is specified to append to a text: one
    quote if the number of quotes is odd, then the missing closing
    brackets, then the missing closing braces. *)
Definition closers (text : str) : str :=
  (if Nat.odd (count_char quote text) then [quote] else [])
    ++ repeat close_bracket
         (missing (count_char open_bracket text)
                  (count_char close_bracket text))
    ++ repeat close_brace
         (missing (count_char open_brace text)
                  (count_char close_brace text)).

(** [a] is an initial part of [b]. *)
Definition is_prefix (a b : str) : Prop := exists rest, b = a ++ rest.

(** A provider payload whose description embeds a quoted word, the case
    the documentation of [fixUnescapedQuotes] gives. *)
Definition quoted_word_payload : str :=
  dq "{'title': 'Notes', 'domain': 'backend', 'description': 'This is a 'quoted' word', 'requirements': ['a']}".

(** The same payload with the embedded quotes escaped. *)
Definition escaped_word_payload : str :=
  dq "{'title': 'Notes', 'domain': 'backend', 'description': 'This is a \'quoted\' word', 'requirements': ['a']}".

End RepairSpec.

(** Inputs to run the heuristic parser on. *)
Module HeuristicSamples.

(** Twelve capitalised words, two of them twice. *)
Definition many_components : str :=
  lit "Build Alpha Beta Gamma Delta Alpha Epsilon Zeta Eta Theta Iota Kappa Beta Lambda as a UserForm.".

(** Twenty full stops: no sentence at all. *)
Definition only_punctuation : str := lit "....................".

End HeuristicSamples.

(** Notions for the orchestration. *)
Module PipelineSpec.

Import Processor.

(** The four mandatory fields of a spec are truthy: none of them is
    [undefined], [null], [false], [0] or the empty string.  This is what
    the validation of a provider payload tests. *)
Definition filled (spec : VibeSpec) : Prop :=
  truthy_value (title spec) = true
  /\ truthy_value (domain spec) = true
  /\ truthy_value (description spec) = true
  /\ truthy_value (requirements spec) = true.






(** The refinement method a spec's metadata records. *)
Definition label (spec : VibeSpec) : option RefinementMethod :=
  match metadata spec with
  | Some m => refinement_method (processing m)
  | None => None
  end.

(** A spec without its metadata. *)
Definition content (spec : VibeSpec) : VibeSpec :=
  mkSpec (title spec) (domain spec) (description spec) (requirements spec)
    (components spec) (tech_stack spec) (acceptance_criteria spec)
    (ai_guidance spec) None.

(** The cache-hit flag a spec's metadata records. *)
Definition reports_cache_hit (spec : VibeSpec) : option bool :=
  match metadata spec with
  | Some m => Some (cache_hit (processing m))
  | None => None
  end.

Section WithDigest.
Variable sha256_hex : str -> str.

(** The key under which [process] looks its input up. *)
Definition cache_key (input : str) (options : ProcessorOptions.t) (w : World)
  : str :=
  LRUCache.generateKey sha256_hex (trim input)
    (selected_provider w options) (selected_model w options).

(** The spec the cache holds for the input of a call, if any. *)
Definition stored (cache : LRUCache.t) (input : str)
  (options : ProcessorOptions.t) (w : World) : option VibeSpec :=
  option_map CacheEntry.value
    (JSMap.get (LRUCache.cache cache) (cache_key input options w)).

(** The call finds its answer in the cache. *)
Definition answered_from_cache (input : str) (options : ProcessorOptions.t)
  (w : World) (cache : LRUCache.t) : bool :=
  selected_useCache w options
  && LRUCache.has_key cache (cache_key input options w).

End WithDigest.

(** Sample calls. *)
Definition todo_input : str :=
  lit "Build a todo app with add, edit, and delete using a web framework".

Definition no_options : ProcessorOptions.t :=
  ProcessorOptions.mk None None None None None.

Definition sample_answers : SpecWizard.Answers :=
  SpecWizard.mkAnswers (lit "Todo app") frontend
    (lit "A list of tasks to add, edit and delete")
    false [] (lit "React, Node") (lit "TaskList") true
    (lit "All features implemented, Tests pass") (lit "Keep it simple").

Definition sample_payload : OpenRouterAdapter.ParsedPayload.t :=
  OpenRouterAdapter.ParsedPayload.mk
    (JString (lit "Todo app")) (JString (lit "frontend"))
    (JString (lit "A list of tasks")) (strings [lit "Add a task"])
    JUndefined JUndefined JUndefined JUndefined.

(** What [JSON.parse] gives for a reply with an empty array as title and
    description, an empty object as domain and no requirement. *)
Definition untyped_payload : OpenRouterAdapter.ParsedPayload.t :=
  OpenRouterAdapter.ParsedPayload.mk
    (JArray []) (JObject []) (JArray []) (JArray [])
    JUndefined JUndefined JUndefined JUndefined.

(** The provider cannot be reached and no terminal is attached. *)
Definition offline : World :=
  mkWorld DEFAULT_CONFIG None
    (OpenRouterAdapter.ServiceFailure (lit "fetch failed"))
    false false sample_answers (lit "2025-01-01T00:00:00.000Z") 0.

(** The provider cannot be reached; the user accepts the wizard. *)
Definition at_terminal : World :=
  mkWorld DEFAULT_CONFIG (Some (lit "sk-test"))
    (OpenRouterAdapter.ServiceFailure (lit "fetch failed"))
    true true sample_answers (lit "2025-01-01T00:00:00.000Z") 0.

(** The provider answers with a valid payload. *)
Definition online : World :=
  mkWorld DEFAULT_CONFIG (Some (lit "sk-test"))
    (OpenRouterAdapter.Parsed sample_payload)
    false false sample_answers (lit "2025-01-01T00:00:00.000Z") 0.



(** The spec of a first call that the provider refines. *)
Definition refined_spec : VibeSpec :=
  match
    fst (Processor.process Samples.sample_digest todo_input no_options online
           LRUCache.getCache_initial)
  with
  | inr spec => spec
  | inl _ => Samples.sample_spec
  end.

End PipelineSpec.

(* ================================================================== *)
(** * Further code of the same files *)
(* ================================================================== *)

(** [TokenResolver] ([src/utils/token-resolver.ts]) *)
Module TokenResolver.

(** What the resolver reads: the process environment (with the [.env]
    file loaded into it) and the [apiKey] field of the configuration
    file, absent when the file has none or cannot be read. *)
Record Sources := mkSources {
  env : str -> option str;
  config_apiKey : option str
}.

(** [PROVIDER_CONFIGS[provider].env] *)
Definition PROVIDER_CONFIGS_env (p : AIProvider) : str :=
  match p with
  | openai => "OPENAI_API_KEY"
  | claude => "ANTHROPIC_API_KEY"
  | glm => "ZAI_API_KEY"
  | openrouter => "OPENROUTER_API_KEY"
  end%string.

(** A truthy string, or nothing. *)
Definition if_truthy (o : option str) : option str :=
  match o with
  | Some (c :: s) => Some (c :: s)
  | _ => None
  end.

Definition first_of (a b : option str) : option str :=
  match a with Some s => Some s | None => b end.

Definition resolve (src : Sources) (provider : AIProvider)
  (cliToken : option str) : option str :=
  first_of (if_truthy cliToken)
    (first_of (if_truthy (env src (PROVIDER_CONFIGS_env provider)))
       (first_of
          (if provider_eqb provider glm
           then if_truthy (env src (lit "ZHIPUAI_API_KEY"))
           else None)
          (first_of (if_truthy (env src (lit "VIBES_AI_KEY")))
             (if_truthy (config_apiKey src))))).

Definition requireToken (src : Sources) (provider : AIProvider)
  (cliToken : option str) : result str :=
  match resolve src provider cliToken with
  | Some token =>
      match token with
      | [] => inl (OtherError (lit "No API key found for provider"))
      | _ :: _ => inr token
      end
  | None => inl (OtherError (lit "No API key found for provider"))
  end.


End TokenResolver.

(** [LRUCache.getHitRate] ([src/utils/cache.ts]), in exact rational
    arithmetic. *)
Module HitRate.

Definition getHitRate (c : LRUCache.t) : Q :=
  let total :=
    (CacheStats.hits (LRUCache.stats c)
     + CacheStats.misses (LRUCache.stats c))%Z in
  if (total =? 0)%Z then 0%Q
  else (inject_Z (CacheStats.hits (LRUCache.stats c)) / inject_Z total
        * inject_Z 100)%Q.

End HitRate.

(** The other steps of [OpenRouterAdapter.parseResponse]. *)
Module ResponseRepair.

Import OpenRouterAdapter.

Definition comma : ascii := ascii_of_nat 44.
Definition newline : ascii := ascii_of_nat 10.
Definition carriage_return : ascii := ascii_of_nat 13.
Definition tab : ascii := ascii_of_nat 9.
Definition backtick : ascii := ascii_of_nat 96.

Definition is_closer (c : ascii) : bool :=
  Ascii.eqb c close_brace || Ascii.eqb c close_bracket.

(** One match of the trailing-comma pattern at the head of the text: a
    comma, any white space, a closing brace or bracket. *)
Definition trailing_comma_at (s : str) : option (nat * unit) :=
  match s with
  | c :: r =>
      if Ascii.eqb c comma then
        match dropWhile is_space r with
        | d :: _ =>
            if is_closer d
            then Some (1 + List.length (takeWhile is_space r) + 1, tt)
            else None
        | [] => None
        end
      else None
  | [] => None
  end.

(** The replacement ['$1']: the match without its comma. *)
Definition keep_group1 (matched : str) (_ : unit) : str := skipn 1 matched.

Definition removeTrailingCommas (jsonStr : str) : str :=
  replace_all trailing_comma_at keep_group1 jsonStr.

(** [.] of a pattern: any character but a line terminator. *)
Definition is_line_terminator (c : ascii) : bool :=
  Ascii.eqb c newline || Ascii.eqb c carriage_return.

(** The pattern of [fixStringLiterals] behind its opening quote:
    characters other than quote and backslash, and backslash pairs, up to
    the closing quote.  [n] counts the characters passed, [escaped] says
    that a backslash was just read. *)
Fixpoint literal_body (s : str) (escaped : bool) (n : nat) : option nat :=
  match s with
  | [] => None
  | c :: s' =>
      if escaped then
        if is_line_terminator c then None
        else literal_body s' false (S n)
      else if is_quote c then Some (S n)
      else if Ascii.eqb c backslash then literal_body s' true (S n)
      else literal_body s' false (S n)
  end.

(** One match of the string-literal pattern; the group is the text
    between the quotes. *)
Definition string_literal_at (s : str) : option (nat * str) :=
  match s with
  | q :: r =>
      if is_quote q then
        match literal_body r false 1 with
        | Some len => Some (len, firstn (len - 2) r)
        | None => None
        end
      else None
  | [] => None
  end.

(** [content.replace(/\n/g, '\\n').replace(/\r/g, '\\r')
            .replace(/\t/g, '\\t')] *)
Definition escape_controls (content : str) : str :=
  flat_map
    (fun c =>
       if Ascii.eqb c newline then [backslash; "n"%char]
       else if Ascii.eqb c carriage_return then [backslash; "r"%char]
       else if Ascii.eqb c tab then [backslash; "t"%char]
       else [c])
    content.

Definition fix_literal (matched : str) (content : str) : str :=
  if includes content [newline] || includes content [carriage_return]
     || includes content [tab]
  then [quote] ++ escape_controls content ++ [quote]
  else matched.

Definition fixStringLiterals (jsonStr : str) : str :=
  replace_all string_literal_at fix_literal jsonStr.

(** [jsonStr[i]] *)
Definition char_at (s : str) (i : nat) : option ascii := nth_error s i.

(** [jsonStr.substring(a, b)] for [a <= b] *)
Definition substring (a b : nat) (s : str) : str := firstn (b - a) (skipn a s).

Section WithParser.

(** [JSON.parse]: the parsed object, or the message of the error. *)
Variable JSON_parse : str -> str + ParsedPayload.t.

Definition parses (text : str) : bool :=
  match JSON_parse text with inr _ => true | inl _ => false end.

(** The loop of [truncateToLastValidStructure] from index [n - 1] down;
    it stops below a third of the length. *)
Fixpoint truncate_scan (jsonStr : str) (n : nat) : option str :=
  match n with
  | 0 => None
  | S i =>
      if 3 * i <? List.length jsonStr then None
      else
        let prevChars := substring (i - 10) i jsonStr in
        let closing :=
          match char_at jsonStr i with
          | Some c => is_closer c
          | None => false
          end in
        if closing && includes prevChars [quote]
                   && parses (substring 0 (i + 1) jsonStr)
        then Some (substring 0 (i + 1) jsonStr)
        else truncate_scan jsonStr i
  end.

Definition truncateToLastValidStructure (jsonStr : str) : str :=
  match truncate_scan jsonStr (List.length jsonStr) with
  | Some testStr => testStr
  | None => jsonStr
  end.

(** The loop of [extractLastValidJson]; it stops below half the length. *)
Fixpoint extract_scan (jsonStr : str) (n : nat) : option ParsedPayload.t :=
  match n with
  | 0 => None
  | S i =>
      if 2 * i <? List.length jsonStr then None
      else
        match char_at jsonStr i with
        | Some c =>
            if Ascii.eqb c close_brace then
              match JSON_parse (substring 0 (i + 1) jsonStr) with
              | inr parsed => Some parsed
              | inl _ => extract_scan jsonStr i
              end
            else extract_scan jsonStr i
        | None => extract_scan jsonStr i
        end
  end.

Definition extractLastValidJson (jsonStr : str) : option ParsedPayload.t :=
  extract_scan jsonStr (List.length jsonStr).

(** The messages for which [parseResponse] tries its repairs. *)
Definition repairable (errorMsg : str) : bool :=
  includes errorMsg (lit "Unterminated string")
  || includes errorMsg (lit "Unexpected end")
  || includes errorMsg (lit "Expected")
  || includes errorMsg (lit "after array element").

(** The fallback inside [parseResponse] once the first parse failed with
    [errorMsg]: truncation, then closure, then backward extraction. *)
Definition recover (jsonStr errorMsg : str) : result ParsedPayload.t :=
  if repairable errorMsg then
    match JSON_parse (truncateToLastValidStructure jsonStr) with
    | inr parsed => inr parsed
    | inl _ =>
        match JSON_parse (repairIncompleteJson jsonStr) with
        | inr parsed => inr parsed
        | inl _ =>
            match extractLastValidJson jsonStr with
            | Some parsed => inr parsed
            | None => inl (OtherError errorMsg)
            end
        end
    end
  else inl (OtherError errorMsg).

(** [parseResponse] from the text the early clean-up steps leave
    ([jsonStr] before the first [JSON.parse]) to the validated spec. *)
Definition parse_and_validate (jsonStr : str) : result VibeSpec :=
  let parsed :=
    match JSON_parse jsonStr with
    | inr parsed => inr parsed
    | inl errorMsg => recover jsonStr errorMsg
    end in
  match parsed with
  | inr parsed => validate parsed
  | inl e => inl e
  end.

End WithParser.

End ResponseRepair.

(** The private helpers of [SpecWizard] ([src/core/wizard.ts]). *)
Module WizardHelpers.

(** [s.split(/[...]/)] for a character class: one piece per separator
    character. *)
Fixpoint split_each_go (sep : ascii -> bool) (s : str) (cur : str)
  : list str :=
  match s with
  | [] => [rev cur]
  | c :: s' =>
      if sep c then rev cur :: split_each_go sep s' []
      else split_each_go sep s' (c :: cur)
  end.

Definition split_each (sep : ascii -> bool) (s : str) : list str :=
  split_each_go sep s [].

(** [SpecWizard.extractTitle] *)
Definition extractTitle (input : str) : str :=
  let firstSentence :=
    trim (hd [] (split_each HeuristicParser.is_terminator input)) in
  if 100 <? List.length firstSentence
  then substring0 97 firstSentence ++ lit "..."
  else firstSentence.

End WizardHelpers.

(** Notions to state further properties. *)
Module ExtraSpec.

Import CacheTrace.

(** The number of [get] operations since the last [clear]. *)
Definition count_get (n : Z) (o : op) : Z :=
  match o with
  | OpGet _ _ _ => (n + 1)%Z
  | OpSet _ _ _ _ _ => n
  | OpClear => 0%Z
  end.

Definition gets_since_clear (ops : list op) : Z := fold_left count_get ops 0%Z.


(** Keys are unique, and the [size] counter of the statistics is the
    number of entries. *)
Definition consistent (c : LRUCache.t) : Prop :=
  NoDup (stored_keys c)
  /\ CacheStats.size (LRUCache.stats c) = LRUCache.size c.


(** A text that is not empty and does not start with a lower-case
    letter. *)
Definition starts_capitalized (s : str) : Prop :=
  match s with
  | [] => False
  | c :: _ => is_lower c = false
  end.

(** A text without the occurrences of one character. *)
Definition without (c : ascii) (s : str) : str :=
  filter (fun x => negb (Ascii.eqb x c)) s.

(** A text holds none of the characters [fixStringLiterals] escapes. *)
Definition no_controls (s : str) : Prop :=
  Forall (fun c => c <> ResponseRepair.newline
                   /\ c <> ResponseRepair.carriage_return
                   /\ c <> ResponseRepair.tab) s.

(** The test [truncateToLastValidStructure] makes at index [i]: a closing
    brace or bracket there, a quote among the ten characters before it,
    and a prefix up to it that parses. *)
Definition cut_point (JSON_parse : str -> str + OpenRouterAdapter.ParsedPayload.t)
  (jsonStr : str) (i : nat) : bool :=
  match ResponseRepair.char_at jsonStr i with
  | Some c => ResponseRepair.is_closer c
  | None => false
  end
  && includes (ResponseRepair.substring (i - 10) i jsonStr)
       [OpenRouterAdapter.quote]
  && ResponseRepair.parses JSON_parse (firstn (S i) jsonStr).

(** A parser for examples: it accepts the texts that end with a closing
    brace. *)
Definition sample_parser (text : str)
  : str + OpenRouterAdapter.ParsedPayload.t :=
  match rev text with
  | c :: _ =>
      if Ascii.eqb c OpenRouterAdapter.close_brace
      then inr PipelineSpec.sample_payload
      else inl (lit "Unexpected end of JSON input")
  | [] => inl (lit "Unexpected end of JSON input")
  end.

(** No spec in the cache reports a cache hit. *)
Definition flags_lowered (c : LRUCache.t) : Prop :=
  Forall (fun e : str * CacheEntry.t =>
            PipelineSpec.reports_cache_hit (CacheEntry.value (snd e))
            = Some false)
    (LRUCache.cache c).

(** The same call with another reply of the provider. *)
Definition with_reply (w : Processor.World)
  (r : OpenRouterAdapter.ProviderReply) : Processor.World :=
  Processor.mkWorld (Processor.config w) (Processor.env_token w) r
    (Processor.isTTY w) (Processor.useWizard w) (Processor.answers w)
    (Processor.now_iso w) (Processor.now w).

(** The entries of a list are not empty, have no white space at their
    ends and do not hold the separator. *)
Definition clean_items (sep : ascii) (l : list str) : Prop :=
  Forall (fun t => t <> [] /\ trim t = t /\ ~ In sep t) l.


End ExtraSpec.

Unset Implicit Arguments.

(* ================================================================== *)
(** * Proofs: JavaScript strings and maps *)
(* ================================================================== *)

Lemma str_eqb_eq (a b : str) : str_eqb a b = true <-> a = b.
Proof.
  unfold str_eqb. destruct (list_eq_dec ascii_dec a b); split; congruence.
Qed.

Lemma str_eqb_refl (a : str) : str_eqb a a = true.
Proof. apply str_eqb_eq. reflexivity. Qed.

Lemma str_eqb_neq (a b : str) : str_eqb a b = false <-> a <> b.
Proof.
  unfold str_eqb. destruct (list_eq_dec ascii_dec a b); split; congruence.
Qed.

Ltac case_str_eqb a b :=
  let E := fresh "E" in
  destruct (str_eqb a b) eqn:E;
  [apply str_eqb_eq in E | apply str_eqb_neq in E].

Module JSMapFacts.

Section Facts.
Context {V : Type}.
Implicit Types (m : JSMap.t V) (k : str) (v : V).

Lemma get_in m k : JSMap.get m k <> None <-> In k (JSMap.keys m).
Proof.
  induction m as [|[k' v'] m IH]; simpl.
  - split; [congruence | tauto].
  - case_str_eqb k' k.
    + split; [auto | congruence].
    + rewrite IH. split; [auto | intros [H|H]; [contradiction | exact H]].
Qed.

Lemma get_none m k : JSMap.get m k = None <-> ~ In k (JSMap.keys m).
Proof.
  rewrite <- get_in. destruct (JSMap.get m k); split; try congruence.
  intros H. exfalso. apply H. discriminate.
Qed.

Lemma has_in m k : JSMap.has m k = true <-> In k (JSMap.keys m).
Proof.
  unfold JSMap.has. rewrite <- get_in.
  destruct (JSMap.get m k); split; congruence.
Qed.

Lemma delete_absent m k : ~ In k (JSMap.keys m) -> JSMap.delete m k = m.
Proof.
  induction m as [|[k' v'] m IH]; simpl; intros H; [reflexivity|].
  case_str_eqb k' k.
  - exfalso. apply H. left. exact E.
  - f_equal. apply IH. tauto.
Qed.

Lemma length_delete m k :
  In k (JSMap.keys m) -> S (List.length (JSMap.delete m k)) = List.length m.
Proof.
  induction m as [|[k' v'] m IH]; simpl; intros H; [contradiction|].
  case_str_eqb k' k; [reflexivity|].
  simpl. f_equal. apply IH. destruct H; [contradiction | assumption].
Qed.

Lemma length_delete_le m k :
  (List.length (JSMap.delete m k) <= List.length m)%nat.
Proof.
  induction m as [|[k' v'] m IH]; simpl; [lia|].
  case_str_eqb k' k; simpl; lia.
Qed.

Lemma in_delete m k x :
  In x (JSMap.keys (JSMap.delete m k)) -> In x (JSMap.keys m).
Proof.
  induction m as [|[k' v'] m IH]; simpl; [tauto|].
  case_str_eqb k' k; simpl; tauto.
Qed.

Lemma in_delete_other m k x :
  x <> k -> In x (JSMap.keys m) -> In x (JSMap.keys (JSMap.delete m k)).
Proof.
  intros Hx. induction m as [|[k' v'] m IH]; simpl; [tauto|].
  case_str_eqb k' k; simpl.
  - intros [H|H]; [congruence | exact H].
  - tauto.
Qed.

Lemma nodup_delete m k :
  NoDup (JSMap.keys m) -> NoDup (JSMap.keys (JSMap.delete m k)).
Proof.
  induction m as [|[k' v'] m IH]; simpl; intros H; [constructor|].
  inversion H; subst.
  case_str_eqb k' k; [assumption|].
  simpl. constructor; [|auto].
  intros Hin. apply in_delete in Hin. contradiction.
Qed.

Lemma delete_removes m k :
  NoDup (JSMap.keys m) -> ~ In k (JSMap.keys (JSMap.delete m k)).
Proof.
  induction m as [|[k' v'] m IH]; simpl; intros H; [tauto|].
  inversion H; subst.
  case_str_eqb k' k.
  - subst. assumption.
  - simpl. intros [Hk|Hk]; [contradiction | exact (IH H3 Hk)].
Qed.

Lemma keys_set_absent m k v :
  ~ In k (JSMap.keys m) -> JSMap.keys (JSMap.set m k v) = JSMap.keys m ++ [k].
Proof.
  induction m as [|[k' v'] m IH]; simpl; intros H; [reflexivity|].
  case_str_eqb k' k.
  - exfalso. apply H. left. exact E.
  - simpl. f_equal. apply IH. tauto.
Qed.

Lemma keys_set_present m k v :
  In k (JSMap.keys m) -> JSMap.keys (JSMap.set m k v) = JSMap.keys m.
Proof.
  induction m as [|[k' v'] m IH]; simpl; intros H; [contradiction|].
  case_str_eqb k' k; simpl; [reflexivity|].
  f_equal. apply IH. destruct H; [contradiction | assumption].
Qed.

Lemma length_keys m : List.length (JSMap.keys m) = List.length m.
Proof. apply length_map. Qed.

Lemma length_set_le m k v :
  (List.length (JSMap.set m k v) <= S (List.length m))%nat.
Proof.
  induction m as [|[k' v'] m IH]; simpl; [lia|].
  case_str_eqb k' k; simpl; lia.
Qed.

Lemma get_set_same m k v : JSMap.get (JSMap.set m k v) k = Some v.
Proof.
  induction m as [|[k' v'] m IH]; simpl.
  - rewrite str_eqb_refl. reflexivity.
  - case_str_eqb k' k; simpl.
    + subst. rewrite str_eqb_refl. reflexivity.
    + apply str_eqb_neq in E. rewrite E. exact IH.
Qed.

Lemma get_set_other m k v x :
  x <> k -> JSMap.get (JSMap.set m k v) x = JSMap.get m x.
Proof.
  intros Hx. induction m as [|[k' v'] m IH]; simpl.
  - case_str_eqb k x; [congruence | reflexivity].
  - case_str_eqb k' k; simpl.
    + subst. case_str_eqb k x; [congruence | reflexivity].
    + rewrite IH. reflexivity.
Qed.

Lemma get_delete_other m k x :
  x <> k -> JSMap.get (JSMap.delete m k) x = JSMap.get m x.
Proof.
  intros Hx. induction m as [|[k' v'] m IH]; simpl; [reflexivity|].
  case_str_eqb k' k; simpl.
  - subst. case_str_eqb k x; [congruence | reflexivity].
  - rewrite IH. reflexivity.
Qed.

Lemma keys_delete_head m k v :
  JSMap.delete ((k, v) :: m) k = m.
Proof. simpl. rewrite str_eqb_refl. reflexivity. Qed.

End Facts.

End JSMapFacts.

(* ================================================================== *)
(** * Proofs: the LRU cache *)
(* ================================================================== *)

Module LRUCacheFacts.

Import JSMapFacts CacheTrace.

Lemma maxSize_get_key c k :
  LRUCache.maxSize (snd (LRUCache.get_key c k)) = LRUCache.maxSize c.
Proof.
  unfold LRUCache.get_key. destruct (JSMap.get _ k); reflexivity.
Qed.

Lemma maxSize_evict_oldest c :
  LRUCache.maxSize (LRUCache.evict_oldest c) = LRUCache.maxSize c.
Proof.
  unfold LRUCache.evict_oldest.
  destruct (_ >=? _)%Z; [|reflexivity].
  destruct (JSMap.first_key _) as [[|]|]; reflexivity.
Qed.

Lemma maxSize_set_key c k v now :
  LRUCache.maxSize (LRUCache.set_key c k v now) = LRUCache.maxSize c.
Proof.
  unfold LRUCache.set_key. simpl. rewrite maxSize_evict_oldest.
  destruct (JSMap.has _ k); reflexivity.
Qed.

(** A hit moves the entry behind all others. *)
Lemma get_key_hit c k :
  NoDup (stored_keys c) -> In k (stored_keys c) ->
  stored_keys (snd (LRUCache.get_key c k))
    = JSMap.keys (JSMap.delete (LRUCache.cache c) k) ++ [k]
  /\ LRUCache.stats (snd (LRUCache.get_key c k))
     = LRUCache.incr_hits (LRUCache.stats c).
Proof.
  unfold stored_keys, LRUCache.get_key. intros Hnd Hin.
  destruct (JSMap.get (LRUCache.cache c) k) as [e|] eqn:G.
  - simpl. split; [|reflexivity].
    apply keys_set_absent. apply delete_removes. exact Hnd.
  - apply get_none in G. contradiction.
Qed.

Lemma get_key_miss c k :
  ~ In k (stored_keys c) ->
  LRUCache.get_key c k = (None, LRUCache.with_stats c LRUCache.incr_misses).
Proof.
  unfold stored_keys, LRUCache.get_key. intros Hin.
  apply get_none in Hin. rewrite Hin. reflexivity.
Qed.

(** [set] below capacity: the key goes behind all others, nothing is
    evicted. *)
Lemma set_key_room c k v now :
  NoDup (stored_keys c) ->
  (Z.of_nat (List.length (JSMap.delete (LRUCache.cache c) k))
   < LRUCache.maxSize c)%Z ->
  stored_keys (LRUCache.set_key c k v now)
    = JSMap.keys (JSMap.delete (LRUCache.cache c) k) ++ [k]
  /\ CacheStats.evictions (LRUCache.stats (LRUCache.set_key c k v now))
     = CacheStats.evictions (LRUCache.stats c).
Proof.
  unfold stored_keys. intros Hnd Hlt.
  unfold LRUCache.set_key.
  destruct (JSMap.has (LRUCache.cache c) k) eqn:Hhas.
  - unfold LRUCache.evict_oldest, JSMap.size. simpl.
    destruct (_ >=? _)%Z eqn:Hge; [lia|]. simpl. split; [|reflexivity].
    apply keys_set_absent, delete_removes, Hnd.
  - assert (Habs : ~ In k (JSMap.keys (LRUCache.cache c))).
    { intros Hin. apply has_in in Hin. congruence. }
    rewrite (delete_absent _ _ Habs) in *.
    unfold LRUCache.evict_oldest, JSMap.size.
    destruct (_ >=? _)%Z eqn:Hge; [lia|]. simpl. split; [|reflexivity].
    apply keys_set_absent, Habs.
Qed.

(** [set] of a new key at capacity: the first key is evicted, every other
    entry stays as it is. *)
Lemma set_key_full c k v now victim rest :
  NoDup (stored_keys c) ->
  ~ In k (stored_keys c) ->
  (JSMap.size (LRUCache.cache c) >= LRUCache.maxSize c)%Z ->
  stored_keys c = victim :: rest ->
  victim <> [] ->
  stored_keys (LRUCache.set_key c k v now) = rest ++ [k]
  /\ CacheStats.evictions (LRUCache.stats (LRUCache.set_key c k v now))
     = (CacheStats.evictions (LRUCache.stats c) + 1)%Z
  /\ (forall x, x <> k -> x <> victim ->
      JSMap.get (LRUCache.cache (LRUCache.set_key c k v now)) x
      = JSMap.get (LRUCache.cache c) x).
Proof.
  unfold stored_keys. intros Hnd Habs Hge Hkeys Hne.
  unfold LRUCache.set_key.
  assert (Hhas : JSMap.has (LRUCache.cache c) k = false).
  { destruct (JSMap.has _ k) eqn:H; [|reflexivity].
    apply has_in in H. contradiction. }
  rewrite Hhas. unfold LRUCache.evict_oldest.
  destruct (_ >=? _)%Z eqn:Hge'; [|lia].
  unfold JSMap.first_key. rewrite Hkeys. simpl.
  destruct victim as [|ch vs]; [congruence|].
  simpl. split; [|split; [reflexivity|]].
  - destruct (LRUCache.cache c) as [|[k0 e0] m] eqn:Hm; [discriminate|].
    simpl in Hkeys. injection Hkeys as Hk0 Hrest. subst k0 rest.
    rewrite keys_delete_head.
    apply keys_set_absent. intros Hin. apply Habs. simpl. right. exact Hin.
  - intros x Hxk Hxv.
    rewrite get_set_other by exact Hxk.
    apply get_delete_other. exact Hxv.
Qed.

End LRUCacheFacts.

Module SortedFacts.

Section Facts.
Context {A : Type}.
Variable R : A -> A -> Prop.

Lemma sorted_snoc (l : list A) (y : A) :
  StronglySorted R l -> (forall x, In x l -> R x y) ->
  StronglySorted R (l ++ [y]).
Proof.
  induction 1 as [|a l Hs IH Ha]; simpl; intros Hy.
  - constructor; [constructor | constructor].
  - constructor.
    + apply IH. intros x Hx. apply Hy. right. exact Hx.
    + apply Forall_app. split; [exact Ha|].
      constructor; [|constructor]. apply Hy. left. reflexivity.
Qed.

End Facts.

Lemma sorted_measure_ext {A : Type} (f g : A -> nat) (l : list A) :
  (forall x, In x l -> f x = g x) ->
  StronglySorted (fun a b => f a < f b) l ->
  StronglySorted (fun a b => g a < g b) l.
Proof.
  intros Hfg Hs. induction Hs as [|a l Hs IH Ha]; constructor.
  - apply IH. intros x Hx. apply Hfg. right. exact Hx.
  - rewrite Forall_forall in *. intros x Hx.
    rewrite <- (Hfg a), <- (Hfg x);
      [auto | right; exact Hx | left; reflexivity].
Qed.

Lemma sorted_delete {V : Type} (R : str -> str -> Prop) (m : JSMap.t V) k :
  StronglySorted R (JSMap.keys m) ->
  StronglySorted R (JSMap.keys (JSMap.delete m k)).
Proof.
  induction m as [|[k' v'] m IH]; simpl; intros Hs; [constructor|].
  inversion Hs as [|? ? Hs' Ha]; subst.
  destruct (str_eqb k' k); [exact Hs'|].
  simpl. constructor; [auto|].
  rewrite Forall_forall in *. intros x Hx. apply Ha.
  eapply JSMapFacts.in_delete. exact Hx.
Qed.

End SortedFacts.

Module CacheTraceFacts.

Import JSMapFacts LRUCacheFacts SortedFacts CacheTrace.

Section WithDigest.
Variable sha256_hex : str -> str.

Local Abbreviation run := (CacheTrace.run sha256_hex).
Local Abbreviation step := (CacheTrace.step sha256_hex).
Local Abbreviation last_access := (CacheTrace.last_access sha256_hex).
Local Abbreviation inserted_keys := (CacheTrace.inserted_keys sha256_hex).
Local Abbreviation touches := (CacheTrace.touches sha256_hex).
Local Abbreviation generateKey := (LRUCache.generateKey sha256_hex).

Lemma run_snoc ops o c : run (ops ++ [o]) c = step (run ops c) o.
Proof. unfold CacheTrace.run. rewrite fold_left_app. reflexivity. Qed.

Lemma last_access_le ops k : last_access ops k <= List.length ops.
Proof.
  induction ops as [|o ops IH]; simpl; [lia|].
  destruct (last_access ops k); [destruct (touches k o)|]; lia.
Qed.

Lemma last_access_snoc ops o k :
  last_access (ops ++ [o]) k
  = if touches k o then S (List.length ops) else last_access ops k.
Proof.
  induction ops as [|o' ops IH]; simpl.
  - destruct (touches k o); reflexivity.
  - rewrite IH. destruct (touches k o) eqn:T.
    + reflexivity.
    + reflexivity.
Qed.

Lemma inserted_keys_snoc ops o :
  inserted_keys (ops ++ [o]) = inserted_keys ops ++ inserted_keys [o].
Proof. unfold CacheTrace.inserted_keys. apply flat_map_app. Qed.

Lemma maxSize_step c o :
  LRUCache.maxSize (step c o) = LRUCache.maxSize c.
Proof.
  destruct o; unfold CacheTrace.step, LRUCache.get, LRUCache.set.
  - apply maxSize_get_key.
  - apply maxSize_set_key.
  - reflexivity.
Qed.

Lemma maxSize_run ops c :
  LRUCache.maxSize (run ops c) = LRUCache.maxSize c.
Proof.
  revert c. induction ops as [|o ops IH]; intros c; [reflexivity|].
  change (run (o :: ops) c) with (run ops (step c o)).
  rewrite IH. apply maxSize_step.
Qed.

Lemma inserted_touched ops k :
  In k (inserted_keys ops) -> 0 < last_access ops k.
Proof.
  induction ops as [|o ops IH]; simpl; [tauto|].
  intros Hin. apply in_app_or in Hin.
  destruct (last_access ops k) eqn:L; [|lia].
  destruct Hin as [Hin|Hin]; [|apply IH in Hin; lia].
  destruct o; simpl in Hin; try tauto.
  destruct Hin as [<-|[]].
  unfold CacheTrace.touches. simpl. rewrite str_eqb_refl. lia.
Qed.

Hypothesis digest_nonempty : forall data, sha256_hex data <> [].

Lemma inserted_nonempty ops k : In k (inserted_keys ops) -> k <> [].
Proof.
  unfold CacheTrace.inserted_keys. rewrite in_flat_map.
  intros [o [_ Hk]]. destruct o; simpl in Hk; try tauto.
  destruct Hk as [<-|[]]. apply digest_nonempty.
Qed.

(** ** Size never exceeds a positive capacity *)

Lemma bounded_get_key c k : bounded c -> bounded (snd (LRUCache.get_key c k)).
Proof.
  unfold bounded, LRUCache.size, JSMap.size, stored_keys.
  intros [Hsz Hne]. rewrite maxSize_get_key.
  unfold LRUCache.get_key.
  destruct (JSMap.get (LRUCache.cache c) k) as [e|] eqn:G; simpl; [|auto].
  assert (Hin : In k (JSMap.keys (LRUCache.cache c))).
  { apply get_in. congruence. }
  pose proof (length_delete _ _ Hin) as Hd.
  pose proof (length_set_le (JSMap.delete (LRUCache.cache c) k) k e) as Hs.
  split; [lia|].
  rewrite Forall_forall in *. intros x Hx.
  destruct (str_dec x k) as [->|Hxk]; [apply Hne, Hin|].
  apply Hne. apply in_delete with (k := k).
  apply get_in. rewrite <- (get_set_other _ k e x Hxk).
  apply get_in. exact Hx.
Qed.

Lemma bounded_set_key c k v now :
  (1 <= LRUCache.maxSize c)%Z -> k <> [] ->
  bounded c -> bounded (LRUCache.set_key c k v now).
Proof.
  unfold bounded, LRUCache.size, JSMap.size, stored_keys.
  intros Hpos Hk [Hsz Hne]. rewrite maxSize_set_key.
  unfold LRUCache.set_key.
  set (c1 := if JSMap.has (LRUCache.cache c) k then _ else c).
  assert (H1 : (Z.of_nat (List.length (LRUCache.cache c1))
                <= LRUCache.maxSize c)%Z
                /\ Forall (fun k => k <> []) (JSMap.keys (LRUCache.cache c1))
                /\ LRUCache.maxSize c1 = LRUCache.maxSize c).
  { subst c1. destruct (JSMap.has _ k); simpl; [|auto].
    pose proof (length_delete_le (LRUCache.cache c) k).
    split; [lia|]. split; [|reflexivity].
    rewrite Forall_forall in *. intros x Hx. apply Hne.
    eapply in_delete. exact Hx. }
  clearbody c1. destruct H1 as (Hsz1 & Hne1 & Hmax1).
  set (c2 := LRUCache.evict_oldest c1).
  assert (H2 : (Z.of_nat (List.length (LRUCache.cache c2))
                < LRUCache.maxSize c)%Z
               /\ Forall (fun k => k <> []) (JSMap.keys (LRUCache.cache c2))).
  { subst c2. unfold LRUCache.evict_oldest, JSMap.size, JSMap.first_key.
    rewrite Hmax1.
    destruct (_ >=? _)%Z eqn:Hge; [|split; [lia | exact Hne1]].
    destruct (LRUCache.cache c1) as [|[k0 e0] m] eqn:Hm.
    { simpl in *. lia. }
    simpl. inversion Hne1 as [|? ? Hk0 Hrest]; subst.
    simpl in Hk0. destruct k0 as [|ch k0]; [congruence|].
    simpl. rewrite str_eqb_refl. simpl in Hsz1. split; [lia | exact Hrest]. }
  clearbody c2. destruct H2 as (Hsz2 & Hne2). simpl.
  pose proof (length_set_le (LRUCache.cache c2) k
                (CacheEntry.mk k v now)) as Hs.
  split; [lia|].
  rewrite Forall_forall in *. intros x Hx.
  destruct (str_dec x k) as [->|Hxk]; [exact Hk|].
  apply Hne2. apply get_in.
  rewrite <- (get_set_other _ k (CacheEntry.mk k v now) x Hxk).
  apply get_in. exact Hx.
Qed.

Lemma bounded_step c o :
  (1 <= LRUCache.maxSize c)%Z -> bounded c -> bounded (step c o).
Proof.
  intros Hpos Hb.
  destruct o; unfold CacheTrace.step, LRUCache.get, LRUCache.set.
  - apply bounded_get_key, Hb.
  - apply bounded_set_key; [exact Hpos | apply digest_nonempty | exact Hb].
  - unfold bounded, LRUCache.size, JSMap.size, stored_keys. simpl.
    split; [lia | constructor].
Qed.

Lemma bounded_run ops c :
  (1 <= LRUCache.maxSize c)%Z -> bounded c -> bounded (run ops c).
Proof.
  revert c. induction ops as [|o ops IH]; intros c Hpos Hb; [exact Hb|].
  change (run (o :: ops) c) with (run ops (step c o)). apply IH.
  - rewrite maxSize_step. exact Hpos.
  - apply bounded_step; assumption.
Qed.

End WithDigest.

End CacheTraceFacts.

Module LRUOrder.

Import JSMapFacts LRUCacheFacts SortedFacts CacheTrace CacheTraceFacts.

(** Moving key [k0] to the most recently used end, for a measure [g] of
    recency that agrees with the old one [f] except at [k0]. *)
Lemma moved_last {V : Type} (m : JSMap.t V) (k0 : str) (f g : str -> nat) :
  NoDup (JSMap.keys m) ->
  StronglySorted (fun a b => f a < f b) (JSMap.keys m) ->
  (forall x, x <> k0 -> g x = f x) ->
  (forall x, In x (JSMap.keys m) -> x <> k0 -> f x < g k0) ->
  let ks' := JSMap.keys (JSMap.delete m k0) ++ [k0] in
  NoDup ks'
  /\ (forall x, In x ks' <-> In x (JSMap.keys m) \/ x = k0)
  /\ StronglySorted (fun a b => g a < g b) ks'.
Proof.
  intros Hnd Hs Hfg Hlt ks'. subst ks'.
  pose proof (delete_removes m k0 Hnd) as Hrem.
  assert (Hne : forall x, In x (JSMap.keys (JSMap.delete m k0)) -> x <> k0).
  { intros x Hx ->. contradiction. }
  split; [|split].
  - apply NoDup_app; [apply nodup_delete, Hnd | repeat constructor; tauto |].
    intros x Hx [Hk|[]]. subst x. contradiction.
  - intros x. rewrite in_app_iff. simpl. split.
    + intros [Hx|[Hx|[]]]; [left; eapply in_delete; exact Hx | right; auto].
    + intros [Hx|Hx]; [|right; left; auto].
      destruct (str_dec x k0) as [->|Hxk]; [right; left; reflexivity|].
      left. apply in_delete_other; assumption.
  - apply sorted_snoc.
    + apply sorted_measure_ext with (f := f).
      * intros x Hx. symmetry. apply Hfg, Hne, Hx.
      * apply sorted_delete, Hs.
    + intros x Hx. rewrite (Hfg x (Hne x Hx)).
      apply Hlt; [eapply in_delete; exact Hx | apply Hne, Hx].
Qed.

Lemma nodup_length_app (l l' : list str) :
  List.length (nodup str_dec l) <= List.length (nodup str_dec (l ++ l')).
Proof.
  apply NoDup_incl_length; [apply NoDup_nodup|].
  intros x Hx. apply nodup_In. apply in_or_app. left.
  apply nodup_In in Hx. exact Hx.
Qed.

Section WithDigest.
Variable sha256_hex : str -> str.

Local Abbreviation run := (CacheTrace.run sha256_hex).
Local Abbreviation step := (CacheTrace.step sha256_hex).
Local Abbreviation last_access := (CacheTrace.last_access sha256_hex).
Local Abbreviation inserted_keys := (CacheTrace.inserted_keys sha256_hex).
Local Abbreviation generateKey := (LRUCache.generateKey sha256_hex).

Lemma touches_get k input provider model :
  CacheTrace.touches sha256_hex k (OpGet input provider model)
  = str_eqb (generateKey input provider model) k.
Proof. reflexivity. Qed.

Lemma touches_set k input provider model value now :
  CacheTrace.touches sha256_hex k (OpSet input provider model value now)
  = str_eqb (generateKey input provider model) k.
Proof. reflexivity. Qed.

(** While the keys inserted so far fit the capacity, nothing is evicted and
    the stored keys are exactly the inserted ones, in the order of their
    last access. *)
Lemma fill_invariant (N : Z) (ops : list op) :
  forallb is_access ops = true ->
  (Z.of_nat (List.length (nodup str_dec (inserted_keys ops))) <= N)%Z ->
  let c := run ops (LRUCache.new N) in
  NoDup (stored_keys c)
  /\ (forall k, In k (stored_keys c) <-> In k (inserted_keys ops))
  /\ StronglySorted (fun a b => last_access ops a < last_access ops b)
       (stored_keys c)
  /\ CacheStats.evictions (LRUCache.stats c) = 0%Z.
Proof.
  induction ops as [|o ops IH] using rev_ind; intros Hacc Hfit c.
  - subst c. simpl. repeat split; try constructor; tauto.
  - subst c. rewrite forallb_app in Hacc. apply andb_prop in Hacc.
    destruct Hacc as [Hacc Ho].
    rewrite inserted_keys_snoc in Hfit.
    pose proof (nodup_length_app (inserted_keys ops) (inserted_keys [o]))
      as Hle.
    destruct (IH Hacc ltac:(lia)) as (Hnd & Hmem & Hsorted & Hev).
    clear IH. rewrite run_snoc.
    set (c := run ops (LRUCache.new N)) in *.
    assert (Hmax : LRUCache.maxSize c = N) by apply maxSize_run.
    assert (Hmeasure : forall k0 x, x <> k0 ->
              (if str_eqb k0 x then S (List.length ops)
               else last_access ops x) = last_access ops x).
    { intros k0 x Hx. case_str_eqb k0 x; [congruence | reflexivity]. }
    destruct o as [input provider model|input provider model value now|];
      [| |discriminate].
    + (* get *)
      set (k0 := generateKey input provider model).
      unfold CacheTrace.step, LRUCache.get. fold k0.
      assert (Hins : inserted_keys (ops ++ [OpGet input provider model])
                     = inserted_keys ops).
      { rewrite inserted_keys_snoc. simpl. apply app_nil_r. }
      destruct (in_dec str_dec k0 (stored_keys c)) as [Hin|Hout].
      * destruct (get_key_hit c k0 Hnd Hin) as [Hkeys Hstats].
        destruct (moved_last (LRUCache.cache c) k0 (last_access ops)
                    (last_access (ops ++ [OpGet input provider model]))
                    Hnd Hsorted) as (Hnd' & Hmem' & Hsorted').
        { intros x Hx. rewrite last_access_snoc.
          rewrite touches_get. fold k0. apply Hmeasure. exact Hx. }
        { intros x _ _. rewrite last_access_snoc.
          rewrite touches_get. fold k0. rewrite str_eqb_refl.
          pose proof (last_access_le sha256_hex ops x). lia. }
        rewrite Hkeys, Hstats, Hins. repeat split.
        -- exact Hnd'.
        -- intros Hx. apply Hmem' in Hx. apply Hmem.
           destruct Hx as [Hx| ->]; assumption.
        -- intros Hx. apply Hmem'. left. apply Hmem. exact Hx.
        -- exact Hsorted'.
        -- exact Hev.
      * rewrite (get_key_miss c k0 Hout). simpl. rewrite Hins.
        repeat split; try assumption; try apply Hmem.
        apply sorted_measure_ext with (f := last_access ops); [|exact Hsorted].
        intros x Hx. rewrite last_access_snoc.
        rewrite touches_get. fold k0. symmetry. apply Hmeasure.
        intros ->. contradiction.
    + (* set *)
      set (k0 := generateKey input provider model).
      unfold CacheTrace.step, LRUCache.set. fold k0.
      assert (Hins : inserted_keys
                       (ops ++ [OpSet input provider model value now])
                     = inserted_keys ops ++ [k0]).
      { rewrite inserted_keys_snoc. reflexivity. }
      change (inserted_keys [OpSet input provider model value now])
        with [k0] in Hfit.
      destruct (moved_last (LRUCache.cache c) k0 (last_access ops)
                  (last_access (ops ++ [OpSet input provider model value now]))
                  Hnd Hsorted) as (Hnd' & Hmem' & Hsorted').
      { intros x Hx. rewrite last_access_snoc.
        rewrite touches_set. fold k0. apply Hmeasure. exact Hx. }
      { intros x _ _. rewrite last_access_snoc.
        rewrite touches_set. fold k0. rewrite str_eqb_refl.
        pose proof (last_access_le sha256_hex ops x). lia. }
      assert (Hroom : (Z.of_nat (List.length
                         (JSMap.delete (LRUCache.cache c) k0))
                       < LRUCache.maxSize c)%Z).
      { rewrite Hmax.
        assert (Hlen : List.length
                         (JSMap.keys (JSMap.delete (LRUCache.cache c) k0)
                          ++ [k0])
                       <= List.length
                            (nodup str_dec (inserted_keys ops ++ [k0]))).
        { apply NoDup_incl_length; [exact Hnd'|].
          intros x Hx. apply nodup_In. apply Hmem' in Hx.
          apply in_or_app. destruct Hx as [Hx| ->].
          - left. apply Hmem. exact Hx.
          - right. left. reflexivity. }
        rewrite length_app, length_keys in Hlen. simpl in Hlen. lia. }
      destruct (set_key_room c k0 value now Hnd Hroom) as [Hkeys Hstats].
      rewrite Hkeys, Hstats, Hins. repeat split.
      * exact Hnd'.
      * intros Hx. apply Hmem' in Hx. apply in_or_app.
        destruct Hx as [Hx| ->]; [left; apply Hmem; exact Hx|].
        right. left. reflexivity.
      * intros Hx. apply Hmem'. apply in_app_or in Hx.
        destruct Hx as [Hx|[<-|[]]]; [left; apply Hmem; exact Hx|].
        right. reflexivity.
      * exact Hsorted'.
      * exact Hev.
Qed.

End WithDigest.

End LRUOrder.

(* ================================================================== *)
(** * Properties of the result cache *)
(* ================================================================== *)

Module CacheProperties.

Import JSMapFacts LRUCacheFacts SortedFacts CacheTrace CacheTraceFacts LRUOrder.
Import Samples.

Section WithDigest.
Variable sha256_hex : str -> str.
(** A hexadecimal SHA-256 digest has 64 characters; all that matters here
    is that it is not the empty string. *)
Hypothesis digest_nonempty : forall data, sha256_hex data <> [].

Local Abbreviation run := (CacheTrace.run sha256_hex).
Local Abbreviation last_access := (CacheTrace.last_access sha256_hex).
Local Abbreviation inserted_keys := (CacheTrace.inserted_keys sha256_hex).
Local Abbreviation generateKey := (LRUCache.generateKey sha256_hex).

(** C6, for a capacity [N >= 1].  Start from a new cache of capacity [N]
    and run any sequence of [get] and [set] operations whose [set]s insert
    [N] distinct keys; then [set] one more key.  Before the last [set]
    nothing was evicted and the cache holds [N] entries.  The last [set]
    evicts exactly one entry, the first of the stored keys; that key was
    accessed (by [get] or [set]) less recently than every other stored key;
    all other entries stay, the new key goes last, and the eviction counter
    goes up by exactly one. *)
Theorem lru_evicts_least_recently_accessed
  (N : Z) (ops : list op)
  (input : str) (provider : AIProvider) (model : str)
  (value : VibeSpec) (now : Z) :
  (1 <= N)%Z ->
  forallb is_access ops = true ->
  Z.of_nat (List.length (nodup str_dec (inserted_keys ops))) = N ->
  ~ In (generateKey input provider model) (inserted_keys ops) ->
  let c := run ops (LRUCache.new N) in
  let c' := LRUCache.set sha256_hex c input provider model value now in
  exists victim rest,
    stored_keys c = victim :: rest
    /\ stored_keys c' = rest ++ [generateKey input provider model]
    /\ ~ In victim (stored_keys c')
    /\ 0 < last_access ops victim
    /\ (forall k, In k rest -> last_access ops victim < last_access ops k)
    /\ (forall k, In k rest ->
        JSMap.get (LRUCache.cache c') k = JSMap.get (LRUCache.cache c) k)
    /\ CacheStats.evictions (LRUCache.getStats c) = 0%Z
    /\ CacheStats.evictions (LRUCache.getStats c')
       = (CacheStats.evictions (LRUCache.getStats c) + 1)%Z
    /\ LRUCache.size c = N
    /\ LRUCache.size c' = N.
Proof.
  intros Hpos Hacc Hcount Hnew c c'.
  destruct (fill_invariant sha256_hex N ops Hacc ltac:(lia))
    as (Hnd & Hmem & Hsorted & Hev).
  fold c in Hnd, Hmem, Hsorted, Hev.
  assert (Hmax : LRUCache.maxSize c = N) by apply maxSize_run.
  assert (Hlen : Z.of_nat (List.length (stored_keys c)) = N).
  { rewrite <- Hcount. f_equal. apply Nat.le_antisymm.
    - apply NoDup_incl_length; [exact Hnd|].
      intros x Hx. apply nodup_In, Hmem, Hx.
    - apply NoDup_incl_length; [apply NoDup_nodup|].
      intros x Hx. apply Hmem. apply nodup_In in Hx. exact Hx. }
  destruct (stored_keys c) as [|victim rest] eqn:Hkeys; [simpl in Hlen; lia|].
  exists victim, rest.
  assert (Hvictim : victim <> []).
  { apply (inserted_nonempty sha256_hex digest_nonempty ops).
    apply Hmem. left. reflexivity. }
  assert (Habs : ~ In (generateKey input provider model) (stored_keys c)).
  { rewrite Hkeys. intros Hin. apply Hnew, Hmem, Hin. }
  assert (Hfull : (JSMap.size (LRUCache.cache c) >= LRUCache.maxSize c)%Z).
  { unfold JSMap.size. rewrite <- length_keys.
    unfold stored_keys in Hkeys. rewrite Hkeys, Hmax. lia. }
  rewrite <- Hkeys in Hnd.
  destruct (set_key_full c (generateKey input provider model) value now
              victim rest Hnd Habs Hfull Hkeys Hvictim)
    as (Hkeys' & Hev' & Hkept).
  rewrite Hkeys in Hnd. apply NoDup_cons_iff in Hnd as [Hvr Hndr].
  apply StronglySorted_inv in Hsorted as [_ Hmin].
  rewrite Forall_forall in Hmin.
  unfold LRUCache.getStats, LRUCache.size, JSMap.size.
  repeat split.
  - exact Hkeys'.
  - unfold c', LRUCache.set. rewrite Hkeys'. rewrite in_app_iff.
    intros [Hin|[Hin|[]]]; [contradiction|].
    apply Habs. rewrite Hkeys. left. symmetry. exact Hin.
  - apply inserted_touched, Hmem. left. reflexivity.
  - exact Hmin.
  - intros x Hx. apply Hkept.
    + intros ->. apply Habs. rewrite Hkeys. right. exact Hx.
    + intros ->. contradiction.
  - exact Hev.
  - exact Hev'.
  - rewrite <- length_keys. unfold stored_keys in Hkeys. rewrite Hkeys.
    exact Hlen.
  - rewrite <- length_keys. unfold c', LRUCache.set.
    unfold stored_keys in Hkeys'. rewrite Hkeys'.
    rewrite length_app. simpl in *. lia.
Qed.

(** C8, for a capacity [maxSize >= 1]: after any sequence of [get], [set]
    and [clear] on a cache constructed with that capacity the number of
    stored entries is at most [maxSize]. *)
Theorem size_within_capacity (maxSize : Z) (ops : list op) :
  (1 <= maxSize)%Z ->
  (LRUCache.size (run ops (LRUCache.new maxSize)) <= maxSize)%Z.
Proof.
  intros Hpos.
  assert (Hb : bounded (run ops (LRUCache.new maxSize))).
  { apply bounded_run; [exact digest_nonempty | exact Hpos |].
    split; [unfold LRUCache.size, JSMap.size; simpl; lia | constructor]. }
  destruct Hb as [Hsize _].
  rewrite maxSize_run in Hsize. exact Hsize.
Qed.

End WithDigest.

(** C9: [clear] empties the cache and resets the counters, whatever
    happened before: right after it [getStats] reports size, hits, misses
    and evictions all zero. *)
Theorem clear_resets_stats (sha256_hex : str -> str)
  (ops : list op) (c0 : LRUCache.t) :
  let c := CacheTrace.run sha256_hex (ops ++ [OpClear]) c0 in
  let s := LRUCache.getStats c in
  CacheStats.size s = 0%Z /\ CacheStats.hits s = 0%Z
  /\ CacheStats.misses s = 0%Z /\ CacheStats.evictions s = 0%Z
  /\ LRUCache.size c = 0%Z /\ stored_keys c = [].
Proof.
  intros c s. subst s c. rewrite run_snoc.
  set (before := CacheTrace.run sha256_hex ops c0).
  unfold CacheTrace.step, LRUCache.getStats, LRUCache.clear.
  repeat split.
Qed.

Lemma sample_digest_nonempty : forall data, sample_digest data <> [].
Proof. intros data. discriminate. Qed.

(** Capacity 2: insert two inputs, read the first again, insert a third.
    The second input is the one evicted. *)
Lemma lru_evicts_least_recently_accessed_witness :
  let ops :=
    [ OpSet (lit "first input") openai (lit "m") sample_spec 1;
      OpSet (lit "second input") openai (lit "m") sample_spec 2;
      OpGet (lit "first input") openai (lit "m") ] in
  let k :=
    LRUCache.generateKey sample_digest (lit "third input") openai (lit "m") in
  let c := CacheTrace.run sample_digest ops (LRUCache.new 2) in
  let c' :=
    LRUCache.set sample_digest c (lit "third input") openai (lit "m")
      sample_spec 3 in
  exists victim rest,
    stored_keys c = victim :: rest
    /\ stored_keys c' = rest ++ [k]
    /\ ~ In victim (stored_keys c')
    /\ 0 < CacheTrace.last_access sample_digest ops victim
    /\ (forall k, In k rest ->
        CacheTrace.last_access sample_digest ops victim
        < CacheTrace.last_access sample_digest ops k)
    /\ (forall k, In k rest ->
        JSMap.get (LRUCache.cache c') k = JSMap.get (LRUCache.cache c) k)
    /\ CacheStats.evictions (LRUCache.getStats c) = 0%Z
    /\ CacheStats.evictions (LRUCache.getStats c')
       = (CacheStats.evictions (LRUCache.getStats c) + 1)%Z
    /\ LRUCache.size c = 2%Z
    /\ LRUCache.size c' = 2%Z.
Proof.
  intros ops k c c'.
  apply (lru_evicts_least_recently_accessed sample_digest
           sample_digest_nonempty 2 ops (lit "third input") openai (lit "m")
           sample_spec 3).
  - lia.
  - reflexivity.
  - vm_compute. reflexivity.
  - vm_compute. intros [H|[H|[]]]; discriminate.
Defined.

Lemma size_within_capacity_witness :
  (LRUCache.size
     (CacheTrace.run sample_digest
        [ OpSet (lit "first input") openai (lit "m") sample_spec 1;
          OpSet (lit "second input") openai (lit "m") sample_spec 2;
          OpGet (lit "first input") openai (lit "m");
          OpSet (lit "third input") openai (lit "m") sample_spec 3 ]
        (LRUCache.new 2)) <= 2)%Z.
Proof.
  apply (size_within_capacity sample_digest sample_digest_nonempty 2).
  lia.
Defined.

(** C6 as stated fails at capacity 0: the first [set] finds the cache
    empty, evicts nothing and stores its entry all the same. *)
Lemma lru_capacity_zero_evicts_nothing :
  let c := LRUCache.new 0 in
  let c' := LRUCache.set sample_digest c (lit "first input") openai (lit "m")
              sample_spec 1 in
  CacheStats.evictions (LRUCache.getStats c')
    <> (CacheStats.evictions (LRUCache.getStats c) + 1)%Z
  /\ CacheStats.evictions (LRUCache.getStats c') = 0%Z
  /\ stored_keys c'
     = [LRUCache.generateKey sample_digest (lit "first input") openai
          (lit "m")].
Proof.
  vm_compute. repeat split. discriminate.
Qed.

(** C8 as stated fails at capacity 0: one [set] leaves one entry. *)
Lemma size_exceeds_capacity_zero :
  ~ (LRUCache.size
       (CacheTrace.run sample_digest
          [OpSet (lit "first input") openai (lit "m") sample_spec 1]
          (LRUCache.new 0)) <= 0)%Z.
Proof.
  vm_compute. intros H. apply H. reflexivity.
Qed.

End CacheProperties.

(* ================================================================== *)
(** * Proofs: domain detection *)
(* ================================================================== *)

Module DomainFacts.

Import HeuristicParser DomainSpec.

(** ** The head of a stably sorted array *)

Section SortHead.
Context {A : Type}.
Variable weight : A -> Z.

Local Abbreviation by_weight_desc :=
  (fun a b : A => (weight b - weight a)%Z).

(** The first element after sorting by descending weight is the first
    element of maximal weight: everything in front of it in the array
    weighs strictly less, everything behind it no more. *)
Lemma sort_desc_head (l : list A) (x : A) (rest : list A) :
  JSArray.sort by_weight_desc l = x :: rest ->
  exists l1 l2,
    l = l1 ++ x :: l2
    /\ (forall y, In y l1 -> (weight y < weight x)%Z)
    /\ (forall y, In y l2 -> (weight y <= weight x)%Z).
Proof.
  revert x rest. induction l as [|a l IH]; intros x rest Hsort.
  - discriminate.
  - simpl in Hsort.
    destruct (JSArray.sort by_weight_desc l) as [|x' rest'] eqn:Hl.
    + simpl in Hsort. injection Hsort as <- <-.
      destruct l as [|b l].
      * exists [], []. repeat split; simpl; tauto.
      * exfalso. simpl in Hl.
        destruct (JSArray.sort by_weight_desc l) as [|z zs]; simpl in Hl;
          [discriminate|].
        destruct (_ <=? _)%Z; discriminate.
    + destruct (IH x' rest' eq_refl) as (l1 & l2 & Hsplit & Hbefore & Hafter).
      simpl in Hsort. destruct (weight x' - weight a <=? 0)%Z eqn:Hcmp.
      * injection Hsort as <- <-.
        exists [], l. repeat split; [simpl; tauto|].
        intros y Hy. rewrite Hsplit in Hy. apply in_app_or in Hy.
        apply Z.leb_le in Hcmp.
        destruct Hy as [Hy|[<-|Hy]].
        -- specialize (Hbefore y Hy). lia.
        -- lia.
        -- specialize (Hafter y Hy). lia.
      * injection Hsort as <- _.
        apply Z.leb_gt in Hcmp.
        exists (a :: l1), l2. rewrite Hsplit. repeat split.
        -- intros y [<-|Hy]; [lia | apply Hbefore, Hy].
        -- exact Hafter.
Qed.

Lemma sort_nonempty (l : list A) :
  l <> [] -> JSArray.sort by_weight_desc l <> [].
Proof.
  destruct l as [|a l]; [congruence|]. intros _. simpl.
  destruct (JSArray.sort by_weight_desc l) as [|z zs]; simpl;
    [discriminate|].
  destruct (_ <=? _)%Z; discriminate.
Qed.

End SortHead.

(** ** The scores the loops compute *)

Lemma add_score_bump d n scores :
  add_score d n (bump d scores) = add_score d (1 + n) scores.
Proof.
  induction scores as [|[d' m] scores IH]; simpl; [reflexivity|].
  destruct (domain_eqb d' d) eqn:E; simpl; rewrite E.
  - rewrite <- Z.add_assoc. reflexivity.
  - f_equal. exact IH.
Qed.

Lemma add_score_zero d scores : add_score d 0 scores = scores.
Proof.
  induction scores as [|[d' m] scores IH]; simpl; [reflexivity|].
  destruct (domain_eqb d' d); [rewrite Z.add_0_r | rewrite IH]; reflexivity.
Qed.

Lemma count_included_cons lower k keywords :
  count_included lower (k :: keywords)
  = ((if includes lower k then 1 else 0) + count_included lower keywords)%Z.
Proof.
  unfold count_included. cbn [filter].
  destruct (includes lower k); cbn [List.length];
    [rewrite Nat2Z.inj_succ|]; lia.
Qed.

Lemma score_keywords_adds lower d keywords scores :
  score_keywords lower d keywords scores
  = add_score d (count_included lower keywords) scores.
Proof.
  unfold score_keywords. revert scores.
  induction keywords as [|k keywords IH]; intros scores.
  - simpl. symmetry. apply add_score_zero.
  - simpl fold_left. rewrite IH, count_included_cons.
    destruct (includes lower k).
    + rewrite add_score_bump. reflexivity.
    + reflexivity.
Qed.

Lemma count_included_nonneg lower keywords :
  (0 <= count_included lower keywords)%Z.
Proof. unfold count_included. lia. Qed.

Lemma score_domains_spec text :
  score_domains (toLowerCase text) = all_scores text.
Proof.
  unfold score_domains, all_scores, domain_score, keywords_of.
  unfold DOMAIN_PATTERNS. cbn [fold_left fst snd map].
  rewrite !score_keywords_adds.
  cbn [initial_scores add_score domain_eqb keywords_in].
  rewrite !Z.add_0_l. reflexivity.
Qed.

End DomainFacts.

Module DomainProperties.

Import HeuristicParser DomainSpec DomainFacts.

Lemma domain_eqb_eq a b : domain_eqb a b = true <-> a = b.
Proof. destruct a, b; simpl; split; congruence. Qed.

Lemma domain_eq_dec (a b : Domain) : {a = b} + {a <> b}.
Proof. decide equality. Qed.

Lemma index_in_app_in l1 l2 d :
  In d l1 ->
  index_in (l1 ++ l2) d = index_in l1 d /\ index_in l1 d < List.length l1.
Proof.
  induction l1 as [|a l1 IH]; simpl; [tauto|]. intros Hin.
  destruct (domain_eqb a d) eqn:E; [lia|].
  destruct Hin as [->|Hin].
  - assert (domain_eqb d d = true) by (apply domain_eqb_eq; reflexivity).
    congruence.
  - destruct (IH Hin). lia.
Qed.

Lemma index_in_app_out l1 l2 d :
  ~ In d l1 -> index_in (l1 ++ l2) d = List.length l1 + index_in l2 d.
Proof.
  induction l1 as [|a l1 IH]; simpl; [reflexivity|]. intros Hout.
  destruct (domain_eqb a d) eqn:E.
  - apply domain_eqb_eq in E. tauto.
  - rewrite IH; tauto.
Qed.

Lemma index_in_head d l : index_in (d :: l) d = 0.
Proof.
  simpl. destruct (domain_eqb d d) eqn:E; [reflexivity|].
  assert (domain_eqb d d = true) by (apply domain_eqb_eq; reflexivity).
  congruence.
Qed.

Lemma index_in_tail d d' l :
  d' <> d -> index_in (d :: l) d' = S (index_in l d').
Proof.
  intros Hne. simpl. destruct (domain_eqb d d') eqn:E; [|reflexivity].
  apply domain_eqb_eq in E. congruence.
Qed.

Lemma table_domains_complete d : In d (map fst DOMAIN_PATTERNS).
Proof. destruct d; simpl; tauto. Qed.

Lemma table_domains_nodup : NoDup (map fst DOMAIN_PATTERNS).
Proof.
  simpl. repeat constructor; simpl; intuition congruence.
Qed.

Lemma domain_score_nonneg text d : (0 <= domain_score text d)%Z.
Proof. apply count_included_nonneg. Qed.

(** What sorting the scores puts first. *)
Lemma sorted_scores_head text :
  exists d0 rest,
    JSArray.sort (fun a b : Domain * Z => (snd b - snd a)%Z)
      (score_domains (toLowerCase text))
    = (d0, domain_score text d0) :: rest
    /\ (forall d', (domain_score text d' <= domain_score text d0)%Z)
    /\ (forall d', declared_before d' d0 ->
                   (domain_score text d' < domain_score text d0)%Z)
    /\ (forall d', declared_before d0 d' \/ d' = d0 \/ declared_before d' d0).
Proof.
  rewrite score_domains_spec.
  destruct (JSArray.sort (fun a b : Domain * Z => (snd b - snd a)%Z)
              (all_scores text)) as [|[d0 n0] rest] eqn:Hsort.
  { exfalso. revert Hsort. apply (sort_nonempty snd). discriminate. }
  destruct (sort_desc_head snd _ _ _ Hsort)
    as (l1 & l2 & Hsplit & Hbefore & Hafter).
  unfold all_scores in Hsplit.
  apply map_eq_app in Hsplit.
  destruct Hsplit as (doms1 & tail & Hdoms & Hl1 & Htail).
  apply map_eq_cons in Htail.
  destruct Htail as (d0' & doms2 & -> & Hd0 & Hl2).
  injection Hd0 as -> <-.
  pose proof table_domains_nodup as Hnd. rewrite Hdoms in Hnd.
  apply NoDup_remove_2 in Hnd.
  assert (Hout1 : ~ In d0 doms1).
  { intros Hin. apply Hnd. apply in_or_app. left. exact Hin. }
  assert (Hidx0 : declaration_index d0 = List.length doms1).
  { unfold declaration_index. rewrite Hdoms.
    rewrite index_in_app_out by exact Hout1. rewrite index_in_head. lia. }
  assert (Hprefix : forall d', declared_before d' d0 <-> In d' doms1).
  { intros d'. unfold declared_before. rewrite Hidx0.
    unfold declaration_index. rewrite Hdoms. split.
    - intros Hlt. destruct (in_dec domain_eq_dec d' doms1) as [Hin|Hout];
        [exact Hin|].
      rewrite index_in_app_out in Hlt by exact Hout. lia.
    - intros Hin. destruct (index_in_app_in doms1 (d0 :: doms2) d' Hin)
        as [-> Hlt]. exact Hlt. }
  assert (Hscore1 : forall d', In d' doms1 ->
            (domain_score text d' < domain_score text d0)%Z).
  { intros d' Hin. subst l1.
    apply (Hbefore (d', domain_score text d')).
    apply in_map_iff. exists d'. split; [reflexivity | exact Hin]. }
  assert (Hscore2 : forall d', In d' doms2 ->
            (domain_score text d' <= domain_score text d0)%Z).
  { intros d' Hin. subst l2.
    apply (Hafter (d', domain_score text d')).
    apply in_map_iff. exists d'. split; [reflexivity | exact Hin]. }
  exists d0, rest. split; [reflexivity|]. split; [|split].
  - intros d'. pose proof (table_domains_complete d') as Hin.
    rewrite Hdoms in Hin. apply in_app_or in Hin.
    destruct Hin as [Hin|[<-|Hin]].
    + specialize (Hscore1 d' Hin). lia.
    + lia.
    + apply Hscore2, Hin.
  - intros d' Hd'. apply Hscore1, Hprefix, Hd'.
  - intros d'.
    destruct (domain_eq_dec d' d0) as [->|Hne]; [right; left; reflexivity|].
    destruct (in_dec domain_eq_dec d' doms1) as [Hin|Hout].
    + right. right. apply Hprefix, Hin.
    + left. unfold declared_before. rewrite Hidx0.
      unfold declaration_index. rewrite Hdoms.
      rewrite index_in_app_out by exact Hout.
      rewrite index_in_tail by exact Hne. lia.
Qed.

(** C7, as the code has it: domain detection scores every domain by the
    number of keywords of its row of the static table that occur in the
    (lower-cased) text, each keyword counting once however often it
    occurs, and returns the domain of highest score, the earliest declared
    among equal scores; it returns [undefined] exactly when every score is
    zero. *)
Theorem detectDomain_highest_score (text : str) :
  (forall d, detectDomain text = Some d <-> wins text d)
  /\ (detectDomain text = None <-> forall d, domain_score text d = 0%Z).
Proof.
  destruct (sorted_scores_head text)
    as (d0 & rest & Hsort & Hmax & Hfirst & Htri).
  unfold detectDomain. cbv zeta. rewrite Hsort.
  destruct (0 <? domain_score text d0)%Z eqn:Hpos.
  - apply Z.ltb_lt in Hpos. split.
    + intros d. split.
      * intros Hd. injection Hd as <-. repeat split; assumption.
      * intros (Hd & Hdmax & Hdfirst).
        destruct (Htri d) as [Hlt|[->|Hlt]]; [|reflexivity|].
        -- specialize (Hdfirst d0 Hlt). specialize (Hmax d). lia.
        -- specialize (Hfirst d Hlt). specialize (Hdmax d0). lia.
    + split; [discriminate|]. intros Hzero. specialize (Hzero d0). lia.
  - apply Z.ltb_ge in Hpos. split.
    + intros d. split; [discriminate|].
      intros (Hd & _). specialize (Hmax d). lia.
    + split; [|reflexivity]. intros _ d.
      specialize (Hmax d). pose proof (domain_score_nonneg text d). lia.
Qed.

(** C7 as stated fails on a text that repeats a keyword.  By occurrences
    [backend] scores highest, three against two for [frontend] and none
    for the others; but a keyword counts once, so [backend] scores 1,
    [frontend] scores 2 and [frontend] is returned. *)
Lemma detectDomain_ignores_repetition :
  let text := lit "api api api form button" in
  occurrence_score text backend = 3%Z
  /\ (forall d, d <> backend ->
                (occurrence_score text d < occurrence_score text backend)%Z)
  /\ domain_score text backend = 1%Z
  /\ domain_score text frontend = 2%Z
  /\ detectDomain text = Some frontend.
Proof.
  cbv zeta. split; [vm_compute; reflexivity|]. split.
  - intros d Hd. destruct d; try (vm_compute; reflexivity).
    contradiction Hd. reflexivity.
  - repeat split; vm_compute; reflexivity.
Qed.

End DomainProperties.

(* ================================================================== *)
(** * Proofs: repair of provider responses *)
(* ================================================================== *)

Module StringFacts.

Lemma take_drop_while (p : ascii -> bool) (s : str) :
  takeWhile p s ++ dropWhile p s = s.
Proof.
  induction s as [|c s IH]; simpl; [reflexivity|].
  destruct (p c); simpl; [rewrite IH|]; reflexivity.
Qed.

Lemma takeWhile_all (p : ascii -> bool) (s : str) :
  Forall (fun c => p c = true) (takeWhile p s).
Proof.
  induction s as [|c s IH]; simpl; [constructor|].
  destruct (p c) eqn:E; constructor; assumption.
Qed.

Lemma count_char_app c (a b : str) :
  count_char c (a ++ b) = count_char c a + count_char c b.
Proof. unfold count_char. rewrite filter_app, length_app. reflexivity. Qed.

Lemma count_char_rev c (s : str) : count_char c (rev s) = count_char c s.
Proof.
  induction s as [|a s IH]; simpl; [reflexivity|].
  rewrite count_char_app, IH. unfold count_char. simpl.
  destruct (Ascii.eqb c a); simpl; lia.
Qed.

Lemma count_char_dropWhile c (p : ascii -> bool) (s : str) :
  p c = false -> count_char c (dropWhile p s) = count_char c s.
Proof.
  intros Hc. induction s as [|a s IH]; simpl; [reflexivity|].
  destruct (p a) eqn:Ha; [|reflexivity].
  rewrite IH. unfold count_char. simpl.
  destruct (Ascii.eqb c a) eqn:E; [|reflexivity].
  apply Ascii.eqb_eq in E. congruence.
Qed.

(** Trimming removes white space only. *)
Lemma count_char_trim c (s : str) :
  is_space c = false -> count_char c (trim s) = count_char c s.
Proof.
  intros Hc. unfold trim, trimEnd, trimStart.
  rewrite count_char_rev, count_char_dropWhile, count_char_rev by exact Hc.
  apply count_char_dropWhile. exact Hc.
Qed.

Lemma odd_mod2 (n : nat) : negb (Nat.eqb (n mod 2) 0) = Nat.odd n.
Proof.
  rewrite <- Nat.negb_even. f_equal.
  destruct (Nat.even n) eqn:E.
  - apply Nat.even_spec in E. destruct E as [k ->].
    rewrite Nat.mul_comm, Nat.Div0.mod_mul. reflexivity.
  - apply Nat.eqb_neq. intros Hmod.
    assert (Nat.even n = true); [|congruence].
    apply Nat.even_spec. exists (n / 2).
    pose proof (Nat.div_mod_eq n 2). lia.
Qed.

End StringFacts.

Module RepairFacts.

Import OpenRouterAdapter RepairSpec StringFacts.

Lemma for_loop_append (c : ascii) (n : nat) (repaired : str) :
  for_loop n (fun r => r ++ [c]) repaired = repaired ++ repeat c n.
Proof.
  revert repaired. induction n as [|n IH]; intros repaired; simpl.
  - rewrite app_nil_r. reflexivity.
  - rewrite IH, <- app_assoc. reflexivity.
Qed.

Lemma repair_closers (jsonStr : str) :
  repairIncompleteJson jsonStr = trim jsonStr ++ closers jsonStr.
Proof.
  unfold repairIncompleteJson, closers, missing. cbv zeta.
  rewrite !for_loop_append, odd_mod2.
  rewrite !count_char_trim by reflexivity.
  replace (Z.to_nat (Z.of_nat (count_char open_bracket jsonStr)
                     - Z.of_nat (count_char close_bracket jsonStr)))
    with (count_char open_bracket jsonStr - count_char close_bracket jsonStr)
    by lia.
  replace (Z.to_nat (Z.of_nat (count_char open_brace jsonStr)
                     - Z.of_nat (count_char close_brace jsonStr)))
    with (count_char open_brace jsonStr - count_char close_brace jsonStr)
    by lia.
  destruct (Nat.odd (count_char quote jsonStr)).
  - rewrite <- !app_assoc. reflexivity.
  - rewrite <- app_assoc. reflexivity.
Qed.

(** ** [fixUnescapedQuotes] *)

Lemma includes_no_quote (s : str) :
  Forall (fun c => not_quote c = true) s -> includes s [quote] = false.
Proof.
  induction 1 as [|c s Hc Hs IH]; [reflexivity|].
  cbn [includes startsWith]. rewrite IH. unfold not_quote, is_quote in Hc.
  rewrite Ascii.eqb_sym.
  destruct (Ascii.eqb c quote); [discriminate | reflexivity].
Qed.

(** A match of the key-value pattern lies inside the text, is not empty,
    and its [value] group is free of quotes. *)
Lemma key_value_at_match (s : str) len key value :
  key_value_at s = Some (len, (key, value)) ->
  1 <= len <= List.length s /\ includes value [quote] = false.
Proof.
  unfold key_value_at.
  destruct s as [|q r1]; [discriminate|].
  destruct (is_quote q); [|discriminate].
  pose proof (take_drop_while not_quote r1) as H1.
  destruct (takeWhile not_quote r1) as [|k1 key'] eqn:Hkey; [discriminate|].
  destruct (dropWhile not_quote r1) as [|q2 [|c r2]] eqn:Hd1;
    [discriminate | discriminate |].
  destruct (Ascii.eqb c colon); [|discriminate].
  pose proof (take_drop_while is_space r2) as H2.
  destruct (dropWhile is_space r2) as [|q3 r3] eqn:Hd2; [discriminate|].
  destruct (is_quote q3); [|discriminate].
  pose proof (take_drop_while not_quote r3) as H3.
  pose proof (takeWhile_all not_quote r3) as Hvalue.
  destruct (dropWhile not_quote r3) as [|q4 r4] eqn:Hd3; [discriminate|].
  intros Hsome. injection Hsome as <- <- <-.
  split; [|apply includes_no_quote, Hvalue].
  apply (f_equal (@List.length ascii)) in H1, H2, H3.
  rewrite length_app in H1, H2, H3. cbn [List.length] in *. lia.
Qed.

Section ReplaceIdentity.
Context {G : Type}.
Variable match_at : str -> option (nat * G).
Variable replacer : str -> G -> str.
Hypothesis match_inside :
  forall s len g, match_at s = Some (len, g) -> 1 <= len <= List.length s.
Hypothesis replacer_keeps :
  forall s len g, match_at s = Some (len, g) ->
                  replacer (firstn len s) g = firstn len s.

(** A callback that returns every match as it is leaves the text as it
    is. *)
Lemma replace_go_keeps (s : str) (skip : nat) :
  skip <= List.length s ->
  replace_go match_at replacer s skip = skipn skip s.
Proof.
  revert skip. induction s as [|c s IH]; intros skip Hskip.
  - simpl in Hskip. replace skip with 0 by lia. reflexivity.
  - destruct skip as [|k]; simpl.
    + destruct (match_at (c :: s)) as [[len g]|] eqn:Hm.
      * destruct (match_inside _ _ _ Hm) as [Hlo Hhi]. simpl in Hhi.
        rewrite (replacer_keeps _ _ _ Hm), IH by lia.
        destruct len as [|len]; [lia|].
        simpl. rewrite Nat.sub_0_r, firstn_skipn. reflexivity.
      * rewrite IH by lia. reflexivity.
    + apply IH. simpl in Hskip. lia.
Qed.

End ReplaceIdentity.

End RepairFacts.

Module RepairProperties.

Import OpenRouterAdapter RepairSpec StringFacts RepairFacts.

(** C4, for the text after trimming.  Closure repair first trims white
    space from both ends of its input.  To the trimmed text it only
    appends: one closing quote when the number of quotes is odd, then
    exactly the closing brackets and then the closing braces that the
    counts of the text lack.  So the trimmed text is an initial part of
    the result and the result is no shorter than the trimmed text. *)
Theorem repairIncompleteJson_appends_to_trimmed (jsonStr : str) :
  repairIncompleteJson jsonStr = trim jsonStr ++ closers jsonStr
  /\ is_prefix (trim jsonStr) (repairIncompleteJson jsonStr)
  /\ List.length (trim jsonStr) <= List.length (repairIncompleteJson jsonStr)
  /\ firstn (List.length (trim jsonStr)) (repairIncompleteJson jsonStr)
     = trim jsonStr.
Proof.
  pose proof (repair_closers jsonStr) as Hrepair.
  split; [exact Hrepair|]. rewrite Hrepair. split; [|split].
  - exists (closers jsonStr). reflexivity.
  - rewrite length_app. lia.
  - rewrite firstn_app, Nat.sub_diag, firstn_all. simpl.
    apply app_nil_r.
Qed.

(** C4 as stated fails on a text with white space at an end: the result
    is shorter than the text and differs from it at the first character. *)
Lemma repairIncompleteJson_shortens_padded_text :
  let text := lit "   {" in
  repairIncompleteJson text = lit "{}"
  /\ List.length (repairIncompleteJson text) < List.length text
  /\ nth_error (repairIncompleteJson text) 0 <> nth_error text 0.
Proof.
  vm_compute. repeat split; [lia | discriminate].
Qed.

(** [fixUnescapedQuotes] leaves every text as it is.  The [value] group of
    its pattern cannot contain a quote, so the test of the callback for an
    embedded quote never succeeds and no quote is ever escaped. *)
Lemma fixUnescapedQuotes_identity (jsonStr : str) :
  fixUnescapedQuotes jsonStr = jsonStr.
Proof.
  unfold fixUnescapedQuotes, replace_all.
  rewrite replace_go_keeps; [reflexivity | | | simpl; lia].
  - intros s len g Hm. destruct g as [key value].
    apply (key_value_at_match s len key value Hm).
  - intros s len [key value] Hm.
    destruct (key_value_at_match s len key value Hm) as [_ Hvalue].
    unfold fix_pair. rewrite Hvalue. reflexivity.
Qed.

(** C5, what the code does: a payload whose description embeds a quoted
    word comes back from [fixUnescapedQuotes] as it went in.  The embedded
    quotes are not escaped: the result is not the payload with the escaped
    quotes and contains no backslash. *)
Theorem fixUnescapedQuotes_leaves_embedded_quotes :
  fixUnescapedQuotes quoted_word_payload = quoted_word_payload
  /\ fixUnescapedQuotes quoted_word_payload <> escaped_word_payload
  /\ includes (fixUnescapedQuotes quoted_word_payload) [backslash] = false.
Proof.
  rewrite fixUnescapedQuotes_identity. repeat split.
  vm_compute. discriminate.
Qed.

End RepairProperties.

(* ================================================================== *)
(** * Proofs: the heuristic parser *)
(* ================================================================== *)

Module TrimFacts.

Import StringFacts.

Lemma dropWhile_head (p : ascii -> bool) (s : str) :
  match dropWhile p s with
  | [] => True
  | c :: _ => p c = false
  end.
Proof.
  induction s as [|c s IH]; simpl; [exact I|].
  destruct (p c) eqn:E; [exact IH | exact E].
Qed.

Lemma dropWhile_fixed (p : ascii -> bool) (s : str) :
  match s with [] => True | c :: _ => p c = false end ->
  dropWhile p s = s.
Proof.
  destruct s as [|c s]; simpl; [reflexivity|]. intros ->. reflexivity.
Qed.

(** A trimmed text has no white space left at either end. *)
Lemma trim_idempotent (s : str) : trim (trim s) = trim s.
Proof.
  unfold trim, trimEnd, trimStart.
  set (u := dropWhile is_space s).
  set (v := dropWhile is_space (rev u)).
  assert (Hu : u = rev v ++ rev (takeWhile is_space (rev u))).
  { rewrite <- rev_app_distr. subst v. rewrite take_drop_while.
    symmetry. apply rev_involutive. }
  assert (Hstart : dropWhile is_space (rev v) = rev v).
  { apply dropWhile_fixed.
    pose proof (dropWhile_head is_space s) as Hhead. fold u in Hhead.
    destruct (rev v) as [|c t]; [exact I|].
    rewrite Hu in Hhead. exact Hhead. }
  rewrite Hstart, rev_involutive.
  f_equal. apply dropWhile_fixed. apply dropWhile_head.
Qed.

End TrimFacts.

Module SetFacts.

Lemma set_add_nodup (x : str) (s : list str) :
  NoDup s -> NoDup (JSArray.set_add x s).
Proof.
  intros Hs. unfold JSArray.set_add.
  destruct (existsb (str_eqb x) s) eqn:E; [exact Hs|].
  apply NoDup_app; [exact Hs | repeat constructor; simpl; tauto |].
  intros y Hy [<-|[]].
  assert (existsb (str_eqb x) s = true); [|congruence].
  apply existsb_exists. exists x. split; [exact Hy | apply str_eqb_refl].
Qed.

Lemma set_add_all_nodup (xs s : list str) :
  NoDup s -> NoDup (JSArray.set_add_all xs s).
Proof.
  unfold JSArray.set_add_all. revert s.
  induction xs as [|x xs IH]; intros s Hs; simpl; [exact Hs|].
  apply IH, set_add_nodup, Hs.
Qed.

Lemma firstn_nodup {A : Type} (n : nat) (l : list A) :
  NoDup l -> NoDup (firstn n l).
Proof.
  intros Hl. rewrite <- (firstn_skipn n l) in Hl.
  apply NoDup_app_remove_r in Hl. exact Hl.
Qed.

End SetFacts.

Module HeuristicProperties.

Import HeuristicParser SetFacts TrimFacts.

Lemma extractComponents_bounded (text : str) :
  List.length (extractComponents text) <= 10
  /\ NoDup (extractComponents text).
Proof.
  unfold extractComponents. split.
  - rewrite length_firstn. lia.
  - apply firstn_nodup. do 2 apply set_add_all_nodup. constructor.
Qed.

(** [parse] accepts exactly the inputs of at least 20 characters after
    trimming. *)
Lemma parse_accepts (input : str) :
  20 <= List.length (trim input) ->
  exists h, parse input = inr h.
Proof.
  intros Hlen. unfold parse.
  destruct (List.length (trim input) <? 20) eqn:E.
  - apply Nat.ltb_lt in E. lia.
  - eexists. reflexivity.
Qed.

(** C10: the components [parse] extracts are at most 10 and pairwise
    different. *)
Theorem parse_components_bounded (input : str) (h : HeuristicOutput.t) :
  parse input = inr h ->
  List.length (HeuristicOutput.components h) <= 10
  /\ NoDup (HeuristicOutput.components h).
Proof.
  unfold parse. destruct (List.length (trim input) <? 20); [discriminate|].
  intros Hparse. injection Hparse as <-. simpl.
  apply extractComponents_bounded.
Qed.

(** An input with twelve different capitalised words and a suffixed
    name: ten components come back. *)
Lemma parse_components_bounded_witness :
  exists h,
    parse HeuristicSamples.many_components = inr h
    /\ List.length (HeuristicOutput.components h) <= 10
    /\ NoDup (HeuristicOutput.components h).
Proof.
  eexists. split; [vm_compute; reflexivity|].
  apply (parse_components_bounded HeuristicSamples.many_components).
  vm_compute. reflexivity.
Defined.

End HeuristicProperties.

(* ================================================================== *)
(** * Proofs: the processor *)
(* ================================================================== *)

Module PipelineFacts.

Import Processor PipelineSpec JSMapFacts TrimFacts.









(** What the validation of a payload establishes: the four fields are
    truthy, whatever their types. *)
Lemma validate_filled (parsed : OpenRouterAdapter.ParsedPayload.t)
  (spec : VibeSpec) :
  OpenRouterAdapter.validate parsed = inr spec ->
  spec = OpenRouterAdapter.as_VibeSpec parsed /\ filled spec.
Proof.
  unfold OpenRouterAdapter.validate, OpenRouterAdapter.missingFields.
  destruct (truthy_value (OpenRouterAdapter.ParsedPayload.title parsed))
    eqn:Ht; [|discriminate].
  destruct (truthy_value (OpenRouterAdapter.ParsedPayload.domain parsed))
    eqn:Hd; [|discriminate].
  destruct (truthy_value
              (OpenRouterAdapter.ParsedPayload.description parsed))
    eqn:Hde; [|discriminate].
  destruct (truthy_value
              (OpenRouterAdapter.ParsedPayload.requirements parsed))
    eqn:Hr; [|discriminate].
  simpl. intros Hspec. injection Hspec as <-.
  split; [reflexivity|]. unfold filled. simpl. auto.
Qed.




Section WithDigest.
Variable sha256_hex : str -> str.

Local Abbreviation process := (Processor.process sha256_hex).
Local Abbreviation refine_or_fall_back :=
  (Processor.refine_or_fall_back sha256_hex).
Local Abbreviation cache_key := (PipelineSpec.cache_key sha256_hex).



Lemma label_with_metadata spec m r : label (with_metadata spec m r) = Some r.
Proof. reflexivity. Qed.



(** The flag [aiRefinementApplied] is raised exactly for the specs that
    are labelled [ai] or [wizard]; the heuristic fallback lowers it. *)
Lemma refine_or_fall_back_label w options normalized provider model h :
  let r := refine_or_fall_back w options normalized provider model h in
  (snd r = true /\ (label (fst r) = Some ai \/ label (fst r) = Some wizard))
  \/ (snd r = false /\ label (fst r) = Some heuristic).
Proof.
  unfold Processor.refine_or_fall_back.
  destruct (try_refine w options) as [e|spec].
  - destruct (_ && isTTY w); [destruct (useWizard w)|]; simpl; auto.
  - simpl. auto.
Qed.

(** Which outcome gives which label: the provider's spec is labelled
    [ai]; after a failure the wizard's spec is labelled [wizard] if the
    wizard is enabled, a terminal is attached and the user accepts it, and
    the heuristic draft is labelled [heuristic] otherwise. *)
Lemma refine_or_fall_back_routes w options normalized provider model h :
  let spec :=
    fst (refine_or_fall_back w options normalized provider model h) in
  let enableWizard :=
    match ProcessorOptions.enableWizard options with
    | Some b => b
    | None => true
    end in
  match try_refine w options with
  | inr _ => label spec = Some ai
  | inl _ =>
      if enableWizard && isTTY w && useWizard w
      then label spec = Some wizard
      else label spec = Some heuristic
  end.
Proof.
  unfold Processor.refine_or_fall_back.
  destruct (try_refine w options) as [e|spec]; [|reflexivity].
  destruct (_ && isTTY w); [destruct (useWizard w)|]; reflexivity.
Qed.

(** A fresh spec never reports a cache hit. *)
Lemma refine_or_fall_back_flag w options normalized provider model h :
  reports_cache_hit
    (fst (refine_or_fall_back w options normalized provider model h))
  = Some false.
Proof.
  unfold Processor.refine_or_fall_back.
  destruct (try_refine w options) as [e|spec].
  - destruct (_ && isTTY w); [destruct (useWizard w)|]; reflexivity.
  - reflexivity.
Qed.

(** ** The two ways through [process] *)

Lemma process_hit input options w cache e :
  20 <= List.length (trim input) ->
  selected_useCache w options = true ->
  JSMap.get (LRUCache.cache cache) (cache_key input options w) = Some e ->
  process input options w cache
  = (inr (CacheEntry.value e),
     snd (LRUCache.get_key cache (cache_key input options w))).
Proof.
  intros Hlen Huse Hget. unfold Processor.process.
  destruct (List.length (trim input) <? 20) eqn:E;
    [apply Nat.ltb_lt in E; lia|].
  rewrite Huse. unfold LRUCache.get.
  fold (cache_key input options w).
  unfold LRUCache.get_key. rewrite Hget. reflexivity.
Qed.

Lemma process_miss input options w cache :
  20 <= List.length (trim input) ->
  answered_from_cache sha256_hex input options w cache = false ->
  exists h,
    HeuristicParser.parse (trim input) = inr h
    /\ let useCache := selected_useCache w options in
       let r := refine_or_fall_back w options (trim input)
                  (selected_provider w options) (selected_model w options) h in
       let cache1 :=
         if useCache then LRUCache.with_stats cache LRUCache.incr_misses
         else cache in
       process input options w cache
       = (inr (fst r),
          if useCache && snd r
          then LRUCache.set_key cache1 (cache_key input options w) (fst r)
                 (now w)
          else cache1).
Proof.
  intros Hlen Hmiss.
  destruct (HeuristicProperties.parse_accepts (trim input)) as [h Hparse].
  { rewrite trim_idempotent. exact Hlen. }
  exists h. split; [exact Hparse|]. cbv zeta.
  unfold Processor.process.
  destruct (List.length (trim input) <? 20) eqn:E;
    [apply Nat.ltb_lt in E; lia|].
  unfold answered_from_cache in Hmiss.
  destruct (selected_useCache w options) eqn:Huse.
  - simpl in Hmiss. unfold LRUCache.has_key, JSMap.has in Hmiss.
    unfold LRUCache.get. fold (cache_key input options w).
    unfold LRUCache.get_key.
    destruct (JSMap.get (LRUCache.cache cache) (cache_key input options w));
      [discriminate|].
    rewrite Hparse.
    destruct (refine_or_fall_back w options (trim input)
                (selected_provider w options) (selected_model w options) h)
      as [spec flag].
    simpl. unfold LRUCache.set. reflexivity.
  - rewrite Hparse.
    destruct (refine_or_fall_back w options (trim input)
                (selected_provider w options) (selected_model w options) h)
      as [spec flag].
    reflexivity.
Qed.

(** ** What the cache holds *)


Lemma forall_delete {V : Type} (P : str * V -> Prop) (m : JSMap.t V) k :
  Forall P m -> Forall P (JSMap.delete m k).
Proof.
  induction m as [|[k' v'] m IH]; simpl; intros Hm; [constructor|].
  apply Forall_cons_iff in Hm as [Hv Hm].
  destruct (str_eqb k' k); [exact Hm|]. constructor; auto.
Qed.

Lemma forall_set_value {V : Type} (Q : V -> Prop) (m : JSMap.t V) k v :
  Forall (fun e => Q (snd e)) m -> Q v ->
  Forall (fun e => Q (snd e)) (JSMap.set m k v).
Proof.
  intros Hm Hv. induction m as [|[k' v'] m IH]; simpl.
  - constructor; [exact Hv | constructor].
  - apply Forall_cons_iff in Hm as [Hv' Hm].
    destruct (str_eqb k' k); constructor; auto.
Qed.


End WithDigest.

End PipelineFacts.

(* ================================================================== *)
(** * Properties of the processor *)
(* ================================================================== *)

Module PipelineProperties.

Import Processor PipelineSpec JSMapFacts TrimFacts PipelineFacts.
Import Samples.

Section WithDigest.
Variable sha256_hex : str -> str.

Local Abbreviation process := (Processor.process sha256_hex).
Local Abbreviation cache_key := (PipelineSpec.cache_key sha256_hex).
Local Abbreviation stored := (PipelineSpec.stored sha256_hex).
Local Abbreviation answered_from_cache :=
  (PipelineSpec.answered_from_cache sha256_hex).

Lemma answered_from_cache_cases input options w cache :
  (selected_useCache w options = true
   /\ exists e, JSMap.get (LRUCache.cache cache) (cache_key input options w)
                = Some e)
  \/ answered_from_cache input options w cache = false.
Proof.
  unfold PipelineSpec.answered_from_cache, LRUCache.has_key, JSMap.has.
  destruct (selected_useCache w options); [|right; reflexivity].
  destruct (JSMap.get (LRUCache.cache cache) (cache_key input options w))
    as [e|]; [left; eauto | right; reflexivity].
Qed.


(** C2, as the code has it.  Take a call of [process] that the cache does
    not answer.  If the spec it returns is labelled [heuristic], the
    entries of the cache are what they were: nothing is inserted.  If it is
    labelled [ai] or [wizard] and caching is enabled, the cache afterwards
    holds that spec under the key of the call.  No other label occurs. *)
Theorem fallback_not_cached_refinement_cached
  (input : str) (options : ProcessorOptions.t) (w : World)
  (cache : LRUCache.t) (spec : VibeSpec) :
  20 <= List.length (trim input) ->
  answered_from_cache input options w cache = false ->
  fst (process input options w cache) = inr spec ->
  let cache' := snd (process input options w cache) in
  (label spec = Some heuristic
   /\ LRUCache.cache cache' = LRUCache.cache cache)
  \/ ((label spec = Some ai \/ label spec = Some wizard)
      /\ (selected_useCache w options = true ->
          stored cache' input options w = Some spec)
      /\ (selected_useCache w options = false ->
          LRUCache.cache cache' = LRUCache.cache cache)).
Proof.
  intros Hlen Hmiss Hspec cache'. subst cache'.
  destruct (process_miss sha256_hex input options w cache Hlen Hmiss)
    as (h & _ & Hprocess).
  cbv zeta in Hprocess. rewrite Hprocess in *. clear Hprocess.
  simpl in Hspec. injection Hspec as Hspec.
  pose proof (refine_or_fall_back_label sha256_hex w options (trim input)
                (selected_provider w options) (selected_model w options) h)
    as Hlabel.
  cbv zeta in Hlabel. rewrite Hspec in *.
  destruct Hlabel as [[Hflag Hl]|[Hflag Hl]]; rewrite Hflag; simpl.
  - right. split; [exact Hl|].
    destruct (selected_useCache w options); simpl; split;
      try discriminate; try reflexivity.
    intros _. unfold PipelineSpec.stored, LRUCache.set_key. simpl.
    rewrite get_set_same. reflexivity.
  - left. split; [exact Hl|].
    rewrite andb_false_r.
    destruct (selected_useCache w options); reflexivity.
Qed.

(** A call that follows a call with the same normalized input, provider
    and model, caching enabled in both, is answered from the cache unless
    the first spec came from the heuristic fallback: [process] returns the
    stored object, which is the spec of the first call. *)
Lemma second_call_returns_stored_object
  (input1 input2 : str) (options1 options2 : ProcessorOptions.t)
  (w1 w2 : World) (cache : LRUCache.t) (spec1 : VibeSpec) :
  20 <= List.length (trim input1) ->
  toLowerCase (trim input1) = toLowerCase (trim input2) ->
  selected_provider w1 options1 = selected_provider w2 options2 ->
  selected_model w1 options1 = selected_model w2 options2 ->
  selected_useCache w1 options1 = true ->
  selected_useCache w2 options2 = true ->
  fst (process input1 options1 w1 cache) = inr spec1 ->
  label spec1 <> Some heuristic ->
  let cache1 := snd (process input1 options1 w1 cache) in
  fst (process input2 options2 w2 cache1) = inr spec1
  /\ CacheStats.hits
       (LRUCache.getStats (snd (process input2 options2 w2 cache1)))
     = (CacheStats.hits (LRUCache.getStats cache1) + 1)%Z.
Proof.
  intros Hlen Hnorm Hprov Hmodel Huse1 Huse2 Hspec Hlabel cache1.
  assert (Hlen2 : 20 <= List.length (trim input2)).
  { apply (f_equal (@List.length ascii)) in Hnorm.
    unfold toLowerCase in Hnorm. rewrite !length_map in Hnorm. lia. }
  assert (Hkey : cache_key input2 options2 w2 = cache_key input1 options1 w1).
  { unfold PipelineSpec.cache_key, LRUCache.generateKey.
    rewrite !trim_idempotent, Hnorm, Hprov, Hmodel. reflexivity. }
  assert (Hstored : exists e,
             JSMap.get (LRUCache.cache cache1) (cache_key input1 options1 w1)
             = Some e /\ CacheEntry.value e = spec1).
  { subst cache1.
    destruct (answered_from_cache_cases input1 options1 w1 cache)
      as [[_ [e Hget]]|Hmiss].
    - rewrite (process_hit sha256_hex input1 options1 w1 cache e Hlen Huse1
                 Hget) in *.
      simpl in Hspec. injection Hspec as Hspec.
      exists e. split; [|exact Hspec].
      unfold LRUCache.get_key. rewrite Hget. simpl. apply get_set_same.
    - destruct (process_miss sha256_hex input1 options1 w1 cache Hlen Hmiss)
        as (h & _ & Hprocess).
      cbv zeta in Hprocess. rewrite Hprocess in *. clear Hprocess.
      simpl in Hspec. injection Hspec as Hspec.
      pose proof (refine_or_fall_back_label sha256_hex w1 options1
                    (trim input1) (selected_provider w1 options1)
                    (selected_model w1 options1) h) as Hl.
      cbv zeta in Hl. rewrite Hspec in *.
      destruct Hl as [[Hflag _]|[_ Hl]]; [|congruence].
      rewrite Huse1, Hflag. simpl.
      eexists. split; [apply get_set_same | reflexivity]. }
  destruct Hstored as (e & Hget & Hvalue).
  rewrite <- Hkey in Hget.
  rewrite (process_hit sha256_hex input2 options2 w2 cache1 e Hlen2 Huse2
             Hget).
  simpl. split; [rewrite Hvalue; reflexivity|].
  unfold LRUCache.get_key. rewrite Hget. reflexivity.
Qed.

(** C3, for a first call that was not answered by the heuristic fallback.
    Two calls with the same normalized input, provider and model, caching
    enabled in both.  If the spec the first call returns is not labelled
    [heuristic], the second call is answered from the cache, whatever the
    provider or the user would do: it returns a spec with the content and
    the refinement method of the first (so [ai] after a successful AI
    refinement), and the cache counts one more hit. *)
Theorem second_call_answered_from_cache
  (input1 input2 : str) (options1 options2 : ProcessorOptions.t)
  (w1 w2 : World) (cache : LRUCache.t) (spec1 : VibeSpec) :
  20 <= List.length (trim input1) ->
  toLowerCase (trim input1) = toLowerCase (trim input2) ->
  selected_provider w1 options1 = selected_provider w2 options2 ->
  selected_model w1 options1 = selected_model w2 options2 ->
  selected_useCache w1 options1 = true ->
  selected_useCache w2 options2 = true ->
  fst (process input1 options1 w1 cache) = inr spec1 ->
  label spec1 <> Some heuristic ->
  let cache1 := snd (process input1 options1 w1 cache) in
  exists spec2,
    fst (process input2 options2 w2 cache1) = inr spec2
    /\ content spec2 = content spec1
    /\ label spec2 = label spec1
    /\ CacheStats.hits
         (LRUCache.getStats (snd (process input2 options2 w2 cache1)))
       = (CacheStats.hits (LRUCache.getStats cache1) + 1)%Z.
Proof.
  intros Hlen Hnorm Hprov Hmodel Huse1 Huse2 Hspec Hlabel cache1.
  destruct (second_call_returns_stored_object input1 input2 options1 options2
              w1 w2 cache spec1 Hlen Hnorm Hprov Hmodel Huse1 Huse2 Hspec
              Hlabel) as [Hsame Hhits].
  exists spec1. auto.
Qed.

End WithDigest.




(** On an input without a sentence, with the provider unreachable and no
    terminal, the spec of the heuristic fallback has no requirement at
    all. *)
Lemma process_may_return_no_requirements :
  exists spec,
    fst (Processor.process sample_digest HeuristicSamples.only_punctuation
           no_options offline LRUCache.getCache_initial) = inr spec
    /\ 20 <= List.length HeuristicSamples.only_punctuation
    /\ requirements spec = JArray []
    /\ label spec = Some heuristic.
Proof.
  eexists. split; [vm_compute; reflexivity|].
  split; [vm_compute; lia|]. split; reflexivity.
Qed.

(** The provider refines the input: the spec is in the cache afterwards. *)
Lemma fallback_not_cached_refinement_cached_witness :
  exists spec,
    fst (Processor.process sample_digest todo_input no_options online
           LRUCache.getCache_initial) = inr spec
    /\ ((label spec = Some heuristic
         /\ LRUCache.cache
              (snd (Processor.process sample_digest todo_input no_options
                      online LRUCache.getCache_initial))
            = LRUCache.cache LRUCache.getCache_initial)
        \/ ((label spec = Some ai \/ label spec = Some wizard)
            /\ (selected_useCache online no_options = true ->
                PipelineSpec.stored sample_digest
                  (snd (Processor.process sample_digest todo_input no_options
                          online LRUCache.getCache_initial))
                  todo_input no_options online = Some spec)
            /\ (selected_useCache online no_options = false ->
                LRUCache.cache
                  (snd (Processor.process sample_digest todo_input no_options
                          online LRUCache.getCache_initial))
                = LRUCache.cache LRUCache.getCache_initial))).
Proof.
  eexists. split; [vm_compute; reflexivity|].
  apply (fallback_not_cached_refinement_cached sample_digest todo_input
           no_options online LRUCache.getCache_initial).
  - vm_compute. lia.
  - reflexivity.
  - vm_compute. reflexivity.
Defined.

(** C2 as stated fails when the wizard is accepted: its spec is put into
    the cache like one the provider refined. *)
Lemma wizard_spec_is_cached :
  exists spec,
    fst (Processor.process sample_digest todo_input no_options at_terminal
           LRUCache.getCache_initial) = inr spec
    /\ label spec = Some wizard
    /\ PipelineSpec.stored sample_digest
         (snd (Processor.process sample_digest todo_input no_options
                 at_terminal LRUCache.getCache_initial))
         todo_input no_options at_terminal = Some spec.
Proof.
  eexists. split; [vm_compute; reflexivity|].
  split; vm_compute; reflexivity.
Qed.

(** The provider refines the first call; the second call, with the
    provider unreachable, is answered from the cache. *)
Lemma second_call_answered_from_cache_witness :
  exists spec2,
    fst (Processor.process sample_digest todo_input no_options offline
           (snd (Processor.process sample_digest todo_input no_options
                   online LRUCache.getCache_initial)))
    = inr spec2
    /\ content spec2 = content refined_spec
    /\ label spec2 = label refined_spec
    /\ CacheStats.hits
         (LRUCache.getStats
            (snd (Processor.process sample_digest todo_input no_options
                    offline
                    (snd (Processor.process sample_digest todo_input
                            no_options online LRUCache.getCache_initial)))))
       = (CacheStats.hits
            (LRUCache.getStats
               (snd (Processor.process sample_digest todo_input no_options
                       online LRUCache.getCache_initial))) + 1)%Z.
Proof.
  apply (second_call_answered_from_cache sample_digest todo_input todo_input
           no_options no_options online offline LRUCache.getCache_initial
           refined_spec).
  - vm_compute. lia.
  - reflexivity.
  - reflexivity.
  - reflexivity.
  - reflexivity.
  - reflexivity.
  - vm_compute. reflexivity.
  - vm_compute. discriminate.
Defined.

(** C3 as stated fails when the first call fell back to the heuristic
    draft.  With the provider unreachable and no terminal in both calls
    the second call is not answered from the cache: it runs the fallback
    again, its spec is labelled [heuristic] and the cache counts no hit. *)
Lemma second_call_after_fallback_misses :
  exists spec2,
    fst (Processor.process sample_digest todo_input no_options offline
           (snd (Processor.process sample_digest todo_input no_options
                   offline LRUCache.getCache_initial))) = inr spec2
    /\ label spec2 = Some heuristic
    /\ reports_cache_hit spec2 = Some false
    /\ CacheStats.hits
         (LRUCache.getStats
            (snd (Processor.process sample_digest todo_input no_options
                    offline
                    (snd (Processor.process sample_digest todo_input
                            no_options offline LRUCache.getCache_initial)))))
       = 0%Z
    /\ CacheStats.misses
         (LRUCache.getStats
            (snd (Processor.process sample_digest todo_input no_options
                    offline
                    (snd (Processor.process sample_digest todo_input
                            no_options offline LRUCache.getCache_initial)))))
       = 2%Z.
Proof.
  eexists. split; [vm_compute; reflexivity|]. repeat split; reflexivity.
Qed.

(** The spec a cache hit returns is the stored object, so its metadata is
    that of the call which produced it: the cache-hit flag of the second
    call's spec is still [false]. *)
Lemma cache_hit_flag_not_updated :
  exists spec2,
    fst (Processor.process sample_digest todo_input no_options online
           (snd (Processor.process sample_digest todo_input no_options
                   online LRUCache.getCache_initial))) = inr spec2
    /\ label spec2 = Some ai
    /\ reports_cache_hit spec2 = Some false.
Proof.
  eexists. split; [vm_compute; reflexivity|]. split; reflexivity.
Qed.

End PipelineProperties.

(* ================================================================== *)
(** * The model on concrete inputs *)
(* ================================================================== *)

Module Examples.

Import HeuristicParser OpenRouterAdapter RepairSpec PipelineSpec Samples.

(** [" a  b ".split(/\s+/)] is [["", "a", "b", ""]]. *)
Example split_keeps_empty_ends :
  split_runs is_space (lit " a  b ") = [[]; lit "a"; lit "b"; []].
Proof. reflexivity. Qed.

Example sentences_of_text :
  splitIntoSentences (lit "Add a form. Show it!  Done?")
  = lits ["Add a form"; "Show it"; "Done"]%string.
Proof. reflexivity. Qed.

(** "build" contains "ui" and "app" is a mobile keyword: one point each,
    and [frontend] is declared first. *)
Example detectDomain_tie :
  detectDomain todo_input = Some frontend
  /\ DomainSpec.domain_score todo_input frontend = 1%Z
  /\ DomainSpec.domain_score todo_input mobile = 1%Z.
Proof. vm_compute. repeat split. Qed.

(** Three occurrences of one keyword count once. *)
Example detectDomain_counts_keywords_once :
  detectDomain (lit "api api api on a page with a button") = Some frontend.
Proof. vm_compute. reflexivity. Qed.

Example detectDomain_undefined :
  detectDomain (lit "nothing to see here at all") = None.
Proof. vm_compute. reflexivity. Qed.

(** Capitalised words first, then the names with a component suffix; a
    name followed by a digit is no capitalised word but its suffixed part
    is found. *)
Example extractComponents_order :
  extractComponents
    (lit "Create a UserForm and LoginModal. Users see OrderTable2 and AbC aForm.")
  = lits ["Create"; "UserForm"; "LoginModal"; "Users"; "OrderTable";
          "aForm"]%string.
Proof. vm_compute. reflexivity. Qed.

Example requirements_need_a_verb :
  extractRequirements
    (lits ["Create a UserForm for the page"; "The API is fast"]%string)
  = lits ["Create a UserForm for the page"]%string
  /\ extractRequirements (lits ["the API is fast"]%string)
     = lits ["The API is fast"]%string.
Proof. vm_compute. split; reflexivity. Qed.

(** Scenario B of the specification: a payload cut inside the array. *)
Example repair_truncated_array :
  repairIncompleteJson
    (dq "{'title': 'X', 'domain': 'backend', 'description': 'Y', 'requirements': ['a'")
  = dq "{'title': 'X', 'domain': 'backend', 'description': 'Y', 'requirements': ['a']}".
Proof. vm_compute. reflexivity. Qed.

Example repair_closes_string_first :
  repairIncompleteJson (dq "{'a': ['b") = dq "{'a': ['b']}".
Proof. vm_compute. reflexivity. Qed.

(** A key-value pair is a match of the pattern of [fixUnescapedQuotes];
    its value ends at the first quote. *)
Example key_value_match :
  key_value_at (dq "'description': 'This is a 'quoted' word'")
  = Some (27, (lit "description", lit "This is a ")).
Proof. vm_compute. reflexivity. Qed.

Example validate_lists_missing_fields :
  validate (ParsedPayload.mk JUndefined (JString (lit "backend"))
              (JString []) (JArray [])
              JUndefined JUndefined JUndefined JUndefined)
  = inl (MissingRequiredFields (lits ["title"; "description"]%string)).
Proof. reflexivity. Qed.

(** The validation tests presence, not type: zero, [null] and [false] are
    missing, a number, [true], an empty array and an empty object are
    not. *)
Example validate_tests_truthiness :
  validate (ParsedPayload.mk (JNumber 0) JNull (JBool false) (JString [])
              JUndefined JUndefined JUndefined JUndefined)
  = inl (MissingRequiredFields
           (lits ["title"; "domain"; "description"; "requirements"]%string))
  /\ validate untyped_payload = inr (as_VibeSpec untyped_payload)
  /\ missingFields
       (ParsedPayload.mk (JNumber 7) (JBool true) (JObject []) (JArray [])
          JUndefined JUndefined JUndefined JUndefined)
     = [].
Proof. repeat split. Qed.

(** Scenario A of the specification: no provider, no terminal. *)
Example heuristic_fallback_scenario :
  exists spec,
    fst (Processor.process sample_digest todo_input no_options offline
           LRUCache.getCache_initial) = inr spec
    /\ label spec = Some heuristic
    /\ exists r rest, requirements spec = JArray (JString r :: rest).
Proof.
  eexists. split; [vm_compute; reflexivity|]. split; [reflexivity|].
  eexists _, _. reflexivity.
Qed.

Example short_input_rejected :
  fst (Processor.process sample_digest (lit "   too short   ") no_options
         online LRUCache.getCache_initial) = inl InputTooShort.
Proof. reflexivity. Qed.

End Examples.

(* ================================================================== *)
(** * Further properties of the result cache *)
(* ================================================================== *)

Module CacheExtras.

Import JSMapFacts LRUCacheFacts CacheTrace CacheTraceFacts ExtraSpec Samples.

Lemma nodup_set {V : Type} (m : JSMap.t V) k v :
  NoDup (JSMap.keys m) -> NoDup (JSMap.keys (JSMap.set m k v)).
Proof.
  intros Hnd. destruct (in_dec str_dec k (JSMap.keys m)) as [Hin|Hout].
  - rewrite keys_set_present by exact Hin. exact Hnd.
  - rewrite keys_set_absent by exact Hout.
    apply NoDup_app; [exact Hnd | repeat constructor; simpl; tauto |].
    intros x Hx [Hk|[]]. subst x. contradiction.
Qed.

Lemma length_set_absent {V : Type} (m : JSMap.t V) k v :
  ~ In k (JSMap.keys m) ->
  List.length (JSMap.set m k v) = S (List.length m).
Proof.
  intros Hout. rewrite <- !length_keys, keys_set_absent by exact Hout.
  rewrite length_app. simpl. lia.
Qed.

Lemma consistent_get_key c k :
  consistent c -> consistent (snd (LRUCache.get_key c k)).
Proof.
  unfold consistent, stored_keys, LRUCache.size, JSMap.size.
  intros [Hnd Hsize]. unfold LRUCache.get_key.
  destruct (JSMap.get (LRUCache.cache c) k) as [e|] eqn:G; simpl;
    [|split; assumption].
  assert (Hin : In k (JSMap.keys (LRUCache.cache c))).
  { apply get_in. congruence. }
  pose proof (delete_removes _ k Hnd) as Hout.
  split.
  - apply nodup_set, nodup_delete, Hnd.
  - rewrite Hsize, (length_set_absent _ k e Hout).
    rewrite (length_delete _ _ Hin). reflexivity.
Qed.

Lemma nodup_set_key c k v now :
  NoDup (stored_keys c) -> NoDup (stored_keys (LRUCache.set_key c k v now)).
Proof.
  unfold stored_keys. intros Hnd. unfold LRUCache.set_key. simpl.
  apply nodup_set. unfold LRUCache.evict_oldest.
  set (c1 := if JSMap.has (LRUCache.cache c) k then _ else c).
  assert (H1 : NoDup (JSMap.keys (LRUCache.cache c1))).
  { subst c1. destruct (JSMap.has _ k); simpl;
      [apply nodup_delete|]; exact Hnd. }
  destruct (_ >=? _)%Z; [|exact H1].
  destruct (JSMap.first_key (LRUCache.cache c1)) as [[|ch rest]|];
    try exact H1.
  simpl. apply nodup_delete, H1.
Qed.

Section WithDigest.
Variable sha256_hex : str -> str.

Local Abbreviation run := (CacheTrace.run sha256_hex).
Local Abbreviation step := (CacheTrace.step sha256_hex).
Local Abbreviation get := (LRUCache.get sha256_hex).
Local Abbreviation set := (LRUCache.set sha256_hex).
Local Abbreviation has := (LRUCache.has sha256_hex).
Local Abbreviation generateKey := (LRUCache.generateKey sha256_hex).

Lemma consistent_step c o : consistent c -> consistent (step c o).
Proof.
  intros Hc. destruct o; unfold CacheTrace.step, LRUCache.get, LRUCache.set.
  - apply consistent_get_key, Hc.
  - destruct Hc as [Hnd _]. split; [apply nodup_set_key, Hnd|].
    reflexivity.
  - split; [constructor | reflexivity].
Qed.

Lemma consistent_run ops c : consistent c -> consistent (run ops c).
Proof.
  revert c. induction ops as [|o ops IH]; intros c Hc; [exact Hc|].
  change (run (o :: ops) c) with (run ops (step c o)).
  apply IH, consistent_step, Hc.
Qed.

(** X1: whatever the cache holds and whatever its capacity, a value that
    was just [set] is what [get] returns for the same input, provider and
    model, and [has] is true. *)
Theorem set_then_get (c : LRUCache.t) (input : str) (provider : AIProvider)
  (model : str) (value : VibeSpec) (now : Z) :
  fst (get (set c input provider model value now) input provider model)
  = Some value
  /\ has (set c input provider model value now) input provider model = true.
Proof.
  unfold LRUCache.get, LRUCache.set, LRUCache.has, LRUCache.has_key,
    JSMap.has, LRUCache.get_key, LRUCache.set_key.
  simpl. rewrite get_set_same. split; reflexivity.
Qed.

(** X2: after any sequence of operations on a new cache, of any capacity,
    no key is stored twice and the [size] field of [getStats] is the
    number of entries [size()] returns. *)
Theorem stats_size_is_size (maxSize : Z) (ops : list op) :
  let c := run ops (LRUCache.new maxSize) in
  NoDup (stored_keys c)
  /\ CacheStats.size (LRUCache.getStats c) = LRUCache.size c.
Proof.
  apply consistent_run. split; [constructor | reflexivity].
Qed.

(** X3: [get] never changes what the cache holds: after it every key has
    the entry it had before (only the order of the entries and the
    counters change). *)
Theorem get_keeps_entries (c : LRUCache.t) (input : str)
  (provider : AIProvider) (model : str) (x : str) :
  JSMap.get (LRUCache.cache (snd (get c input provider model))) x
  = JSMap.get (LRUCache.cache c) x.
Proof.
  unfold LRUCache.get, LRUCache.get_key.
  set (k := generateKey input provider model).
  destruct (JSMap.get (LRUCache.cache c) k) as [e|] eqn:G; [|reflexivity].
  simpl. destruct (str_dec x k) as [->|Hx].
  - rewrite get_set_same. symmetry. exact G.
  - rewrite get_set_other, get_delete_other by exact Hx. reflexivity.
Qed.

Lemma counters_step c o :
  (CacheStats.hits (LRUCache.stats (step c o))
   + CacheStats.misses (LRUCache.stats (step c o)))%Z
  = count_get
      (CacheStats.hits (LRUCache.stats c)
       + CacheStats.misses (LRUCache.stats c))%Z o.
Proof.
  destruct o; unfold CacheTrace.step, LRUCache.get, LRUCache.set; simpl.
  - unfold LRUCache.get_key.
    destruct (JSMap.get (LRUCache.cache c) _); simpl; lia.
  - unfold LRUCache.evict_oldest.
    set (c1 := if JSMap.has (LRUCache.cache c) _ then _ else c).
    assert (H1 : LRUCache.stats c1 = LRUCache.stats c).
    { subst c1. destruct (JSMap.has _ _); reflexivity. }
    destruct (_ >=? _)%Z; [|rewrite H1; reflexivity].
    destruct (JSMap.first_key (LRUCache.cache c1)) as [[|ch rest]|];
      simpl; rewrite H1; reflexivity.
  - reflexivity.
Qed.

Lemma counters_run ops c :
  (CacheStats.hits (LRUCache.stats (run ops c))
   + CacheStats.misses (LRUCache.stats (run ops c)))%Z
  = fold_left count_get ops
      (CacheStats.hits (LRUCache.stats c)
       + CacheStats.misses (LRUCache.stats c))%Z.
Proof.
  revert c. induction ops as [|o ops IH]; intros c; [reflexivity|].
  change (run (o :: ops) c) with (run ops (step c o)).
  rewrite IH, counters_step. reflexivity.
Qed.

(** X4: every [get] is counted once, as a hit or as a miss: after any
    sequence of operations on a new cache, hits plus misses is the number
    of [get] calls since the last [clear]. *)
Theorem hits_plus_misses (maxSize : Z) (ops : list op) :
  let s := LRUCache.getStats (run ops (LRUCache.new maxSize)) in
  (CacheStats.hits s + CacheStats.misses s)%Z = gets_since_clear ops.
Proof.
  cbv zeta. unfold LRUCache.getStats. rewrite counters_run. reflexivity.
Qed.

Hypothesis digest_nonempty : forall data, sha256_hex data <> [].

(** X5: in a cache of capacity at least 1, [set] for an input that is
    already stored replaces its value and evicts nothing: the number of
    entries and the eviction counter stay, every other key keeps its
    entry, and the input becomes the most recently used. *)
Theorem set_existing_replaces (maxSize : Z) (ops : list op)
  (input : str) (provider : AIProvider) (model : str)
  (value : VibeSpec) (now : Z) :
  (1 <= maxSize)%Z ->
  let c := run ops (LRUCache.new maxSize) in
  has c input provider model = true ->
  let c' := set c input provider model value now in
  LRUCache.size c' = LRUCache.size c
  /\ CacheStats.evictions (LRUCache.getStats c')
     = CacheStats.evictions (LRUCache.getStats c)
  /\ fst (get c' input provider model) = Some value
  /\ (forall x, x <> generateKey input provider model ->
      JSMap.get (LRUCache.cache c') x = JSMap.get (LRUCache.cache c) x)
  /\ last (stored_keys c') [] = generateKey input provider model.
Proof.
  intros Hpos c Hhas c'.
  set (k := generateKey input provider model).
  assert (Hcons : consistent c).
  { apply consistent_run. split; [constructor | reflexivity]. }
  destruct Hcons as [Hnd _].
  assert (Hb : bounded c).
  { apply bounded_run; [exact digest_nonempty | exact Hpos |].
    split; [unfold LRUCache.size, JSMap.size; simpl; lia | constructor]. }
  destruct Hb as [Hsize _].
  assert (Hmax : LRUCache.maxSize c = maxSize) by apply maxSize_run.
  assert (Hin : In k (stored_keys c)).
  { apply has_in. exact Hhas. }
  pose proof (length_delete _ _ Hin) as Hdel.
  assert (Hroom : (Z.of_nat (List.length (JSMap.delete (LRUCache.cache c) k))
                   < LRUCache.maxSize c)%Z).
  { unfold LRUCache.size, JSMap.size in Hsize. lia. }
  destruct (set_key_room c k value now Hnd Hroom) as [Hkeys Hev].
  assert (Hc' : c' = LRUCache.set_key c k value now) by reflexivity.
  clearbody c'. subst c'.
  repeat split.
  - unfold LRUCache.size, JSMap.size. rewrite <- !length_keys.
    unfold stored_keys in Hkeys. rewrite Hkeys.
    rewrite length_app, !length_keys. simpl. lia.
  - exact Hev.
  - unfold LRUCache.get, LRUCache.get_key, LRUCache.set_key. fold k.
    simpl. rewrite get_set_same. reflexivity.
  - intros x Hx. unfold LRUCache.set_key.
    simpl. rewrite get_set_other by exact Hx.
    unfold JSMap.has in Hhas. unfold LRUCache.has, LRUCache.has_key in Hhas.
    fold k in Hhas. rewrite Hhas.
    unfold LRUCache.evict_oldest, JSMap.size. simpl.
    destruct (_ >=? _)%Z eqn:Hge; [lia|]. simpl.
    apply get_delete_other. exact Hx.
  - rewrite Hkeys. apply last_last.
Qed.

End WithDigest.

Lemma set_existing_replaces_witness :
  let ops :=
    [ OpSet (lit "first input") openai (lit "m") sample_spec 1;
      OpSet (lit "second input") openai (lit "m") sample_spec 2 ] in
  let c := CacheTrace.run sample_digest ops (LRUCache.new 2) in
  let c' :=
    LRUCache.set sample_digest c (lit "first input") openai (lit "m")
      sample_spec 3 in
  LRUCache.size c' = LRUCache.size c
  /\ CacheStats.evictions (LRUCache.getStats c')
     = CacheStats.evictions (LRUCache.getStats c)
  /\ fst (LRUCache.get sample_digest c' (lit "first input") openai (lit "m"))
     = Some sample_spec
  /\ (forall x,
        x <> LRUCache.generateKey sample_digest (lit "first input") openai
               (lit "m") ->
        JSMap.get (LRUCache.cache c') x = JSMap.get (LRUCache.cache c) x)
  /\ last (stored_keys c') []
     = LRUCache.generateKey sample_digest (lit "first input") openai
         (lit "m").
Proof.
  intros ops c c'.
  apply (set_existing_replaces sample_digest
           CacheProperties.sample_digest_nonempty 2 ops
           (lit "first input") openai (lit "m") sample_spec 3).
  - lia.
  - reflexivity.
Defined.

End CacheExtras.

(* ================================================================== *)
(** * Further properties of the heuristic parser *)
(* ================================================================== *)

Module SplitFacts.

Import StringFacts TrimFacts.

Lemma dropWhile_in (p : ascii -> bool) (s : str) c :
  In c (dropWhile p s) -> In c s.
Proof.
  induction s as [|a s IH]; simpl; [tauto|].
  destruct (p a); [right; auto | simpl; tauto].
Qed.

Lemma trim_in (s : str) c : In c (trim s) -> In c s.
Proof.
  unfold trim, trimEnd, trimStart. intros H.
  apply in_rev, dropWhile_in, in_rev, dropWhile_in in H. exact H.
Qed.

(** No piece of [split] holds a separator. *)
Lemma split_go_pieces (sep : ascii -> bool) (s cur : str) (inrun : bool) :
  Forall (fun c => sep c = false) cur ->
  Forall (Forall (fun c => sep c = false)) (split_go sep s cur inrun).
Proof.
  revert cur inrun. induction s as [|c s IH]; intros cur inrun Hcur; simpl.
  - constructor; [|constructor]. apply Forall_rev, Hcur.
  - destruct (sep c) eqn:E.
    + destruct inrun.
      * apply IH. constructor.
      * constructor; [apply Forall_rev, Hcur | apply IH; constructor].
    + apply IH. constructor; assumption.
Qed.

Lemma split_runs_pieces (sep : ascii -> bool) (s : str) :
  Forall (Forall (fun c => sep c = false)) (split_runs sep s).
Proof. apply split_go_pieces. constructor. Qed.

End SplitFacts.

Module ParserExtras.

Import HeuristicParser StringFacts TrimFacts SplitFacts SetFacts ExtraSpec.

Lemma nonempty_true (s : str) : nonempty s = true <-> s <> [].
Proof. destruct s; simpl; split; congruence. Qed.

(** X6: every sentence [splitIntoSentences] returns is non-empty, has no
    white space at its ends and contains none of the terminators
    [. ! ?]. *)
Theorem sentences_well_formed (text : str) :
  Forall
    (fun s => s <> [] /\ trim s = s
              /\ Forall (fun c => is_terminator c = false) s)
    (splitIntoSentences text).
Proof.
  unfold splitIntoSentences. apply Forall_forall. intros s Hs.
  apply filter_In in Hs as [Hs Hne]. apply in_map_iff in Hs as [p [<- Hp]].
  split; [apply nonempty_true, Hne|]. split; [apply trim_idempotent|].
  pose proof (split_runs_pieces is_terminator text) as Hpieces.
  rewrite Forall_forall in Hpieces. specialize (Hpieces p Hp).
  rewrite Forall_forall in *. intros c Hc. apply Hpieces, trim_in, Hc.
Qed.

Lemma is_lower_toUpperChar (c : ascii) : is_lower (toUpperChar c) = false.
Proof.
  destruct c as [b0 b1 b2 b3 b4 b5 b6 b7].
  destruct b0, b1, b2, b3, b4, b5, b6, b7; reflexivity.
Qed.

Lemma capitalizeFirst_starts (s : str) :
  s <> [] -> starts_capitalized (capitalizeFirst s).
Proof.
  destruct s as [|c s]; [congruence|]. intros _. apply is_lower_toUpperChar.
Qed.

Lemma extractTitle_starts (sentences : list str) :
  Forall (fun s => s <> []) sentences ->
  starts_capitalized (extractTitle sentences).
Proof.
  intros Hne. unfold extractTitle.
  destruct sentences as [|first rest]; [reflexivity|].
  apply Forall_inv in Hne.
  destruct (List.length first <=? 60).
  - apply capitalizeFirst_starts, Hne.
  - destruct (join (lit " ") (firstn 8 (split_runs is_space first)))
      as [|c s]; [reflexivity|].
    apply is_lower_toUpperChar.
Qed.

Lemma generateDescription_length (sentences : list str) :
  List.length (generateDescription sentences) <= 500.
Proof.
  unfold generateDescription.
  destruct sentences as [|s ss]; [apply Nat.le_0_l|].
  destruct (List.length _ <=? 500) eqn:E.
  - apply Nat.leb_le in E. exact E.
  - unfold substring0. rewrite length_app, length_firstn.
    change (List.length (lit "...")) with 3. lia.
Qed.

Lemma sentences_nonempty (text : str) :
  Forall (fun s => s <> []) (splitIntoSentences text).
Proof.
  unfold splitIntoSentences. apply Forall_forall. intros s Hs.
  apply filter_In in Hs as [_ Hne]. apply nonempty_true, Hne.
Qed.

(** X7: for every input [parse] accepts, the title is present, not empty
    and does not start with a lower-case letter, and the description is
    present and at most 500 characters long. *)
Theorem parse_title_and_description (input : str) (h : HeuristicOutput.t) :
  parse input = inr h ->
  (exists t, HeuristicOutput.title h = Some t /\ starts_capitalized t)
  /\ (exists d, HeuristicOutput.description h = Some d
                /\ List.length d <= 500).
Proof.
  unfold parse. destruct (List.length (trim input) <? 20); [discriminate|].
  intros Hparse. injection Hparse as <-. simpl. split.
  - eexists. split; [reflexivity|].
    apply extractTitle_starts, sentences_nonempty.
  - eexists. split; [reflexivity|]. apply generateDescription_length.
Qed.

Lemma extractRequirements_facts (sentences : list str) :
  (extractRequirements sentences = [] <-> sentences = [])
  /\ List.length (extractRequirements sentences) <= List.length sentences
  /\ Forall (fun r => exists s, In s sentences /\ r = capitalizeFirst s)
       (extractRequirements sentences).
Proof.
  unfold extractRequirements.
  set (P := fun sentence : str =>
              hasActionVerb sentence && (10 <=? List.length sentence)).
  destruct (map capitalizeFirst (filter P sentences)) as [|r rs] eqn:E.
  - split; [|split].
    + split; [intros H; apply map_eq_nil in H; exact H | intros ->; reflexivity].
    + rewrite length_map. lia.
    + apply Forall_forall. intros r Hr. apply in_map_iff in Hr as [s [<- Hs]].
      eauto.
  - split; [|split].
    + split; [discriminate|]. intros ->. discriminate.
    + rewrite <- E, length_map. apply filter_length_le.
    + rewrite <- E. apply Forall_forall. intros x Hx.
      apply in_map_iff in Hx as [s [<- Hs]]. apply filter_In in Hs as [Hs _].
      eauto.
Qed.

(** X8: for every input [parse] accepts, the requirements are empty
    exactly when the input has no sentence; there are never more
    requirements than sentences, and each one is a sentence of the input
    with its first letter capitalised. *)
Theorem parse_requirements (input : str) (h : HeuristicOutput.t) :
  parse input = inr h ->
  let sentences := splitIntoSentences (trim input) in
  (HeuristicOutput.requirements h = [] <-> sentences = [])
  /\ List.length (HeuristicOutput.requirements h) <= List.length sentences
  /\ Forall (fun r => exists s, In s sentences /\ r = capitalizeFirst s)
       (HeuristicOutput.requirements h).
Proof.
  unfold parse. destruct (List.length (trim input) <? 20); [discriminate|].
  intros Hparse. injection Hparse as <-. simpl.
  apply extractRequirements_facts.
Qed.


Lemma set_add_in (x y : str) (s : list str) :
  In y (JSArray.set_add x s) -> y = x \/ In y s.
Proof.
  unfold JSArray.set_add. destruct (existsb (str_eqb x) s); [auto|].
  rewrite in_app_iff. simpl. intuition.
Qed.



Lemma parse_title_and_description_witness :
  exists h,
    parse PipelineSpec.todo_input = inr h
    /\ (exists t, HeuristicOutput.title h = Some t /\ starts_capitalized t)
    /\ (exists d, HeuristicOutput.description h = Some d
                  /\ List.length d <= 500).
Proof.
  eexists. split; [vm_compute; reflexivity|].
  apply (parse_title_and_description PipelineSpec.todo_input).
  vm_compute. reflexivity.
Defined.

Lemma parse_requirements_witness :
  exists h,
    parse PipelineSpec.todo_input = inr h
    /\ let sentences := splitIntoSentences (trim PipelineSpec.todo_input) in
       (HeuristicOutput.requirements h = [] <-> sentences = [])
       /\ List.length (HeuristicOutput.requirements h)
          <= List.length sentences
       /\ Forall (fun r => exists s, In s sentences /\ r = capitalizeFirst s)
            (HeuristicOutput.requirements h).
Proof.
  eexists. split; [vm_compute; reflexivity|].
  apply (parse_requirements PipelineSpec.todo_input).
  vm_compute. reflexivity.
Defined.


End ParserExtras.

Module MatchFacts.

Lemma startsWith_firstn (n : nat) (s : str) : startsWith (firstn n s) s = true.
Proof.
  revert s. induction n as [|n IH]; intros s; [reflexivity|].
  destruct s as [|c s]; [reflexivity|].
  simpl. rewrite IH, Ascii.eqb_refl. reflexivity.
Qed.

Lemma includes_prefix (n : nat) (s : str) : includes s (firstn n s) = true.
Proof.
  destruct s as [|c s]; simpl.
  - rewrite firstn_nil. reflexivity.
  - change (startsWith (firstn n (c :: s)) (c :: s) || includes s (firstn n (c :: s)) = true).
    rewrite startsWith_firstn. reflexivity.
Qed.

Lemma includes_tail (c : ascii) (s m : str) :
  includes s m = true -> includes (c :: s) m = true.
Proof.
  intros H. change (startsWith m (c :: s) || includes s m = true).
  rewrite H. apply orb_true_r.
Qed.

Section Scan.
Variable match_at : option ascii -> str -> option nat.
Hypothesis match_nonempty :
  forall before s len, match_at before s = Some len -> 1 <= len.

(** Every match of a scan is a non-empty part of the text. *)
Lemma scan_substrings (before : option ascii) (s : str) (skip : nat) :
  Forall (fun m => m <> [] /\ includes s m = true)
    (Regex.scan match_at before s skip).
Proof.
  revert before skip. induction s as [|c s IH]; intros before skip; simpl;
    [constructor|].
  assert (Hrest : forall b k,
            Forall (fun m => m <> [] /\ includes (c :: s) m = true)
              (Regex.scan match_at b s k)).
  { intros b k. eapply Forall_impl; [|apply IH].
    intros m [Hne Hinc]. split; [exact Hne | apply includes_tail, Hinc]. }
  destruct skip as [|k]; [|apply Hrest].
  destruct (match_at before (c :: s)) as [len|] eqn:Hm; [|apply Hrest].
  constructor; [|apply Hrest].
  apply match_nonempty in Hm. split.
  - destruct len; [lia | discriminate].
  - rewrite startsWith_firstn. reflexivity.
Qed.

End Scan.

Lemma camel_go_length st s n len :
  Regex.camel_go st s n = Some len -> n <= len.
Proof.
  revert st n. induction s as [|c s IH]; intros st n; simpl.
  - destruct st; [discriminate|]. intros H. injection H as <-. lia.
  - destruct st.
    + destruct (is_lower c); [|discriminate]. intros H. apply IH in H. lia.
    + destruct (is_lower c); [intros H; apply IH in H; lia|].
      destruct (is_upper c); [intros H; apply IH in H; lia|].
      destruct (is_word c); [discriminate|].
      intros H. injection H as <-. lia.
Qed.

Lemma capitalized_at_nonempty before s len :
  Regex.capitalized_at before s = Some len -> 1 <= len.
Proof.
  unfold Regex.capitalized_at. destruct s as [|c s]; [discriminate|].
  destruct (_ && _); [|discriminate]. apply camel_go_length.
Qed.

Lemma suffixed_at_nonempty before s len :
  Regex.suffixed_at before s = Some len -> 1 <= len.
Proof.
  unfold Regex.suffixed_at. destruct s as [|c s]; simpl; [discriminate|].
  destruct (is_word c); [|discriminate].
  repeat match goal with
         | |- context [match ?x with _ => _ end] => destruct x
         end;
    try discriminate; intros H; injection H as <-; lia.
Qed.

Lemma set_add_all_in (xs s : list str) y :
  In y (JSArray.set_add_all xs s) -> In y xs \/ In y s.
Proof.
  unfold JSArray.set_add_all. revert s.
  induction xs as [|x xs IH]; intros s; simpl; [auto|].
  intros H. apply IH in H as [H|H]; [auto|].
  apply ParserExtras.set_add_in in H as [->|H]; auto.
Qed.

Lemma firstn_in {A : Type} (n : nat) (l : list A) x :
  In x (firstn n l) -> In x l.
Proof.
  intros H. rewrite <- (firstn_skipn n l). apply in_or_app. left. exact H.
Qed.

End MatchFacts.

Module ParserExtras2.

Import HeuristicParser MatchFacts ExtraSpec.

Lemma extractComponents_substrings (text : str) :
  Forall (fun comp => comp <> [] /\ includes text comp = true)
    (extractComponents text).
Proof.
  unfold extractComponents. apply Forall_forall. intros comp Hin.
  apply firstn_in, set_add_all_in in Hin.
  pose proof (scan_substrings Regex.capitalized_at capitalized_at_nonempty
                None text 0) as H1.
  pose proof (scan_substrings Regex.suffixed_at suffixed_at_nonempty
                None text 0) as H2.
  rewrite Forall_forall in H1, H2.
  destruct Hin as [Hin|Hin]; [apply H2, Hin|].
  apply set_add_all_in in Hin as [Hin|[]]. apply H1, Hin.
Qed.

(** X10: the parser invents no component: for every input [parse] accepts,
    each component is a non-empty piece of text that occurs in the trimmed
    input as it is. *)
Theorem parse_components_occur (input : str) (h : HeuristicOutput.t) :
  parse input = inr h ->
  Forall (fun comp => comp <> [] /\ includes (trim input) comp = true)
    (HeuristicOutput.components h).
Proof.
  unfold parse. destruct (List.length (trim input) <? 20); [discriminate|].
  intros Hparse. injection Hparse as <-. simpl.
  apply extractComponents_substrings.
Qed.

Lemma parse_components_occur_witness :
  exists h,
    parse HeuristicSamples.many_components = inr h
    /\ Forall (fun comp =>
                 comp <> []
                 /\ includes (trim HeuristicSamples.many_components) comp
                    = true)
         (HeuristicOutput.components h).
Proof.
  eexists. split; [vm_compute; reflexivity|].
  apply (parse_components_occur HeuristicSamples.many_components).
  vm_compute. reflexivity.
Defined.

Lemma qmin_le_r (a b : Q) : (qmin a b <= b)%Q.
Proof.
  unfold qmin. destruct (Qle_bool a b) eqn:E.
  - apply Qle_bool_iff. exact E.
  - apply Qle_refl.
Qed.

Lemma qmin_nonneg (a b : Q) : (0 <= a)%Q -> (0 <= b)%Q -> (0 <= qmin a b)%Q.
Proof. intros Ha Hb. unfold qmin. destruct (Qle_bool a b); assumption. Qed.

Lemma count_scaled_nonneg lower keywords (q : Q) :
  (0 <= q)%Q -> (0 <= inject_Z (count_included lower keywords) * q)%Q.
Proof.
  intros Hq. apply Qmult_le_0_compat; [|exact Hq].
  change 0%Q with (inject_Z 0). rewrite <- Zle_Qle.
  unfold count_included. lia.
Qed.

Lemma qplus_nonneg (a b : Q) : (0 <= a)%Q -> (0 <= b)%Q -> (0 <= a + b)%Q.
Proof.
  intros Ha Hb. setoid_replace 0%Q with (0 + 0)%Q by reflexivity.
  apply Qplus_le_compat; assumption.
Qed.

(** X11: the confidence [calculateConfidence] returns, computed in exact
    rational arithmetic, lies between 0 and 1. *)
Theorem confidence_in_unit_interval (text : str) :
  (0 <= calculateConfidence text <= 1)%Q.
Proof.
  unfold calculateConfidence. cbv zeta. split; [|apply qmin_le_r].
  assert (Hq : forall a b : positive, (0 <= Z.pos a # b)%Q)
    by (intros a b; unfold Qle; simpl; lia).
  apply qmin_nonneg; [|apply (Hq 1%positive 1%positive)].
  repeat apply qplus_nonneg.
  - destruct (100 <? _); [apply Hq | apply Qle_refl].
  - destruct (200 <? _); [apply Hq | apply Qle_refl].
  - apply qmin_nonneg; [apply count_scaled_nonneg|]; apply Hq.
  - apply qmin_nonneg; [apply count_scaled_nonneg|]; apply Hq.
  - apply qmin_nonneg; [apply count_scaled_nonneg|]; apply Hq.
Qed.

End ParserExtras2.

Module ReplaceFacts.

Import OpenRouterAdapter.

Section Related.
Context {G : Type}.
Variable match_at : str -> option (nat * G).
Variable replacer : str -> G -> str.
Variable R : str -> str -> Prop.
Hypothesis R_nil : R [] [].
Hypothesis R_char : forall c, R [c] [c].
Hypothesis R_app :
  forall a a' b b', R a a' -> R b b' -> R (a ++ b) (a' ++ b').
Hypothesis match_inside :
  forall s len g, match_at s = Some (len, g) -> 1 <= len <= List.length s.
Hypothesis replacer_related :
  forall s len g, match_at s = Some (len, g) ->
                  R (firstn len s) (replacer (firstn len s) g).

(** A relation between texts that holds of every match and its
    replacement, and that concatenation keeps, holds of a text and its
    global replacement. *)
Lemma replace_go_related (s : str) (skip : nat) :
  skip <= List.length s ->
  R (skipn skip s) (replace_go match_at replacer s skip).
Proof.
  revert skip. induction s as [|c s IH]; intros skip Hskip.
  - simpl in Hskip. replace skip with 0 by lia. exact R_nil.
  - destruct skip as [|k]; simpl.
    + destruct (match_at (c :: s)) as [[len g]|] eqn:Hm.
      * destruct (match_inside _ _ _ Hm) as [Hlo Hhi]. simpl in Hhi.
        rewrite <- (firstn_skipn len (c :: s)) at 1.
        apply R_app; [apply (replacer_related _ _ _ Hm)|].
        destruct len as [|len]; [lia|].
        simpl. rewrite Nat.sub_0_r. apply IH. lia.
      * apply (R_app [c] [c] (skipn 0 s)); [apply R_char | apply IH; lia].
    + apply IH. simpl in Hskip. lia.
Qed.

End Related.

Lemma replace_go_past_end {G : Type} (match_at : str -> option (nat * G))
  (replacer : str -> G -> str) (s : str) (skip : nat) :
  List.length s <= skip -> replace_go match_at replacer s skip = [].
Proof.
  revert skip. induction s as [|c s IH]; intros skip Hskip; [reflexivity|].
  simpl in Hskip. destruct skip as [|k]; [lia|]. simpl. apply IH. lia.
Qed.

Lemma includes_char (s : str) (c : ascii) :
  includes s [c] = existsb (Ascii.eqb c) s.
Proof.
  induction s as [|x s IH]; [reflexivity|].
  change (includes (x :: s) [c])
    with (startsWith [c] (x :: s) || includes s [c]).
  rewrite IH. simpl. rewrite andb_true_r. reflexivity.
Qed.

Lemma existsb_firstn {A : Type} (p : A -> bool) (n : nat) (l : list A) :
  existsb p l = false -> existsb p (firstn n l) = false.
Proof.
  intros H. rewrite <- (firstn_skipn n l), existsb_app in H.
  apply orb_false_elim in H. tauto.
Qed.

End ReplaceFacts.

Module CleanupProperties.

Import OpenRouterAdapter ResponseRepair ExtraSpec ReplaceFacts.
Import StringFacts RepairFacts.

Lemma trailing_comma_at_match s len g :
  trailing_comma_at s = Some (len, g) ->
  1 <= len <= List.length s /\ exists r, firstn len s = comma :: r.
Proof.
  unfold trailing_comma_at. destruct s as [|c r]; [discriminate|].
  destruct (Ascii.eqb c comma) eqn:Ec; [|discriminate].
  apply Ascii.eqb_eq in Ec. subst c.
  pose proof (take_drop_while is_space r) as Hr.
  destruct (dropWhile is_space r) as [|d r'] eqn:Hd; [discriminate|].
  destruct (is_closer d); [|discriminate].
  intros H. injection H as <- <-.
  apply (f_equal (@List.length ascii)) in Hr.
  rewrite length_app in Hr. simpl in Hr. split.
  - simpl. lia.
  - simpl. eexists. reflexivity.
Qed.

(** X12: the removal of trailing commas deletes commas and nothing else:
    the result and the text are the same once all commas are taken out, and
    the result is no longer than the text. *)
Theorem removeTrailingCommas_deletes_only_commas (jsonStr : str) :
  without comma (removeTrailingCommas jsonStr) = without comma jsonStr
  /\ List.length (removeTrailingCommas jsonStr) <= List.length jsonStr.
Proof.
  unfold removeTrailingCommas, replace_all.
  apply (fun h1 h2 h3 h4 h5 h6 =>
           replace_go_related trailing_comma_at keep_group1
             (fun a b => without comma b = without comma a
                         /\ List.length b <= List.length a)
             h1 h2 h3 h4 h5 jsonStr 0 h6).
  - split; [reflexivity | apply Nat.le_refl].
  - intros c. split; [reflexivity | apply Nat.le_refl].
  - intros a a' b b' [Ha1 Ha2] [Hb1 Hb2]. split.
    + unfold without in *. rewrite !filter_app, Ha1, Hb1. reflexivity.
    + rewrite !length_app. lia.
  - intros s len g Hm. apply (trailing_comma_at_match _ _ _ Hm).
  - intros s len g Hm.
    destruct (trailing_comma_at_match _ _ _ Hm) as [_ [r Hr]].
    rewrite Hr. unfold keep_group1. split; [reflexivity | simpl; lia].
  - simpl. lia.
Qed.

Lemma literal_body_length s escaped n len :
  literal_body s escaped n = Some len -> n < len <= n + List.length s.
Proof.
  revert escaped n. induction s as [|c s IH]; intros escaped n; simpl;
    [discriminate|].
  destruct escaped.
  - destruct (is_line_terminator c); [discriminate|].
    intros H. apply IH in H. lia.
  - destruct (is_quote c); [intros H; injection H as <-; lia|].
    destruct (Ascii.eqb c backslash); intros H; apply IH in H; lia.
Qed.

Lemma string_literal_at_match s len content :
  string_literal_at s = Some (len, content) ->
  2 <= len <= List.length s
  /\ exists q r, s = q :: r /\ content = firstn (len - 2) r.
Proof.
  unfold string_literal_at. destruct s as [|q r]; [discriminate|].
  destruct (is_quote q); [|discriminate].
  destruct (literal_body r false 1) as [n|] eqn:Hb; [|discriminate].
  intros H. injection H as <- <-.
  apply literal_body_length in Hb. simpl. split; [lia|].
  exists q, r. split; reflexivity.
Qed.

Lemma length_escape_controls content :
  List.length content <= List.length (escape_controls content).
Proof.
  unfold escape_controls. induction content as [|c content IH];
    [apply Nat.le_refl|].
  cbn [flat_map]. rewrite length_app.
  destruct (Ascii.eqb c newline); [simpl; lia|].
  destruct (Ascii.eqb c carriage_return); [simpl; lia|].
  destruct (Ascii.eqb c tab); simpl; lia.
Qed.

Lemma no_controls_includes (s : str) :
  no_controls s ->
  includes s [newline] = false /\ includes s [carriage_return] = false
  /\ includes s [tab] = false.
Proof.
  unfold no_controls. rewrite !includes_char.
  induction 1 as [|c s [Hn [Hr Ht]] _ (IH1 & IH2 & IH3)]; [auto|].
  cbn [existsb]. rewrite IH1, IH2, IH3, !orb_false_r.
  repeat split; apply Ascii.eqb_neq; congruence.
Qed.

Lemma no_controls_firstn n s : no_controls s -> no_controls (firstn n s).
Proof.
  unfold no_controls. rewrite !Forall_forall. intros H c Hin.
  apply H. rewrite <- (firstn_skipn n s). apply in_or_app. left. exact Hin.
Qed.

Lemma no_controls_skipn n s : no_controls s -> no_controls (skipn n s).
Proof.
  unfold no_controls. rewrite !Forall_forall. intros H c Hin.
  apply H. rewrite <- (firstn_skipn n s). apply in_or_app. right. exact Hin.
Qed.

Lemma fix_literal_clean matched content :
  no_controls content -> fix_literal matched content = matched.
Proof.
  intros H. apply no_controls_includes in H as (H1 & H2 & H3).
  unfold fix_literal. rewrite H1, H2, H3. reflexivity.
Qed.

(** X13: [fixStringLiterals] never shortens a text, and it leaves a text
    that holds no line feed, carriage return or tab as it is. *)
Theorem fixStringLiterals_lengthens (jsonStr : str) :
  List.length jsonStr <= List.length (fixStringLiterals jsonStr)
  /\ (no_controls jsonStr -> fixStringLiterals jsonStr = jsonStr).
Proof.
  unfold fixStringLiterals, replace_all. split.
  - apply (fun h1 h2 h3 h4 h5 h6 =>
             replace_go_related string_literal_at fix_literal
               (fun a b => List.length a <= List.length b)
               h1 h2 h3 h4 h5 jsonStr 0 h6).
    + apply Nat.le_refl.
    + intros c. apply Nat.le_refl.
    + intros a a' b b' Ha Hb. rewrite !length_app. lia.
    + intros s len g Hm.
      destruct (string_literal_at_match _ _ _ Hm) as [Hlen _]. lia.
    + intros s len content Hm.
      destruct (string_literal_at_match _ _ _ Hm)
        as [[Hlo Hhi] (q & r & -> & ->)].
      unfold fix_literal.
      destruct (_ || _); [|apply Nat.le_refl].
      simpl in Hhi. rewrite !length_app, length_firstn. simpl.
      pose proof (length_escape_controls (firstn (len - 2) r)) as Hesc.
      rewrite length_firstn in Hesc. lia.
    + simpl. lia.
  - intros Hclean.
    assert (Hgen : forall s skip,
               no_controls s -> skip <= List.length s ->
               replace_go string_literal_at fix_literal s skip
               = skipn skip s).
    { induction s as [|c s IH]; intros skip Hs Hskip.
      - simpl in Hskip. replace skip with 0 by lia. reflexivity.
      - assert (Hs' : no_controls s) by (inversion Hs; assumption).
        destruct skip as [|k]; cbn [replace_go skipn].
        + destruct (string_literal_at (c :: s)) as [[len content]|] eqn:Hm.
          * destruct (string_literal_at_match _ _ _ Hm)
              as [[Hlo Hhi] (q & r & Heq & Hcontent)].
            injection Heq as <- <-. simpl in Hhi.
            rewrite fix_literal_clean
              by (rewrite Hcontent; apply no_controls_firstn, Hs').
            rewrite IH by (auto; lia).
            destruct len as [|len]; [lia|].
            cbn [firstn Nat.sub]. rewrite Nat.sub_0_r.
            change (c :: (firstn len s ++ skipn len s) = c :: s).
            rewrite firstn_skipn. reflexivity.
          * rewrite IH by (auto; lia). reflexivity.
        + apply IH; [exact Hs' | simpl in Hskip; lia]. }
    apply (Hgen jsonStr 0 Hclean). lia.
Qed.

Lemma literal_body_plain content rest n :
  Forall (fun c => is_quote c = false /\ c <> backslash) content ->
  literal_body (content ++ quote :: rest) false n
  = Some (S (n + List.length content)).
Proof.
  intros H. revert n. induction H as [|c content [Hq Hb] _ IH]; intros n.
  - simpl. rewrite Nat.add_0_r. reflexivity.
  - simpl. rewrite Hq.
    destruct (Ascii.eqb c backslash) eqn:E;
      [apply Ascii.eqb_eq in E; contradiction|].
    rewrite IH. f_equal. lia.
Qed.

Lemma escape_controls_clean content : no_controls (escape_controls content).
Proof.
  unfold no_controls, escape_controls.
  induction content as [|c content IH]; [constructor|].
  cbn [flat_map]. apply Forall_app. split; [|exact IH].
  destruct (Ascii.eqb c newline) eqn:E1;
    [repeat constructor; discriminate|].
  destruct (Ascii.eqb c carriage_return) eqn:E2;
    [repeat constructor; discriminate|].
  destruct (Ascii.eqb c tab) eqn:E3;
    [repeat constructor; discriminate|].
  apply Ascii.eqb_neq in E1, E2, E3. repeat constructor; assumption.
Qed.

(** X14: a string literal without quote or backslash inside comes out of
    [fixStringLiterals] with every line feed, carriage return and tab of
    its content escaped, and with none of these characters left. *)
Theorem fixStringLiterals_escapes_literal (content : str) :
  Forall (fun c => is_quote c = false /\ c <> backslash) content ->
  fixStringLiterals (quote :: content ++ [quote])
  = quote :: escape_controls content ++ [quote]
  /\ no_controls (fixStringLiterals (quote :: content ++ [quote])).
Proof.
  intros Hplain.
  assert (Heq : fixStringLiterals (quote :: content ++ [quote])
                = quote :: escape_controls content ++ [quote]).
  { unfold fixStringLiterals, replace_all. cbn [replace_go].
    unfold string_literal_at.
    change (is_quote quote) with true. cbv iota.
    rewrite (literal_body_plain content [] 1 Hplain).
    cbn [Nat.add Nat.sub].
    rewrite Nat.sub_0_r.
    rewrite firstn_app, firstn_all, Nat.sub_diag. cbn [firstn].
    rewrite app_nil_r.
    rewrite replace_go_past_end by (rewrite length_app; simpl; lia).
    rewrite app_nil_r.
    assert (Hfirst : firstn (S (List.length content)) (content ++ [quote])
                     = content ++ [quote]).
    { apply firstn_all2. rewrite length_app. simpl. lia. }
    change (match content ++ [quote] with
            | [] => []
            | a :: l => a :: firstn (List.length content) l
            end)
      with (firstn (S (List.length content)) (content ++ [quote])).
    rewrite Hfirst. unfold fix_literal.
    destruct (_ || _) eqn:E; [reflexivity|].
    apply orb_false_elim in E as [E E3].
    apply orb_false_elim in E as [E1 E2].
    rewrite includes_char in E1, E2, E3.
    assert (Hid : escape_controls content = content).
    { clear - E1 E2 E3. unfold escape_controls.
      induction content as [|c content IH]; [reflexivity|].
      cbn [existsb] in E1, E2, E3.
      apply orb_false_elim in E1 as [E1 E1'].
      apply orb_false_elim in E2 as [E2 E2'].
      apply orb_false_elim in E3 as [E3 E3'].
      cbn [flat_map]. rewrite (Ascii.eqb_sym c newline), E1.
      rewrite (Ascii.eqb_sym c carriage_return), E2.
      rewrite (Ascii.eqb_sym c tab), E3.
      simpl. rewrite IH; auto. }
    rewrite Hid. reflexivity. }
  split; [exact Heq|]. rewrite Heq.
  unfold no_controls. constructor; [repeat split; discriminate|].
  apply Forall_app. split; [apply escape_controls_clean|].
  repeat constructor; discriminate.
Qed.

Lemma fixStringLiterals_escapes_literal_witness :
  Forall (fun c => is_quote c = false /\ c <> backslash)
    [ "a"%char; newline; "b"%char ]
  /\ fixStringLiterals (quote :: [ "a"%char; newline; "b"%char ] ++ [quote])
     = quote :: [ "a"%char; backslash; "n"%char; "b"%char ] ++ [quote].
Proof.
  assert (H : Forall (fun c => is_quote c = false /\ c <> backslash)
                [ "a"%char; newline; "b"%char ]).
  { repeat constructor; discriminate. }
  split; [exact H|].
  exact (proj1 (fixStringLiterals_escapes_literal _ H)).
Defined.

End CleanupProperties.

Module RecoveryProperties.

Import OpenRouterAdapter ResponseRepair ExtraSpec PipelineSpec.

Section WithParser.
Variable JSON_parse : str -> str + ParsedPayload.t.

Local Abbreviation parses := (ResponseRepair.parses JSON_parse).
Local Abbreviation cut_point := (ExtraSpec.cut_point JSON_parse).

Lemma substring_from_start (n : nat) (s : str) :
  substring 0 (n + 1) s = firstn (S n) s.
Proof.
  unfold substring. rewrite Nat.sub_0_r, Nat.add_1_r. reflexivity.
Qed.

Lemma truncate_scan_some (jsonStr : str) (n : nat) (testStr : str) :
  truncate_scan JSON_parse jsonStr n = Some testStr ->
  exists i, i < n /\ List.length jsonStr <= 3 * i
            /\ cut_point jsonStr i = true
            /\ testStr = firstn (S i) jsonStr
            /\ forall j, i < j < n -> cut_point jsonStr j = false.
Proof.
  induction n as [|i IH]; simpl; [discriminate|].
  destruct (i + (i + (i + 0)) <? List.length jsonStr) eqn:Estop;
    [discriminate|].
  apply Nat.ltb_ge in Estop.
  rewrite substring_from_start.
  fold (cut_point jsonStr i).
  destruct (cut_point jsonStr i) eqn:Ecut.
  - intros H. injection H as <-. exists i.
    repeat split; [lia | lia | exact Ecut | intros j Hj; lia].
  - intros H. destruct (IH H) as (k & Hk & Hlen & Hcut & Heq & Hmax).
    exists k. repeat split; [lia | lia | exact Hcut | exact Heq |].
    intros j Hj. destruct (Nat.eq_dec j i) as [->|Hne]; [exact Ecut|].
    apply Hmax. lia.
Qed.

Lemma truncate_scan_none (jsonStr : str) (n : nat) :
  truncate_scan JSON_parse jsonStr n = None ->
  forall j, j < n -> List.length jsonStr <= 3 * j ->
            cut_point jsonStr j = false.
Proof.
  induction n as [|i IH]; simpl; [intros _ j Hj; lia|].
  destruct (i + (i + (i + 0)) <? List.length jsonStr) eqn:Estop.
  - apply Nat.ltb_lt in Estop. intros _ j Hj Hlen. lia.
  - rewrite substring_from_start. fold (cut_point jsonStr i).
    destruct (cut_point jsonStr i) eqn:Ecut; [discriminate|].
    intros H j Hj Hlen. destruct (Nat.eq_dec j i) as [->|Hne]; [exact Ecut|].
    apply (IH H); lia.
Qed.

(** X15: truncation returns either the text itself, when no index in the
    last two thirds of the text passes its test, or the longest prefix
    that ends at such an index: the index passes the test (a closing brace
    or bracket there, a quote among the ten characters before it, a prefix
    that parses) and no later index does. *)
Theorem truncateToLastValidStructure_longest_valid_prefix (jsonStr : str) :
  let result := truncateToLastValidStructure JSON_parse jsonStr in
  (result = jsonStr
   /\ forall j, j < List.length jsonStr -> List.length jsonStr <= 3 * j ->
                cut_point jsonStr j = false)
  \/ (exists i c,
        i < List.length jsonStr /\ List.length jsonStr <= 3 * i
        /\ result = firstn (S i) jsonStr
        /\ cut_point jsonStr i = true
        /\ parses result = true
        /\ nth_error jsonStr i = Some c /\ is_closer c = true
        /\ forall j, i < j < List.length jsonStr ->
                     cut_point jsonStr j = false).
Proof.
  unfold truncateToLastValidStructure.
  destruct (truncate_scan JSON_parse jsonStr (List.length jsonStr))
    as [testStr|] eqn:Escan; cbv zeta.
  - right. apply truncate_scan_some in Escan
      as (i & Hi & Hlen & Hcut & -> & Hmax).
    pose proof Hcut as Hcut'. unfold ExtraSpec.cut_point in Hcut'.
    apply andb_true_iff in Hcut' as [Hcut' Hparse].
    apply andb_true_iff in Hcut' as [Hclose _].
    unfold char_at in Hclose.
    destruct (nth_error jsonStr i) as [c|] eqn:Hc; [|discriminate].
    exists i, c. repeat split; assumption.
  - left. split; [reflexivity|]. apply truncate_scan_none, Escan.
Qed.

Lemma extract_scan_some (jsonStr : str) (n : nat) (parsed : ParsedPayload.t) :
  extract_scan JSON_parse jsonStr n = Some parsed ->
  exists i, i < n /\ List.length jsonStr <= 2 * i
            /\ nth_error jsonStr i = Some close_brace
            /\ JSON_parse (firstn (S i) jsonStr) = inr parsed
            /\ forall j, i < j < n ->
                         nth_error jsonStr j = Some close_brace ->
                         parses (firstn (S j) jsonStr) = false.
Proof.
  induction n as [|i IH]; simpl; [discriminate|].
  destruct (i + (i + 0) <? List.length jsonStr) eqn:Estop; [discriminate|].
  apply Nat.ltb_ge in Estop.
  rewrite substring_from_start. unfold char_at.
  assert (Hnext :
            (nth_error jsonStr i = Some close_brace ->
             parses (firstn (S i) jsonStr) = false) ->
            extract_scan JSON_parse jsonStr i = Some parsed ->
            exists k, k < S i /\ List.length jsonStr <= 2 * k
              /\ nth_error jsonStr k = Some close_brace
              /\ JSON_parse (firstn (S k) jsonStr) = inr parsed
              /\ forall j, k < j < S i ->
                           nth_error jsonStr j = Some close_brace ->
                           parses (firstn (S j) jsonStr) = false).
  { intros Hhere H. destruct (IH H) as (k & Hk & Hlen & Hc & Hp & Hmax).
    exists k. repeat split; [lia | lia | exact Hc | exact Hp |].
    intros j Hj Hbrace.
    destruct (Nat.eq_dec j i) as [->|Hne]; [apply Hhere, Hbrace|].
    apply Hmax; [lia | exact Hbrace]. }
  destruct (nth_error jsonStr i) as [c|] eqn:Hc;
    [|apply Hnext; discriminate].
  destruct (Ascii.eqb c close_brace) eqn:Ec.
  - apply Ascii.eqb_eq in Ec. subst c.
    destruct (JSON_parse (firstn (S i) jsonStr)) as [msg|p] eqn:Hp.
    + apply Hnext. intros _. unfold ResponseRepair.parses.
      rewrite Hp. reflexivity.
    + intros H. injection H as ->. exists i.
      repeat split; [lia | lia | exact Hc | exact Hp | intros j Hj; lia].
  - apply Hnext. intros H. injection H as ->.
    rewrite Ascii.eqb_refl in Ec. discriminate.
Qed.

Lemma extract_scan_none (jsonStr : str) (n : nat) :
  extract_scan JSON_parse jsonStr n = None ->
  forall j, j < n -> List.length jsonStr <= 2 * j ->
            nth_error jsonStr j = Some close_brace ->
            parses (firstn (S j) jsonStr) = false.
Proof.
  induction n as [|i IH]; cbn [extract_scan]; [intros _ j Hj; lia|].
  destruct (2 * i <? List.length jsonStr) eqn:Estop.
  { apply Nat.ltb_lt in Estop. intros _ j Hj Hlen. lia. }
  rewrite substring_from_start. unfold char_at.
  intros H j Hj Hlen Hbrace.
  destruct (Nat.eq_dec j i) as [->|Hne].
  - rewrite Hbrace, Ascii.eqb_refl in H. unfold ResponseRepair.parses.
    destruct (JSON_parse (firstn (S i) jsonStr)); [reflexivity|discriminate].
  - assert (Hrest : extract_scan JSON_parse jsonStr i = None).
    { destruct (nth_error jsonStr i) as [c|]; [|exact H].
      destruct (Ascii.eqb c close_brace); [|exact H].
      destruct (JSON_parse (firstn (S i) jsonStr)); [exact H|discriminate]. }
    apply (IH Hrest); [lia | exact Hlen | exact Hbrace].
Qed.

(** X16: backward extraction returns the parse of the longest prefix that
    ends with a closing brace in the second half of the text and parses;
    it returns nothing exactly when no such prefix parses. *)
Theorem extractLastValidJson_longest_parsing_prefix (jsonStr : str) :
  match extractLastValidJson JSON_parse jsonStr with
  | Some parsed =>
      exists i,
        i < List.length jsonStr /\ List.length jsonStr <= 2 * i
        /\ nth_error jsonStr i = Some close_brace
        /\ JSON_parse (firstn (S i) jsonStr) = inr parsed
        /\ forall j, i < j < List.length jsonStr ->
                     nth_error jsonStr j = Some close_brace ->
                     parses (firstn (S j) jsonStr) = false
  | None =>
      forall j, j < List.length jsonStr -> List.length jsonStr <= 2 * j ->
                nth_error jsonStr j = Some close_brace ->
                parses (firstn (S j) jsonStr) = false
  end.
Proof.
  unfold extractLastValidJson.
  destruct (extract_scan JSON_parse jsonStr (List.length jsonStr))
    as [parsed|] eqn:Escan.
  - apply extract_scan_some, Escan.
  - apply extract_scan_none, Escan.
Qed.

(** The text a recovered object was parsed from. *)
Lemma recover_source (jsonStr errorMsg : str) (parsed : ParsedPayload.t) :
  recover JSON_parse jsonStr errorMsg = inr parsed ->
  exists text,
    JSON_parse text = inr parsed
    /\ (text = jsonStr \/ text = repairIncompleteJson jsonStr
        \/ exists i, i < List.length jsonStr
                     /\ List.length jsonStr <= 3 * i
                     /\ text = firstn (S i) jsonStr).
Proof.
  unfold recover. destruct (repairable errorMsg); [|discriminate].
  destruct (JSON_parse (truncateToLastValidStructure JSON_parse jsonStr))
    as [m1|p1] eqn:H1.
  - destruct (JSON_parse (repairIncompleteJson jsonStr)) as [m2|p2] eqn:H2.
    + unfold extractLastValidJson.
      destruct (extract_scan JSON_parse jsonStr (List.length jsonStr))
        as [p3|] eqn:H3; [|discriminate].
      intros H. injection H as <-.
      apply extract_scan_some in H3 as (i & Hi & Hlen & _ & Hp & _).
      exists (firstn (S i) jsonStr). split; [exact Hp|].
      right. right. exists i. repeat split; [exact Hi | lia].
    + intros H. injection H as <-.
      exists (repairIncompleteJson jsonStr). auto.
  - intros H. injection H as <-.
    exists (truncateToLastValidStructure JSON_parse jsonStr).
    split; [exact H1|].
    unfold truncateToLastValidStructure.
    destruct (truncate_scan JSON_parse jsonStr (List.length jsonStr))
      as [testStr|] eqn:Escan; [|left; reflexivity].
    apply truncate_scan_some in Escan as (i & Hi & Hlen & _ & -> & _).
    right. right. exists i. auto.
Qed.

(** X17: a spec that comes out of parsing and validation has a truthy
    title, domain, description and requirements field (of whatever type),
    and it is the object the parser gives for the text itself, for the
    text closed by [repairIncompleteJson], or for a prefix of the text
    that covers at least the first third of it. *)
Theorem parse_and_validate_source (jsonStr : str) (spec : VibeSpec) :
  parse_and_validate JSON_parse jsonStr = inr spec ->
  filled spec
  /\ exists text parsed,
       JSON_parse text = inr parsed
       /\ spec = as_VibeSpec parsed
       /\ (text = jsonStr \/ text = repairIncompleteJson jsonStr
           \/ exists i, i < List.length jsonStr
                        /\ List.length jsonStr <= 3 * i
                        /\ text = firstn (S i) jsonStr).
Proof.
  unfold parse_and_validate. cbv zeta.
  assert (Hvalid : forall parsed,
             validate parsed = inr spec ->
             filled spec /\ spec = as_VibeSpec parsed).
  { intros parsed Hv.
    destruct (PipelineFacts.validate_filled _ _ Hv) as [Heq Hf]. auto. }
  destruct (JSON_parse jsonStr) as [errorMsg|parsed] eqn:Hfirst.
  - destruct (recover JSON_parse jsonStr errorMsg) as [e|parsed] eqn:Hrec;
      [discriminate|].
    intros Hv. destruct (Hvalid parsed Hv) as [Hc Heq].
    split; [exact Hc|].
    destruct (recover_source _ _ _ Hrec) as (text & Hp & Hsrc).
    exists text, parsed. auto.
  - intros Hv. destruct (Hvalid parsed Hv) as [Hc Heq].
    split; [exact Hc|]. exists jsonStr, parsed. auto.
Qed.

End WithParser.

Lemma parse_and_validate_source_witness :
  parse_and_validate sample_parser (lit "{a}}x")
  = inr (as_VibeSpec sample_payload)
  /\ filled (as_VibeSpec sample_payload).
Proof.
  assert (H : parse_and_validate sample_parser (lit "{a}}x")
              = inr (as_VibeSpec sample_payload))
    by (vm_compute; reflexivity).
  split; [exact H|].
  exact (proj1 (parse_and_validate_source sample_parser _ _ H)).
Defined.

End RecoveryProperties.

Module TokenProperties.

Import TokenResolver.




(** X19: the variable [ZHIPUAI_API_KEY] is read for the provider [glm]
    only: for any other provider, two environments that agree on every
    other variable resolve to the same token. *)
Theorem zhipuai_key_only_for_glm
  (env1 env2 : str -> option str) (apiKey : option str)
  (provider : AIProvider) (cliToken : option str) :
  provider <> glm ->
  (forall name, name <> lit "ZHIPUAI_API_KEY" -> env1 name = env2 name) ->
  resolve (mkSources env1 apiKey) provider cliToken
  = resolve (mkSources env2 apiKey) provider cliToken.
Proof.
  intros Hp Henv. unfold resolve. cbn [env config_apiKey].
  assert (H1 : env1 (PROVIDER_CONFIGS_env provider)
               = env2 (PROVIDER_CONFIGS_env provider)).
  { apply Henv. destruct provider; discriminate. }
  assert (H2 : env1 (lit "VIBES_AI_KEY") = env2 (lit "VIBES_AI_KEY")).
  { apply Henv. discriminate. }
  rewrite H1, H2.
  destruct provider; try reflexivity. contradiction.
Qed.

Lemma zhipuai_key_only_for_glm_witness :
  let env1 := fun _ : str => @None str in
  let env2 := fun name : str =>
    if str_eqb name (lit "ZHIPUAI_API_KEY") then Some (lit "zhipu-key")
    else None in
  resolve (mkSources env1 None) openai None
  = resolve (mkSources env2 None) openai None
  /\ resolve (mkSources env2 None) glm None = Some (lit "zhipu-key").
Proof.
  split; [|reflexivity].
  apply zhipuai_key_only_for_glm; [discriminate|].
  intros name Hname.
  destruct (str_eqb name (lit "ZHIPUAI_API_KEY")) eqn:E; [|reflexivity].
  apply str_eqb_eq in E. contradiction.
Defined.

(** X20: the token step of [process] is the resolver's [requireToken],
    once the field [env_token] of the call's world holds what the resolver
    finds without a command-line token. *)
Theorem process_token_is_resolved
  (src : Sources) (provider : AIProvider) (cliToken : option str)
  (w : Processor.World) :
  Processor.env_token w = resolve src provider None ->
  Processor.requireToken w cliToken = requireToken src provider cliToken.
Proof.
  intros Henv. unfold Processor.requireToken, requireToken. rewrite Henv.
  destruct cliToken as [[|c token]|].
  - change (resolve src provider (Some [])) with (resolve src provider None).
    destruct (resolve src provider None) as [[|c t]|]; reflexivity.
  - reflexivity.
  - destruct (resolve src provider None) as [[|c t]|]; reflexivity.
Qed.

Lemma process_token_is_resolved_witness :
  let src :=
    mkSources
      (fun name => if str_eqb name (lit "OPENROUTER_API_KEY")
                   then Some (lit "sk-test") else None)
      None in
  Processor.requireToken PipelineSpec.at_terminal None
  = requireToken src openrouter None
  /\ requireToken src openrouter None = inr (lit "sk-test").
Proof.
  split; [|reflexivity].
  apply process_token_is_resolved. reflexivity.
Defined.

End TokenProperties.

Module ProcessExtras.

Import Processor PipelineSpec ExtraSpec JSMapFacts TrimFacts PipelineFacts.

Section Stored.
Variable Q : VibeSpec -> Prop.

Local Abbreviation all_stored :=
  (fun c : LRUCache.t =>
     Forall (fun e : str * CacheEntry.t => Q (CacheEntry.value (snd e)))
       (LRUCache.cache c)).

Lemma stored_lookup (m : JSMap.t CacheEntry.t) k e :
  Forall (fun e : str * CacheEntry.t => Q (CacheEntry.value (snd e))) m ->
  JSMap.get m k = Some e -> Q (CacheEntry.value e).
Proof.
  induction m as [|[k' e'] m IH]; simpl; [discriminate|].
  intros Hall. apply Forall_cons_iff in Hall as [He' Hm].
  destruct (str_eqb k' k); [|exact (IH Hm)].
  intros Heq. injection Heq as <-. exact He'.
Qed.

Lemma stored_get_key cache k :
  all_stored cache -> all_stored (snd (LRUCache.get_key cache k)).
Proof.
  intros Hall. unfold LRUCache.get_key.
  destruct (JSMap.get (LRUCache.cache cache) k) as [e|] eqn:G;
    [|exact Hall].
  simpl.
  apply (forall_set_value (fun e => Q (CacheEntry.value e))).
  - apply forall_delete, Hall.
  - apply (stored_lookup _ _ _ Hall G).
Qed.

Lemma stored_set_key cache k spec now :
  all_stored cache -> Q spec ->
  all_stored (LRUCache.set_key cache k spec now).
Proof.
  intros Hall Hspec. unfold LRUCache.set_key. simpl.
  apply (forall_set_value (fun e => Q (CacheEntry.value e))); [|exact Hspec].
  unfold LRUCache.evict_oldest.
  set (c1 := if JSMap.has (LRUCache.cache cache) k then _ else cache).
  assert (H1 : all_stored c1).
  { subst c1. destruct (JSMap.has _ k); simpl;
      [apply forall_delete|]; exact Hall. }
  destruct (_ >=? _)%Z; [|exact H1].
  destruct (JSMap.first_key (LRUCache.cache c1)) as [[|ch rest]|];
    try exact H1.
  simpl. apply forall_delete, H1.
Qed.

End Stored.



Section WithDigest.
Variable sha256_hex : str -> str.

Local Abbreviation process := (Processor.process sha256_hex).
Local Abbreviation cache_key := (PipelineSpec.cache_key sha256_hex).
Local Abbreviation answered_from_cache :=
  (PipelineSpec.answered_from_cache sha256_hex).

Lemma hit_or_miss input options w cache :
  (selected_useCache w options = true
   /\ exists e, JSMap.get (LRUCache.cache cache) (cache_key input options w)
                = Some e)
  \/ answered_from_cache input options w cache = false.
Proof.
  unfold PipelineSpec.answered_from_cache, LRUCache.has_key, JSMap.has.
  destruct (selected_useCache w options); [|right; reflexivity].
  destruct (JSMap.get (LRUCache.cache cache) (cache_key input options w))
    as [e|]; [left; eauto | right; reflexivity].
Qed.


(** X22: the cache-hit flag is never raised.  A spec [process] builds
    records no cache hit, and a spec it takes from the cache is returned as
    it was stored; so from a cache whose specs record no cache hit, as a
    new cache, every spec returned records none, and the cache stays such
    a cache. *)
Theorem cache_hit_flag_never_raised
  (input : str) (options : ProcessorOptions.t) (w : World)
  (cache : LRUCache.t) (spec : VibeSpec) :
  flags_lowered cache ->
  fst (process input options w cache) = inr spec ->
  reports_cache_hit spec = Some false
  /\ flags_lowered (snd (process input options w cache)).
Proof.
  unfold flags_lowered. intros Hcache.
  destruct (List.length (trim input) <? 20) eqn:E.
  { unfold Processor.process. rewrite E. discriminate. }
  apply Nat.ltb_ge in E.
  destruct (hit_or_miss input options w cache) as [[Huse [e Hget]]|Hmiss].
  - rewrite (process_hit sha256_hex input options w cache e E Huse Hget).
    simpl. intros H. injection H as <-. split.
    + apply (stored_lookup (fun s => reports_cache_hit s = Some false)
               _ _ _ Hcache Hget).
    + apply (stored_get_key (fun s => reports_cache_hit s = Some false)),
        Hcache.
  - destruct (process_miss sha256_hex input options w cache E Hmiss)
      as (h & _ & Hprocess).
    cbv zeta in Hprocess. rewrite Hprocess. clear Hprocess. simpl.
    intros H. injection H as <-.
    pose proof (refine_or_fall_back_flag sha256_hex w options (trim input)
                  (selected_provider w options) (selected_model w options) h)
      as Hflag.
    split; [exact Hflag|].
    assert (H1 : Forall
                   (fun e : str * CacheEntry.t =>
                      reports_cache_hit (CacheEntry.value (snd e))
                      = Some false)
                   (LRUCache.cache
                      (if selected_useCache w options
                       then LRUCache.with_stats cache LRUCache.incr_misses
                       else cache))).
    { destruct (selected_useCache w options); exact Hcache. }
    destruct (selected_useCache w options && _); [|exact H1].
    apply (stored_set_key (fun s => reports_cache_hit s = Some false));
      assumption.
Qed.

(** X23: with caching switched off, by the option or by the
    configuration, [process] neither reads nor writes the cache: the cache
    comes back as it went in, and the result is the same for every
    cache. *)
Theorem process_without_cache
  (input : str) (options : ProcessorOptions.t) (w : World)
  (cache other : LRUCache.t) :
  selected_useCache w options = false ->
  snd (process input options w cache) = cache
  /\ fst (process input options w cache)
     = fst (process input options w other).
Proof.
  intros Huse. unfold Processor.process. rewrite Huse.
  destruct (List.length (trim input) <? 20); [split; reflexivity|].
  destruct (HeuristicParser.parse (trim input)) as [e|h];
    [split; reflexivity|].
  destruct (refine_or_fall_back sha256_hex w options (trim input)
              (selected_provider w options) (selected_model w options) h)
    as [spec flag].
  split; reflexivity.
Qed.

(** X24: without an API key, neither on the command line nor in the
    environment or the configuration, the provider is not asked: the
    outcome of [process] is the same whatever the provider would reply. *)
Theorem process_without_token_ignores_provider
  (input : str) (options : ProcessorOptions.t) (w : World)
  (cache : LRUCache.t) (other : OpenRouterAdapter.ProviderReply) (e : Error) :
  requireToken w (ProcessorOptions.token options) = inl e ->
  process input options (with_reply w other) cache
  = process input options w cache.
Proof.
  intros Htoken.
  assert (Htry : forall w', env_token w' = env_token w ->
                            try_refine w' options = inl e).
  { intros w' Henv. unfold try_refine, requireToken in *.
    rewrite Henv. rewrite Htoken. reflexivity. }
  unfold Processor.process, refine_or_fall_back.
  rewrite (Htry w eq_refl), (Htry (with_reply w other) eq_refl).
  reflexivity.
Qed.


End WithDigest.

Lemma cache_hit_flag_never_raised_witness :
  flags_lowered LRUCache.getCache_initial
  /\ reports_cache_hit refined_spec = Some false.
Proof.
  assert (H : flags_lowered LRUCache.getCache_initial) by constructor.
  split; [exact H|].
  apply (cache_hit_flag_never_raised Samples.sample_digest todo_input
           no_options online LRUCache.getCache_initial refined_spec H).
  vm_compute. reflexivity.
Defined.

Lemma process_without_cache_witness :
  let options :=
    ProcessorOptions.mk None None None (Some false) None in
  selected_useCache online options = false
  /\ snd (Processor.process Samples.sample_digest todo_input options online
            LRUCache.getCache_initial)
     = LRUCache.getCache_initial.
Proof.
  split; [reflexivity|].
  apply (process_without_cache Samples.sample_digest todo_input
           (ProcessorOptions.mk None None None (Some false) None) online
           LRUCache.getCache_initial LRUCache.getCache_initial).
  reflexivity.
Defined.

Lemma process_without_token_ignores_provider_witness :
  requireToken offline (ProcessorOptions.token no_options)
  = inl (OtherError (lit "No API key found for provider"))
  /\ Processor.process Samples.sample_digest todo_input no_options
       (with_reply offline (OpenRouterAdapter.Parsed sample_payload))
       LRUCache.getCache_initial
     = Processor.process Samples.sample_digest todo_input no_options offline
         LRUCache.getCache_initial.
Proof.
  split; [reflexivity|].
  apply (process_without_token_ignores_provider Samples.sample_digest
           todo_input no_options offline LRUCache.getCache_initial
           (OpenRouterAdapter.Parsed sample_payload)
           (OtherError (lit "No API key found for provider"))).
  reflexivity.
Defined.

End ProcessExtras.

Module WizardProperties.

Import ExtraSpec TrimFacts SplitFacts.

Lemma split_char_go_pieces (sep : ascii) (s cur : str) :
  ~ In sep cur ->
  Forall (fun piece => ~ In sep piece) (SpecWizard.split_char_go sep s cur).
Proof.
  revert cur. induction s as [|c s IH]; intros cur Hcur; simpl.
  - constructor; [|constructor]. intros H. apply in_rev in H. auto.
  - destruct (Ascii.eqb c sep) eqn:E.
    + constructor; [intros H; apply in_rev in H; auto|].
      apply IH. intros [].
    + apply IH. intros [H|H]; [|auto].
      subst c. rewrite Ascii.eqb_refl in E. discriminate.
Qed.

Lemma items_clean (sep : ascii) (input : str) :
  clean_items sep (SpecWizard.items sep input).
Proof.
  unfold clean_items, SpecWizard.items. apply Forall_forall. intros t Ht.
  apply filter_In in Ht as [Ht Hne]. apply in_map_iff in Ht as [p [<- Hp]].
  split; [apply ParserExtras.nonempty_true, Hne|].
  split; [apply trim_idempotent|].
  pose proof (split_char_go_pieces sep input [] (fun H => H)) as Hpieces.
  rewrite Forall_forall in Hpieces. intros Hin.
  apply (Hpieces p Hp), trim_in, Hin.
Qed.

(** X26: in the spec the wizard builds, the components, the tech stack
    and the acceptance criteria are arrays of strings whose entries are
    not empty, have no white space at their ends and hold no comma;
    requirements the user edited are such entries without a line feed, and
    requirements the user did not edit are those of the heuristic
    parser. *)
Theorem wizard_lists_are_clean
  (input : str) (heuristicOutput : HeuristicOutput.t) (a : SpecWizard.Answers) :
  let spec := SpecWizard.refine input heuristicOutput a in
  (exists comps tech crit,
     components spec = strings comps /\ clean_items SpecWizard.comma comps
     /\ tech_stack spec = strings tech /\ clean_items SpecWizard.comma tech
     /\ acceptance_criteria spec = strings crit
     /\ clean_items SpecWizard.comma crit)
  /\ if SpecWizard.editRequirements a
     then exists reqs,
            requirements spec = strings reqs
            /\ clean_items SpecWizard.newline reqs
     else requirements spec
          = strings (HeuristicOutput.requirements heuristicOutput).
Proof.
  cbv zeta. unfold SpecWizard.refine. simpl. split.
  - eexists _, _, _. split; [reflexivity|]. split; [apply items_clean|].
    split; [reflexivity|]. split; [apply items_clean|].
    split; [reflexivity|].
    destruct (SpecWizard.addAcceptanceCriteria a); [apply items_clean | constructor].
  - destruct (SpecWizard.editRequirements a); [|reflexivity].
    eexists. split; [reflexivity | apply items_clean].
Qed.

Import WizardHelpers.

Lemma split_each_go_head (sep : ascii -> bool) (s cur : str) :
  Forall (fun c => sep c = false) cur ->
  Forall (fun c => sep c = false) (hd [] (split_each_go sep s cur)).
Proof.
  revert cur. induction s as [|c s IH]; intros cur Hcur; simpl.
  - apply Forall_rev, Hcur.
  - destruct (sep c) eqn:E; [simpl; apply Forall_rev, Hcur|].
    apply IH. constructor; assumption.
Qed.

(** X27: the title the wizard proposes has at most 100 characters; it is
    the first sentence of the input, free of the terminators [. ! ?], or
    the first 97 characters of that sentence followed by three dots. *)
Theorem wizard_title_bounded (input : str) :
  let firstSentence :=
    trim (hd [] (split_each HeuristicParser.is_terminator input)) in
  List.length (extractTitle input) <= 100
  /\ Forall (fun c => HeuristicParser.is_terminator c = false) firstSentence
  /\ (extractTitle input = firstSentence
      \/ (100 < List.length firstSentence
          /\ extractTitle input = firstn 97 firstSentence ++ lit "...")).
Proof.
  cbv zeta. unfold extractTitle.
  set (firstSentence :=
         trim (hd [] (split_each HeuristicParser.is_terminator input))).
  assert (Hfree : Forall (fun c => HeuristicParser.is_terminator c = false)
                    firstSentence).
  { pose proof (split_each_go_head HeuristicParser.is_terminator input []
                  (Forall_nil _)) as Hhead.
    rewrite Forall_forall in *. intros c Hc.
    apply Hhead, trim_in, Hc. }
  destruct (100 <? List.length firstSentence) eqn:E.
  - apply Nat.ltb_lt in E. split; [|split; [exact Hfree|right; auto]].
    unfold substring0. rewrite length_app, length_firstn.
    change (List.length (lit "...")) with 3. lia.
  - apply Nat.ltb_ge in E. split; [lia|]. split; [exact Hfree | left; reflexivity].
Qed.

End WizardProperties.

Module RateProperties.

Import CacheTrace HitRate.

Section WithDigest.
Variable sha256_hex : str -> str.

Local Abbreviation run := (CacheTrace.run sha256_hex).
Local Abbreviation step := (CacheTrace.step sha256_hex).

Lemma counters_nonneg_step c o :
  (0 <= CacheStats.hits (LRUCache.stats c)
   /\ 0 <= CacheStats.misses (LRUCache.stats c))%Z ->
  (0 <= CacheStats.hits (LRUCache.stats (step c o))
   /\ 0 <= CacheStats.misses (LRUCache.stats (step c o)))%Z.
Proof.
  intros [Hh Hm].
  destruct o; unfold CacheTrace.step, LRUCache.get, LRUCache.set; simpl.
  - unfold LRUCache.get_key.
    destruct (JSMap.get (LRUCache.cache c) _); simpl; lia.
  - unfold LRUCache.evict_oldest.
    set (c1 := if JSMap.has (LRUCache.cache c) _ then _ else c).
    assert (H1 : LRUCache.stats c1 = LRUCache.stats c).
    { subst c1. destruct (JSMap.has _ _); reflexivity. }
    destruct (_ >=? _)%Z; [|rewrite H1; auto].
    destruct (JSMap.first_key (LRUCache.cache c1)) as [[|ch rest]|];
      simpl; rewrite H1; auto.
  - lia.
Qed.

Lemma counters_nonneg_run ops c :
  (0 <= CacheStats.hits (LRUCache.stats c)
   /\ 0 <= CacheStats.misses (LRUCache.stats c))%Z ->
  (0 <= CacheStats.hits (LRUCache.stats (run ops c))
   /\ 0 <= CacheStats.misses (LRUCache.stats (run ops c)))%Z.
Proof.
  revert c. induction ops as [|o ops IH]; intros c Hc; [exact Hc|].
  change (run (o :: ops) c) with (run ops (step c o)).
  apply IH, counters_nonneg_step, Hc.
Qed.

(** X28: after any sequence of operations on a new cache the hit rate,
    computed in exact rational arithmetic, is a percentage: it lies between
    0 and 100, and it is 0 when no hit was counted. *)
Theorem getHitRate_is_percentage (maxSize : Z) (ops : list op) :
  let c := run ops (LRUCache.new maxSize) in
  (0 <= getHitRate c <= 100)%Q
  /\ (CacheStats.hits (LRUCache.getStats c) = 0%Z ->
      (getHitRate c == 0)%Q).
Proof.
  cbv zeta.
  destruct (counters_nonneg_run ops (LRUCache.new maxSize)) as [Hh Hm];
    [simpl; lia|].
  unfold getHitRate, LRUCache.getStats. cbv zeta.
  set (h := CacheStats.hits _) in *. set (m := CacheStats.misses _) in *.
  destruct (h + m =? 0)%Z eqn:E.
  - repeat split; discriminate.
  - apply Z.eqb_neq in E.
    destruct (h + m)%Z as [|p|p] eqn:Ht; [contradiction| |lia].
    assert (Hle : (h <= Z.pos p)%Z) by lia.
    unfold Qle, Qeq, Qdiv, Qmult, Qinv, inject_Z. simpl.
    repeat split; nia.
Qed.

End WithDigest.

End RateProperties.
